(** * The todo application: domain validation, in-memory repository, services

    A shallow embedding of [todo/domain/models.py], [todo/domain/errors.py],
    [todo/repository/memory_repo.py] and [todo/application/services.py],
    followed by the properties of the task repository and of the service
    layer.

    Conventions of the embedding.
    - A Python [int] is a [Z]; a [str] is a [string] whose characters stand
      for code points below 256; a [datetime] is the instant it denotes, in
      microseconds, as a [Z]; a [date] is a record of year, month and day.
    - [Task] is a mutable dataclass.  Task objects live in a store of
      objects and are denoted by their address ([loc]); the repository's
      dictionary holds addresses, and so do the values handed to callers.
    - A Python [list] built by a query is an object of its own, kept in a
      second store.  The [tags] of a task are kept by value inside the task.
    - A method is a function from the world to an outcome and a world:
      an exception leaves the world as it is at the point of the [raise]. *)

From Stdlib Require Import ZArith List String Ascii Bool Lia Permutation.
From Stdlib Require Import Sorting.Sorted Numbers.DecimalString.
From stdpp Require Import base option list strings.

Local Open Scope Z_scope.

(* ================================================================== *)
(** * Strings *)

(** [str.isspace] on one character (code points below 256). *)
Definition isspace (c : ascii) : bool :=
  let n := Z.of_N (N_of_ascii c) in
  ((9 <=? n) && (n <=? 13)) || ((28 <=? n) && (n <=? 32))
  || (n =? 133) || (n =? 160).

Fixpoint lstrip (s : string) : string :=
  match s with
  | EmptyString => EmptyString
  | String c r => if isspace c then lstrip r else s
  end.

Definition rstrip (s : string) : string := String.rev (lstrip (String.rev s)).

(** [str.strip()] *)
Definition strip (s : string) : string := rstrip (lstrip s).

(** [str.split(sep)] for a separator of one character: never empty. *)
Fixpoint split (sep : ascii) (s : string) : list string :=
  match s with
  | EmptyString => [EmptyString]
  | String c r =>
      if Ascii.eqb c sep then EmptyString :: split sep r
      else match split sep r with
           | piece :: rest => String c piece :: rest
           | [] => [String c EmptyString]
           end
  end.

(** [str.lower] on one character (code points below 256). *)
Definition lower_char (c : ascii) : ascii :=
  let n := N_of_ascii c in
  if ((65 <=? n) && (n <=? 90) || (192 <=? n) && (n <=? 222) && negb (n =? 215))%N
  then ascii_of_N (n + 32) else c.

Fixpoint lower (s : string) : string :=
  match s with
  | EmptyString => EmptyString
  | String c r => String (lower_char c) (lower r)
  end.

(** [needle in hay] for strings, as a proposition. *)
Definition contains (hay needle : string) : Prop :=
  ∃ pre post, hay = pre +:+ needle +:+ post.

(* ================================================================== *)
(** * Errors ([todo/domain/errors.py]) *)

Inductive exn : Type :=
| ValidationError (message : string)
| TaskNotFoundError (task_id : Z).

(** What a call does: return, raise, or go wrong.  [Wrong] is not a Python
    behaviour: it marks the use of an address that denotes no object, which
    cannot happen in Python and is excluded by [wf] below. *)
Inductive outcome (A : Type) : Type :=
| Ok (a : A)
| Raise (e : exn)
| Wrong.
Arguments Ok {A} a.
Arguments Raise {A} e.
Arguments Wrong {A}.

(* ================================================================== *)
(** * Dates *)

Record date : Type := mkDate { year : Z; month : Z; day : Z }.

Definition MINYEAR : Z := 1.
Definition MAXYEAR : Z := 9999.

(** [date.max] *)
Definition date_max : date := mkDate 9999 12 31.

Definition is_leap (y : Z) : bool :=
  (y mod 4 =? 0) && (negb (y mod 100 =? 0) || (y mod 400 =? 0)).

Definition days_in_month (y m : Z) : Z :=
  if m =? 2 then (if is_leap y then 29 else 28)
  else if (m =? 4) || (m =? 6) || (m =? 9) || (m =? 11) then 30
  else 31.

(** The check of the [date] constructor. *)
Definition valid_ymd (y m d : Z) : bool :=
  (MINYEAR <=? y) && (y <=? MAXYEAR) && (1 <=? m) && (m <=? 12)
  && (1 <=? d) && (d <=? days_in_month y m).

Definition valid_date (d : date) : Prop :=
  valid_ymd (year d) (month d) (day d) = true.

Definition date_eqb (a b : date) : bool :=
  (year a =? year b) && (month a =? month b) && (day a =? day b).

(** Dates compare as (year, month, day). *)
Definition date_ltb (a b : date) : bool :=
  (year a <? year b)
  || ((year a =? year b)
      && ((month a <? month b)
          || ((month a =? month b) && (day a <? day b)))).

Definition digit_val (c : ascii) : option Z :=
  let n := Z.of_N (N_of_ascii c) in
  if (48 <=? n) && (n <=? 57) then Some (n - 48) else None.

(** A run of decimal digits, most significant first. *)
Fixpoint parse_digits (acc : Z) (cs : list ascii) : option Z :=
  match cs with
  | [] => Some acc
  | c :: r =>
      match digit_val c with
      | Some v => parse_digits (10 * acc + v) r
      | None => None
      end
  end.

Definition dash : ascii := "-"%char.

(** Modelled from the spec: [date.fromisoformat] belongs to Python's
    standard library and is not part of the repository.  The spec (4.1)
    has the input parse as an ISO calendar date, [YYYY-MM-DD], a real
    calendar date.  The definition is the parser of that form: ten
    characters, digits around two dashes, then the range check of the
    [date] constructor; [None] stands for [ValueError].  (Interpreters
    from 3.11 on additionally read the compact and week forms of ISO 8601;
    those are outside this model.) *)
Definition fromisoformat (s : string) : option date :=
  match list_ascii_of_string s with
  | [y1; y2; y3; y4; s1; m1; m2; s2; d1; d2] =>
      match parse_digits 0 [y1; y2; y3; y4],
            parse_digits 0 [m1; m2],
            parse_digits 0 [d1; d2] with
      | Some y, Some m, Some d =>
          if Ascii.eqb s1 dash && Ascii.eqb s2 dash && valid_ymd y m d
          then Some (mkDate y m d) else None
      | _, _, _ => None
      end
  | _ => None
  end.

Definition digit_char (v : Z) : ascii := ascii_of_N (Z.to_N (48 + v mod 10)).

(** [date.isoformat]: the year on four digits, month and day on two. *)
Definition isoformat (d : date) : string :=
  string_of_list_ascii
    [ digit_char (year d / 1000); digit_char (year d / 100);
      digit_char (year d / 10); digit_char (year d); dash;
      digit_char (month d / 10); digit_char (month d); dash;
      digit_char (day d / 10); digit_char (day d) ].

(* ================================================================== *)
(** * Domain model and validation ([todo/domain/models.py]) *)

Inductive Status : Type := Open | Done.
Inductive Priority : Type := Low | Med | High.

Definition datetime : Type := Z.

Record Task : Type := mkTask {
  id : Z;
  title : string;
  status : Status;
  created_at : datetime;
  due_date : option date;
  priority : option Priority;
  tags : list string
}.

Definition Status_eqb (a b : Status) : bool :=
  match a, b with Open, Open | Done, Done => true | _, _ => false end.

Definition validate_title (title : string) : outcome string :=
  let stripped := strip title in
  if String.eqb stripped EmptyString then Raise (ValidationError "Title cannot be empty")
  else Ok stripped.

Definition parse_due_date (due_str : option string) : outcome (option date) :=
  match due_str with
  | None => Ok None
  | Some s =>
      match fromisoformat s with
      | Some d => Ok (Some d)
      | None =>
          Raise (ValidationError
                   ("Invalid date format: " +:+ s +:+ ". Expected YYYY-MM-DD"))
      end
  end.

Definition validate_priority (priority_str : option string)
  : outcome (option Priority) :=
  match priority_str with
  | None => Ok None
  | Some s =>
      if String.eqb s "low" then Ok (Some Low)
      else if String.eqb s "med" then Ok (Some Med)
      else if String.eqb s "high" then Ok (Some High)
      else Raise (ValidationError
                    ("Invalid priority: " +:+ s
                     +:+ ". Must be one of: low, med, high"))
  end.

Definition nonempty (s : string) : bool := negb (String.eqb s EmptyString).

Definition parse_tags (tags_str : option string) : list string :=
  match tags_str with
  | None => []
  | Some s => List.filter nonempty (map strip (split ","%char s))
  end.

(* ================================================================== *)
(** * The world: objects, the repository, and methods as state passing *)

(** An address of a [Task] object, and of a [list] object. *)
Abbreviation loc := nat (only parsing).
Abbreviation lloc := nat (only parsing).

(** A Python [dict] from ids to task objects, in insertion order.  Keys of
    a dict are unique; [wf] below records it. *)
Definition dict : Type := list (Z * loc).

Definition dict_get (k : Z) (d : dict) : option loc :=
  snd <$> List.find (λ kv, fst kv =? k) d.

(** [k in d] *)
Definition dict_mem (k : Z) (d : dict) : bool :=
  match dict_get k d with Some _ => true | None => false end.

(** [d[k] = v]: an existing key keeps its place, a new one goes last. *)
Fixpoint dict_set (k : Z) (v : loc) (d : dict) : dict :=
  match d with
  | [] => [(k, v)]
  | (k', v') :: r => if k' =? k then (k, v) :: r else (k', v') :: dict_set k v r
  end.

(** [del d[k]] *)
Definition dict_del (k : Z) (d : dict) : dict :=
  List.filter (λ kv, negb (fst kv =? k)) d.

Definition keys (d : dict) : list Z := map fst d.
Definition values (d : dict) : list loc := map snd d.

(** [MemoryTaskRepository]: the attributes of the instance. *)
Record MemoryTaskRepository : Type := mkRepo {
  _tasks : dict;
  _next_id : Z
}.

Record World : Type := mkWorld {
  objects : list Task;       (* the Task objects, by address *)
  lists : list (list loc);   (* the list objects built by queries *)
  repo : MemoryTaskRepository
}.

Definition M (A : Type) : Type := World → outcome A * World.

#[export] Instance M_ret : MRet M := λ A a w, (Ok a, w).

#[export] Instance M_bind : MBind M := λ A B k m w,
  match m w with
  | (Ok a, w') => k a w'
  | (Raise e, w') => (Raise e, w')
  | (Wrong, w') => (Wrong, w')
  end.

Definition raise {A : Type} (e : exn) : M A := λ w, (Raise e, w).

(** A computation that does not touch the world. *)
Definition lift {A : Type} (o : outcome A) : M A := λ w, (o, w).

Definition set_repo (r : MemoryTaskRepository) (w : World) : World :=
  mkWorld (objects w) (lists w) r.

Definition set_objects (os : list Task) (w : World) : World :=
  mkWorld os (lists w) (repo w).

Definition set_lists (ls : list (list loc)) (w : World) : World :=
  mkWorld (objects w) ls (repo w).

(** Construction of a [Task] object: a new address. *)
Definition new_task (t : Task) : M loc := λ w,
  (Ok (length (objects w)), set_objects (objects w ++ [t]) w).

(** Construction of a [list] object: a new address. *)
Definition new_list (l : list loc) : M lloc := λ w,
  (Ok (length (lists w)), set_lists (lists w ++ [l]) w).

(** Attribute assignments on the object at [l]. *)
Definition mutate (l : loc) (f : Task → Task) : M unit := λ w,
  match objects w !! l with
  | Some t => (Ok tt, set_objects (<[l := f t]> (objects w)) w)
  | None => (Wrong, w)
  end.

(** The objects behind the entries of a dict: [d.items()] with each task
    read through its address. *)
Definition items (os : list Task) (d : dict) : option (list (Z * (loc * Task))) :=
  mapM (λ kv, (λ t, (fst kv, (snd kv, t))) <$> os !! snd kv) d.

Definition read_items (d : dict) : M (list (Z * (loc * Task))) := λ w,
  match items (objects w) d with
  | Some its => (Ok its, w)
  | None => (Wrong, w)
  end.

(** [self], the repository instance, read and written. *)
Definition read_repo : M MemoryTaskRepository := λ w, (Ok (repo w), w).

Definition write_repo (r : MemoryTaskRepository) : M unit := λ w,
  (Ok tt, set_repo r w).

(* ------------------------------------------------------------------ *)
(** ** Attribute assignment *)

Definition set_title (v : string) (t : Task) : Task :=
  mkTask (id t) v (status t) (created_at t) (due_date t) (priority t) (tags t).
Definition set_status (v : Status) (t : Task) : Task :=
  mkTask (id t) (title t) v (created_at t) (due_date t) (priority t) (tags t).
Definition set_due_date (v : option date) (t : Task) : Task :=
  mkTask (id t) (title t) (status t) (created_at t) v (priority t) (tags t).
Definition set_priority (v : option Priority) (t : Task) : Task :=
  mkTask (id t) (title t) (status t) (created_at t) (due_date t) v (tags t).
Definition set_tags (v : list string) (t : Task) : Task :=
  mkTask (id t) (title t) (status t) (created_at t) (due_date t) (priority t) v.

(** A keyword argument whose default is the sentinel [...]. *)
Inductive arg (A : Type) : Type :=
| Ellipsis
| Given (a : A).
Arguments Ellipsis {A}.
Arguments Given {A} a.

(** [tags or []] *)
Definition or_empty (tags : option (list string)) : list string :=
  match tags with Some l => l | None => [] end.

(** The five conditional assignments of [update], in order. *)
Definition assign (title : option string) (status : option Status)
    (due_date : arg (option date)) (priority : arg (option Priority))
    (tags : arg (option (list string))) (task : Task) : Task :=
  let task := match title with Some v => set_title v task | None => task end in
  let task := match status with Some v => set_status v task | None => task end in
  let task := match due_date with Given v => set_due_date v task | Ellipsis => task end in
  let task := match priority with Given v => set_priority v task | Ellipsis => task end in
  let task := match tags with Given v => set_tags (or_empty v) task | Ellipsis => task end in
  task.

(* ------------------------------------------------------------------ *)
(** ** Sorting *)

(** [sorted(l, key=key)]: Python's sort is stable, and a stable sort has
    one result; it is written here as insertion of each element before the
    first one whose key is not smaller. *)
Section Sorted.
Context {A K : Type} (leb : K → K → bool) (key : A → K).

Fixpoint insert_sorted (x : A) (l : list A) : list A :=
  match l with
  | [] => [x]
  | y :: r => if leb (key x) (key y) then x :: l else y :: insert_sorted x r
  end.

Fixpoint sorted (l : list A) : list A :=
  match l with
  | [] => []
  | x :: r => insert_sorted x (sorted r)
  end.
End Sorted.

(** Tuples compare by their first differing component. *)
Definition pair_leb {A B : Type} (eqA ltA : A → A → bool) (leB : B → B → bool)
    (x y : A * B) : bool :=
  if eqA (fst x) (fst y) then leB (snd x) (snd y) else ltA (fst x) (fst y).

(** The selectors ["created"], ["due"], ["priority"] and ["all"], ["open"],
    ["done"]. *)
Inductive SortField : Type := sort_created | sort_due | sort_priority.
Inductive StatusFilter : Type := any_status | only (s : Status).

Definition created_key (t : Task) : datetime * Z := (created_at t, id t).

Definition due_key (t : Task) : Z * (date * Z) :=
  match due_date t with
  | Some d => (0, (d, id t))
  | None => (1, (date_max, id t))
  end.

Definition priority_order (p : option Priority) : Z :=
  match p with
  | Some High => 0
  | Some Med => 1
  | Some Low => 2
  | None => 3
  end.

Definition priority_key (t : Task) : Z * Z := (priority_order (priority t), id t).

Definition created_leb : datetime * Z → datetime * Z → bool :=
  pair_leb Z.eqb Z.ltb Z.leb.
Definition due_leb : Z * (date * Z) → Z * (date * Z) → bool :=
  pair_leb Z.eqb Z.ltb (pair_leb date_eqb date_ltb Z.leb).
Definition priority_leb : Z * Z → Z * Z → bool :=
  pair_leb Z.eqb Z.ltb Z.leb.

(** [_sort_tasks], on tasks paired with their addresses. *)
Definition _sort_tasks (tasks : list (loc * Task)) (sort : SortField)
  : list (loc * Task) :=
  match sort with
  | sort_created => sorted created_leb (λ p, created_key (snd p)) tasks
  | sort_due => sorted due_leb (λ p, due_key (snd p)) tasks
  | sort_priority => sorted priority_leb (λ p, priority_key (snd p)) tasks
  end.

Definition status_matches (f : Status) (t : Task) : bool :=
  Status_eqb (status t) f.

(** [any(tg.lower() == tag_lower for tg in t.tags)] *)
Definition has_tag (tag_lower : string) (t : Task) : bool :=
  existsb (λ tg, String.eqb (lower tg) tag_lower) (tags t).

(** The two filters and the sort of [list_all]. *)
Definition select (status : StatusFilter) (tag : option string)
    (sort : SortField) (tasks : list (loc * Task)) : list (loc * Task) :=
  let tasks := match status with
               | any_status => tasks
               | only s => List.filter (λ p, status_matches s (snd p)) tasks
               end in
  let tasks := match tag with
               | None => tasks
               | Some tg => List.filter (λ p, has_tag (lower tg) (snd p)) tasks
               end in
  _sort_tasks tasks sort.

(* ================================================================== *)
(** * The repository ([todo/repository/memory_repo.py]) *)

(** [MemoryTaskRepository()] in a process with no object yet. *)
Definition init : World := mkWorld [] [] (mkRepo [] 1).

Definition add (title : string) (created_at : datetime)
    (due_date : option date) (priority : option Priority)
    (tags : option (list string)) : M loc :=
  self ← read_repo;
  task ← new_task (mkTask (_next_id self) title Open created_at due_date
                          priority (or_empty tags));
  _ ← write_repo (mkRepo (dict_set (_next_id self) task (_tasks self))
                         (_next_id self + 1));
  mret task.

Definition get (task_id : Z) : M loc :=
  self ← read_repo;
  match dict_get task_id (_tasks self) with
  | None => raise (TaskNotFoundError task_id)
  | Some task => mret task
  end.

Definition update (task_id : Z) (title : option string)
    (status : option Status) (due_date : arg (option date))
    (priority : arg (option Priority)) (tags : arg (option (list string)))
  : M loc :=
  task ← get task_id;
  _ ← mutate task (assign title status due_date priority tags);
  mret task.

Definition delete (task_id : Z) : M unit :=
  self ← read_repo;
  if dict_mem task_id (_tasks self)
  then write_repo (mkRepo (dict_del task_id (_tasks self)) (_next_id self))
  else raise (TaskNotFoundError task_id).

Definition is_done (e : Z * (loc * Task)) : bool :=
  Status_eqb (status (snd (snd e))) Done.

Definition clear_done : M Z :=
  self ← read_repo;
  its ← read_items (_tasks self);
  let done_ids := map fst (List.filter is_done its) in
  _ ← write_repo (mkRepo (fold_left (λ d tid, dict_del tid d) done_ids
                                    (_tasks self))
                         (_next_id self));
  mret (Z.of_nat (length done_ids)).

Definition list_all (status : StatusFilter) (tag : option string)
    (sort : SortField) : M lloc :=
  self ← read_repo;
  its ← read_items (_tasks self);
  new_list (map fst (select status tag sort (map snd its))).

(* ================================================================== *)
(** * The services ([todo/application/services.py]) *)

(** [TodoService] holds one repository: the one of the world.  The clock
    read by [utc_now()] is an argument. *)
Definition add_task (now : datetime) (title : string) (due : option string)
    (priority : option string) (tags : option string) : M loc :=
  validated_title ← lift (validate_title title);
  due_date ← lift (parse_due_date due);
  validated_priority ← lift (validate_priority priority);
  let parsed_tags := parse_tags tags in
  add validated_title now due_date validated_priority (Some parsed_tags).

Definition get_task (task_id : Z) : M loc := get task_id.

Definition list_tasks (status : StatusFilter) (tag : option string)
    (sort : SortField) : M lloc := list_all status tag sort.

Definition mark_done (task_id : Z) : M loc :=
  update task_id None (Some Done) Ellipsis Ellipsis Ellipsis.

Definition reopen_task (task_id : Z) : M loc :=
  update task_id None (Some Open) Ellipsis Ellipsis Ellipsis.

Definition update_task (task_id : Z) (title : option string)
    (due : arg (option string)) (priority : arg (option string))
    (tags : arg (option string)) : M loc :=
  validated_title ← match title with
                     | Some s => s' ← lift (validate_title s); mret (Some s')
                     | None => mret None
                     end;
  due_date ← match due with
              | Given s => d ← lift (parse_due_date s); mret (Given d)
              | Ellipsis => mret Ellipsis
              end;
  validated_priority ← match priority with
                        | Given s => p ← lift (validate_priority s); mret (Given p)
                        | Ellipsis => mret Ellipsis
                        end;
  let parsed_tags := match tags with
                     | Given s => Given (Some (parse_tags s))
                     | Ellipsis => Ellipsis
                     end in
  update task_id validated_title None due_date validated_priority parsed_tags.

Definition delete_task (task_id : Z) : M unit := delete task_id.

Definition service_clear_done : M Z := clear_done.

(* ================================================================== *)
(** * Callers *)

(** What a caller holds after a call. *)
Inductive value : Type :=
| VTask (task : loc)          (* a Task object *)
| VList (elems : list loc)    (* a list object, by its elements *)
| VInt (n : Z)
| VNone.

(** The elements of the list object at [ll]. *)
Definition read_list (ll : lloc) : M (list loc) := λ w,
  match lists w !! ll with
  | Some l => (Ok l, w)
  | None => (Wrong, w)
  end.

(** The attributes of the Task object at [l]. *)
Definition read_task (l : loc) : M Task := λ w,
  match objects w !! l with
  | Some t => (Ok t, w)
  | None => (Wrong, w)
  end.

(** A call of a method of the repository. *)
Inductive call : Type :=
| Add (title : string) (created_at : datetime) (due_date : option date)
      (priority : option Priority) (tags : option (list string))
| Get (task_id : Z)
| Update (task_id : Z) (title : option string) (status : option Status)
         (due_date : arg (option date)) (priority : arg (option Priority))
         (tags : arg (option (list string)))
| Delete (task_id : Z)
| ClearDone
| ListAll (status : StatusFilter) (tag : option string) (sort : SortField).

Definition perform (c : call) : M value :=
  match c with
  | Add title created_at due_date priority tags =>
      task ← add title created_at due_date priority tags; mret (VTask task)
  | Get task_id => task ← get task_id; mret (VTask task)
  | Update task_id title status due_date priority tags =>
      task ← update task_id title status due_date priority tags;
      mret (VTask task)
  | Delete task_id => _ ← delete task_id; mret VNone
  | ClearDone => n ← clear_done; mret (VInt n)
  | ListAll status tag sort =>
      ll ← list_all status tag sort; elems ← read_list ll; mret (VList elems)
  end.

(** A caller that goes on after an exception: the world after the calls. *)
Definition after (cs : list call) (w : World) : World :=
  fold_left (λ w c, snd (perform c w)) cs w.

(** The id of the task a call of [add] returned, if the call is one. *)
Definition assigned_id (c : call) (w : World) : option Z :=
  match c with
  | Add _ _ _ _ _ =>
      match perform c w with
      | (Ok (VTask task), w') => id <$> objects w' !! task
      | _ => None
      end
  | _ => None
  end.

(** The ids assigned by the calls of [add] among [cs], in order. *)
Fixpoint assigned_ids (cs : list call) (w : World) : list Z :=
  match cs with
  | [] => []
  | c :: r =>
      match assigned_id c w with
      | Some i => i :: assigned_ids r (snd (perform c w))
      | None => assigned_ids r (snd (perform c w))
      end
  end.

Definition is_add (c : call) : bool :=
  match c with Add _ _ _ _ _ => true | _ => false end.

(** A use case of [TodoService] that can raise. *)
Inductive use_case : Type :=
| AddTask (now : datetime) (title : string) (due priority tags : option string)
| UpdateTask (task_id : Z) (title : option string)
             (due priority tags : arg (option string))
| MarkDone (task_id : Z)
| ReopenTask (task_id : Z)
| DeleteTask (task_id : Z).

Definition run_use_case (u : use_case) : M value :=
  match u with
  | AddTask now title due priority tags =>
      task ← add_task now title due priority tags; mret (VTask task)
  | UpdateTask task_id title due priority tags =>
      task ← update_task task_id title due priority tags; mret (VTask task)
  | MarkDone task_id => task ← mark_done task_id; mret (VTask task)
  | ReopenTask task_id => task ← reopen_task task_id; mret (VTask task)
  | DeleteTask task_id => _ ← delete_task task_id; mret VNone
  end.

(** The task [get] returns, by its attributes. *)
Definition fetch (task_id : Z) : M Task :=
  task ← get task_id; read_task task.

(** The attributes of the Task objects at [elems]. *)
Definition read_tasks (elems : list loc) : M (list Task) := λ w,
  match mapM (λ l, objects w !! l) elems with
  | Some ts => (Ok ts, w)
  | None => (Wrong, w)
  end.

(** The tasks [list_all] returns, by their attributes. *)
Definition listing (status : StatusFilter) (tag : option string)
    (sort : SortField) : M (list Task) :=
  ll ← list_all status tag sort;
  elems ← read_list ll;
  read_tasks elems.

(** The world after one call of [add_task], at time 0. *)
Definition one_task : World :=
  snd (add_task 0 "Buy groceries" None None None init).

(** The world after three calls of [add_task] and one of [mark_done]. *)
Definition sample : World :=
  snd ((_ ← add_task 5 "NoDue" None None None;
        _ ← add_task 6 "Later" (Some "2025-12-31") (Some "high") (Some "a,,b");
        _ ← add_task 7 "Soon" (Some "2025-01-15") (Some "low") None;
        mark_done 2) init).

(* ================================================================== *)
(** * States of the repository *)

(** Every address held by the dictionary denotes an object, and the keys
    are those of a dict. *)
Definition wf (w : World) : Prop :=
  NoDup (keys (_tasks (repo w)))
  ∧ Forall (λ l, (l < length (objects w))%nat) (values (_tasks (repo w))).

#[export] Instance wf_dec (w : World) : Decision (wf w) :=
  and_dec (decide (NoDup (keys (_tasks (repo w)))))
          (decide (Forall (λ l, (l < length (objects w))%nat)
                          (values (_tasks (repo w))))).

(** The invariant of the repository. *)
Record repo_inv (w : World) : Prop := mkInv {
  inv_keyed : Forall (λ kv, ∃ t, objects w !! snd kv = Some t ∧ id t = fst kv)
                     (_tasks (repo w));
  inv_keys : NoDup (keys (_tasks (repo w)));
  inv_below : Forall (λ kv, 1 ≤ fst kv < _next_id (repo w)) (_tasks (repo w));
  inv_counter : 1 ≤ _next_id (repo w);
  inv_objects : NoDup (values (_tasks (repo w)))
}.

(** The stored tasks, in the order of the dictionary. *)
Definition stored_tasks (w : World) : list Task :=
  omap (λ kv, objects w !! snd kv) (_tasks (repo w)).

(** A task passes the status filter and the tag filter. *)
Definition passes (status : StatusFilter) (tag : option string) (t : Task)
  : bool :=
  match status with any_status => true | only s => status_matches s t end
  && match tag with None => true | Some tg => has_tag (lower tg) t end.

(** The keys [clear_done] collects. *)
Definition done_ids (its : list (Z * (loc * Task))) : list Z :=
  map fst (List.filter is_done its).

(** The status of the task behind an entry of the dictionary. *)
Definition entry_done (os : list Task) (kv : Z * loc) : bool :=
  match os !! snd kv with
  | Some t => Status_eqb (status t) Done
  | None => false
  end.

(* ------------------------------------------------------------------ *)
(** ** Orders on tasks, as the listing is specified *)

Definition date_lt (a b : date) : Prop :=
  year a < year b
  ∨ (year a = year b
     ∧ (month a < month b ∨ (month a = month b ∧ day a < day b))).

(** Ascending due date, ties by ascending id. *)
Definition due_then_id (a b : Task) : Prop :=
  ∃ da db, due_date a = Some da ∧ due_date b = Some db
           ∧ (date_lt da db ∨ (da = db ∧ id a ≤ id b)).

(** The order a listing is in, by the sort field. *)
Definition key_order (sort : SortField) (a b : Task) : Prop :=
  match sort with
  | sort_created => created_leb (created_key a) (created_key b) = true
  | sort_due => due_leb (due_key a) (due_key b) = true
  | sort_priority => priority_leb (priority_key a) (priority_key b) = true
  end.

Definition by_id (a b : Task) : Prop := id a ≤ id b.

Definition has_priority (p : option Priority) (t : Task) : Prop :=
  priority t = p.

Definition dated (t : Task) : bool :=
  match due_date t with Some _ => true | None => false end.

Definition ranked (n : Z) (t : Task) : bool :=
  priority_order (priority t) <=? n.

(* ------------------------------------------------------------------ *)
(** ** Effects of a method *)

(** [m] never changes the world. *)
Definition pure {A : Type} (m : M A) : Prop :=
  ∀ w r w', m w = (r, w') → w' = w.

(** [m] changes nothing when it raises. *)
Definition atomic {A : Type} (m : M A) : Prop :=
  ∀ w e w', m w = (Raise e, w') → w' = w.

(** [m] does not raise. *)
Definition quiet {A : Type} (m : M A) : Prop :=
  ∀ w e w', m w ≠ (Raise e, w').

(* ================================================================== *)
(** * Further notions on strings and tags *)

(** Every character of [s] is whitespace. *)
Fixpoint all_space (s : string) : bool :=
  match s with
  | EmptyString => true
  | String c r => isspace c && all_space r
  end.

(** [c in s] *)
Fixpoint has_char (c : ascii) (s : string) : bool :=
  match s with
  | EmptyString => false
  | String x r => Ascii.eqb x c || has_char c r
  end.

(** The last character of a string. *)
Fixpoint last_char (s : string) : option ascii :=
  match s with
  | EmptyString => None
  | String c EmptyString => Some c
  | String _ r => last_char r
  end.

Definition first_char (s : string) : option ascii :=
  match s with
  | EmptyString => None
  | String c _ => Some c
  end.

(** No whitespace at either end. *)
Definition trimmed (s : string) : Prop :=
  (∀ c, first_char s = Some c → isspace c = false)
  ∧ (∀ c, last_char s = Some c → isspace c = false).

(** [sep.join(l)] *)
Fixpoint join (sep : string) (l : list string) : string :=
  match l with
  | [] => EmptyString
  | [x] => x
  | x :: r => x +:+ sep +:+ join sep r
  end.

(** A tag as [parse_tags] produces them. *)
Definition clean_tag (t : string) : Prop :=
  t ≠ EmptyString ∧ has_char ","%char t = false ∧ trimmed t.

(** The name of a priority. *)
Definition priority_name (p : Priority) : string :=
  match p with Low => "low" | Med => "med" | High => "high" end.

(** Ascending creation time, ties by ascending id. *)
Definition created_then_id (a b : Task) : Prop :=
  created_at a < created_at b ∨ (created_at a = created_at b ∧ id a ≤ id b).

(** A task has a tag equal to [tag] up to case. *)
Definition tagged (tag : string) (t : Task) : Prop :=
  ∃ x, x ∈ tags t ∧ lower x = lower tag.

(** A task as the services store them. *)
Definition valid_task (t : Task) : Prop :=
  1 ≤ id t
  ∧ title t ≠ EmptyString ∧ trimmed (title t)
  ∧ (∀ d, due_date t = Some d → valid_date d)
  ∧ Forall clean_tag (tags t).

(** A call of a method of [TodoService]. *)
Inductive request : Type :=
| Raising (u : use_case)
| GetTask (task_id : Z)
| ListTasks (status : StatusFilter) (tag : option string) (sort : SortField)
| ClearDoneTasks.

Definition serve (r : request) : M value :=
  match r with
  | Raising u => run_use_case u
  | GetTask task_id => task ← get_task task_id; mret (VTask task)
  | ListTasks status tag sort =>
      ll ← list_tasks status tag sort; elems ← read_list ll; mret (VList elems)
  | ClearDoneTasks => n ← service_clear_done; mret (VInt n)
  end.

(** The world after the requests, a caller going on after an exception. *)
Definition served (rs : list request) (w : World) : World :=
  fold_left (λ w r, snd (serve r w)) rs w.

(* ================================================================== *)
(** * The front-ends: console, text, and the command line ([todo/cli.py]) *)

(** The message an exception carries ([todo/domain/errors.py]). *)
Definition str_int (n : Z) : string := NilZero.string_of_int (Z.to_int n).

Definition message (e : exn) : string :=
  match e with
  | ValidationError m => m
  | TaskNotFoundError task_id =>
      "Task with id " +:+ str_int task_id +:+ " not found"
  end.

(** The streams of the process: the lines still to be read, and what was
    written to the output and to the error stream, oldest first. *)
Record Console : Type := mkConsole {
  input : list string;
  output : list string;
  errors : list string
}.

(** What interrupts a front-end: an exception of the domain, or the
    [PromptCancelled] of the shell. *)
Inductive signal : Type :=
| Domain (e : exn)
| PromptCancelled.

Inductive result (A : Type) : Type :=
| Return (a : A)
| Throw (s : signal)
| Stuck.
Arguments Return {A} a.
Arguments Throw {A} s.
Arguments Stuck {A}.

Definition IO (A : Type) : Type := Console → World → result A * Console * World.

#[export] Instance IO_ret : MRet IO := λ A a c w, (Return a, c, w).

#[export] Instance IO_bind : MBind IO := λ A B k m c w,
  match m c w with
  | (Return a, c', w') => k a c' w'
  | (Throw s, c', w') => (Throw s, c', w')
  | (Stuck, c', w') => (Stuck, c', w')
  end.

Definition throw {A : Type} (s : signal) : IO A := λ c w, (Throw s, c, w).

(** A method of the service, called from a front-end. *)
Definition call_service {A : Type} (m : M A) : IO A := λ c w,
  match m w with
  | (Ok a, w') => (Return a, c, w')
  | (Raise e, w') => (Throw (Domain e), c, w')
  | (Wrong, w') => (Stuck, c, w')
  end.

Definition newline : string := String (ascii_of_nat 10) EmptyString.

(** [print(message)] *)
Definition print (msg : string) : IO unit := λ c w,
  (Return tt, mkConsole (input c) (output c ++ [msg +:+ newline]) (errors c), w).


(** [try: body except ValidationError/TaskNotFoundError as e: handler(e)] *)
Definition catch_domain {A : Type} (body : IO A) (handler : exn → IO A) : IO A :=
  λ c w,
    match body c w with
    | (Throw (Domain e), c', w') => handler e c' w'
    | r => r
    end.

(** [try: body except PromptCancelled: handler] *)
Definition catch_cancel {A : Type} (body : IO A) (handler : IO A) : IO A :=
  λ c w,
    match body c w with
    | (Throw PromptCancelled, c', w') => handler c' w'
    | r => r
    end.

(** A method of the service returns, leaving the dictionary well formed, a
    task object that exists, or raises and changes nothing. *)
Definition safe_ref (m : M nat) : Prop :=
  ∀ w, wf w →
    (∃ e, m w = (Raise e, w))
    ∨ (∃ l w', m w = (Ok l, w') ∧ wf w' ∧ is_Some (objects w' !! l)).

(** The console after one more line on the output. *)
Definition printed (msg : string) (c : Console) : Console :=
  mkConsole (input c) (output c ++ [msg +:+ newline]) (errors c).

(* ------------------------------------------------------------------ *)
(** ** Text *)

Fixpoint repeat_char (c : ascii) (n : nat) : string :=
  match n with
  | O => EmptyString
  | S k => String c (repeat_char c k)
  end.

Definition space : ascii := " "%char.

(** The format [{s:<n}]: padded with spaces on the right. *)
Definition ljust (n : nat) (s : string) : string :=
  s +:+ repeat_char space (n - String.length s).

(** The format [{s:>n}]: padded with spaces on the left. *)
Definition rjust (n : nat) (s : string) : string :=
  repeat_char space (n - String.length s) +:+ s.

(** [p.upper()] for the name of a priority. *)
Definition priority_upper (p : Priority) : string :=
  match p with Low => "LOW" | Med => "MED" | High => "HIGH" end.

(** [str(task.status)] *)
Definition status_name (s : Status) : string :=
  match s with Open => "open" | Done => "done" end.

Definition format_task_line (task : Task) : string :=
  let status := match status task with Done => "[x]" | Open => "[ ]" end in
  let priority := match priority task with
                  | Some p => priority_upper p
                  | None => "-"
                  end in
  let due := match due_date task with Some d => isoformat d | None => "-" end in
  let tags := match tags task with [] => "-" | l => join "," l end in
  rjust 3 (str_int (id task)) +:+ " " +:+ status +:+ " " +:+ ljust 4 priority
  +:+ " " +:+ ljust 10 due +:+ " " +:+ title task +:+ " [" +:+ tags +:+ "]".

Definition format_task_table (tasks : list Task) : string :=
  match tasks with
  | [] => "No tasks found."
  | _ =>
      let header := rjust 3 "ID" +:+ " " +:+ ljust 3 "STS" +:+ " "
                    +:+ ljust 4 "PRI" +:+ " " +:+ ljust 10 "DUE" +:+ " "
                    +:+ ljust 30 "TITLE" +:+ " TAGS" in
      let separator := repeat_char "-"%char 70 in
      join newline ([header; separator] ++ map format_task_line tasks)
  end.

(* ------------------------------------------------------------------ *)
(** ** The commands of the command line *)

Definition EXIT_SUCCESS : Z := 0.

(** The attributes of a task, read by a front-end. *)
Definition look (task : nat) : IO Task := call_service (read_task task).

(** The tasks of a list object, read by a front-end. *)
Definition look_all (ll : nat) : IO (list Task) :=
  call_service (elems ← read_list ll; read_tasks elems).

Module Cli.

(** [cmd_add(args)], [args] being the namespace of the parser: [args.title],
    [args.due], [args.priority], [args.tag]; [now] is the clock. *)
Definition cmd_add (now : datetime) (args_title : string)
    (args_due args_priority args_tag : option string) : IO Z :=
  ref ← call_service (add_task now args_title args_due args_priority args_tag);
  task ← look ref;
  _ ← print ("Added task " +:+ str_int (id task) +:+ ": " +:+ title task);
  mret EXIT_SUCCESS.

Definition cmd_list (args_status : StatusFilter) (args_tag : option string)
    (args_sort : SortField) : IO Z :=
  ll ← call_service (list_tasks args_status args_tag args_sort);
  tasks ← look_all ll;
  _ ← print (format_task_table tasks);
  mret EXIT_SUCCESS.

Definition cmd_done (args_id : Z) : IO Z :=
  ref ← call_service (mark_done args_id);
  task ← look ref;
  _ ← print ("Marked task " +:+ str_int (id task) +:+ " as done: "
             +:+ title task);
  mret EXIT_SUCCESS.

Definition cmd_reopen (args_id : Z) : IO Z :=
  ref ← call_service (reopen_task args_id);
  task ← look ref;
  _ ← print ("Reopened task " +:+ str_int (id task) +:+ ": " +:+ title task);
  mret EXIT_SUCCESS.

(** [x if hasattr(args, name) and x is not None else ...]; the namespace of
    the update parser has the attribute. *)
Definition given_or_ellipsis (x : option string) : arg (option string) :=
  match x with
  | Some v => Given (Some v)
  | None => Ellipsis
  end.

Definition cmd_update (args_id : Z)
    (args_title args_due args_priority args_tag : option string) : IO Z :=
  ref ← call_service
          (update_task args_id args_title (given_or_ellipsis args_due)
             (given_or_ellipsis args_priority) (given_or_ellipsis args_tag));
  task ← look ref;
  _ ← print ("Updated task " +:+ str_int (id task) +:+ ": " +:+ title task);
  mret EXIT_SUCCESS.

Definition cmd_delete (args_id : Z) : IO Z :=
  _ ← call_service (delete_task args_id);
  _ ← print ("Deleted task " +:+ str_int args_id);
  mret EXIT_SUCCESS.





End Cli.

(* ================================================================== *)
(** * The interactive shell ([todo/interactive.py]) *)

(** What the shell takes from Python's library and from its environment:
    [shlex.split] (its [ValueError] as the message it carries), [int] on a
    string ([None] for [ValueError]), [datetime.strftime] with the format of
    [format_task_detail], and whether the input stream is [sys.stdin]. *)
Record Env : Type := mkEnv {
  shlex_split : string → string + list string;
  int : string → option Z;
  strftime : datetime → string;
  from_stdin : bool
}.

(** A [dict] with strings as keys, in insertion order. *)
Definition options : Type := list (string * option string).

Fixpoint opts_set (k : string) (v : option string) (o : options) : options :=
  match o with
  | [] => [(k, v)]
  | (k', v') :: r =>
      if String.eqb k' k then (k, v) :: r else (k', v') :: opts_set k v r
  end.

(** [k in opts] *)
Definition opts_has (k : string) (o : options) : bool :=
  existsb (λ kv, String.eqb (fst kv) k) o.

(** [opts.get(k)] *)
Definition opts_get (k : string) (o : options) : option string :=
  match List.find (λ kv, String.eqb (fst kv) k) o with
  | Some kv => snd kv
  | None => None
  end.

(** [s[n:]] *)
Fixpoint string_drop (n : nat) (s : string) : string :=
  match n, s with
  | O, _ => s
  | S k, EmptyString => EmptyString
  | S k, String _ r => string_drop k r
  end.

(** [s.startswith(p)] *)
Definition startswith (p s : string) : bool := String.prefix p s.

(** A token is an option: [--key], or a dash and one character. *)
Definition is_long (a : string) : bool := startswith "--" a.
Definition is_short (a : string) : bool :=
  startswith "-" a && (String.length a =? 2)%nat.

Definition dquote : string := String (ascii_of_nat 34) EmptyString.

Module Shell.

Definition ALIASES : list (string * string) :=
  [("ls", "list"); ("l", "list"); ("a", "add"); ("rm", "delete");
   ("d", "delete"); ("x", "done"); ("o", "reopen"); ("u", "update");
   ("s", "show"); ("?", "help"); ("q", "quit")].

(** [ALIASES.get(cmd, cmd)] *)
Definition resolve (cmd : string) : string :=
  match List.find (λ kv, String.eqb (fst kv) cmd) ALIASES with
  | Some kv => snd kv
  | None => cmd
  end.

Definition HELP_TEXT : string :=
"Commands:
  add [title] [--due D] [--priority P] [--tag T]   Add a new task
  list [--status S] [--tag T] [--sort S]           List tasks
  show <id>                                         Show task details
  done <id>                                         Mark task as done
  reopen <id>                                       Reopen a task
  update <id> [--title T] [--due D] [--priority P] [--tag T]
                                                   Update a task
  delete <id> [-f]                                  Delete a task
  clear [-f]                                        Clear completed tasks
  help                                              Show this help
  quit                                              Exit

Aliases: ls=list, l=list, a=add, rm=delete, d=delete,
         x=done, o=reopen, u=update, s=show, ?=help, q=quit
".

Definition format_task_detail (env : Env) (task : Task) : string :=
  let priority := match priority task with
                  | Some p => priority_name p
                  | None => "none"
                  end in
  let due := match due_date task with Some d => isoformat d | None => "none" end in
  let tags := match tags task with [] => "none" | l => join ", " l end in
  let created := strftime env (created_at task) in
  "Task #" +:+ str_int (id task) +:+ newline
  +:+ "  Title:    " +:+ title task +:+ newline
  +:+ "  Status:   " +:+ status_name (status task) +:+ newline
  +:+ "  Priority: " +:+ priority +:+ newline
  +:+ "  Due:      " +:+ due +:+ newline
  +:+ "  Tags:     " +:+ tags +:+ newline
  +:+ "  Created:  " +:+ created.

(** A write to the output without a newline, as [input(message)] does.
    [input] writes to [sys.stdout]: when the input stream is [sys.stdin]
    the output of the console stands for [sys.stdout], which is the output
    stream of the shell [run_shell] creates. *)
Definition write (msg : string) : IO unit := λ c w,
  (Return tt, mkConsole (input c) (output c ++ [msg]) (errors c), w).

(** The next line of the input, without its end of line; [None] at the end
    of the input. *)
Definition read_line : IO (option string) := λ c w,
  match input c with
  | [] => (Return None, c, w)
  | line :: rest => (Return (Some line), mkConsole rest (output c) (errors c), w)
  end.

Definition prompt (env : Env) (msg : string) : IO string :=
  _ ← (if from_stdin env then write msg else print msg);
  line ← read_line;
  match line with
  | Some l => mret l
  | None => throw PromptCancelled
  end.

Definition is_yes (response : string) : bool :=
  let r := lower (strip response) in String.eqb r "y" || String.eqb r "yes".

Definition confirm (env : Env) (msg : string) : IO bool :=
  catch_cancel
    (response ← prompt env (msg +:+ " [y/N]: "); mret (is_yes response))
    (mret false).

Definition _parse_id (env : Env) (args : list string) : IO (option Z) :=
  match args with
  | [] => _ ← print "Error: Task ID is required"; mret None
  | a :: _ =>
      match int env a with
      | Some n => mret (Some n)
      | None =>
          _ ← print ("Error: '" +:+ a +:+ "' is not a valid task ID");
          mret None
      end
  end.

Fixpoint _parse_options_from (opts : options) (args : list string) : options :=
  match args with
  | [] => opts
  | a :: rest =>
      if is_long a then
        let key := string_drop 2 a in
        match rest with
        | v :: rest' =>
            if negb (startswith "-" v)
            then _parse_options_from (opts_set key (Some v) opts) rest'
            else _parse_options_from (opts_set key (Some EmptyString) opts) rest
        | [] => _parse_options_from (opts_set key (Some EmptyString) opts) rest
        end
      else if is_short a then
        _parse_options_from (opts_set (string_drop 1 a) (Some EmptyString) opts)
                            rest
      else _parse_options_from opts rest
  end.

Definition _parse_options (args : list string) : options :=
  _parse_options_from [] args.

Fixpoint _get_non_option_args (args : list string) : list string :=
  match args with
  | [] => []
  | a :: rest =>
      if is_long a then
        match rest with
        | v :: rest' =>
            if negb (startswith "-" v) then _get_non_option_args rest'
            else _get_non_option_args rest
        | [] => _get_non_option_args rest
        end
      else if is_short a then _get_non_option_args rest
      else a :: _get_non_option_args rest
  end.

Definition cmd_add (env : Env) (now : datetime) (args : list string) : IO unit :=
  let opts := _parse_options args in
  let non_option_args := _get_non_option_args args in
  title_given ←
    match non_option_args with
    | [] =>
        answer ← prompt env "Title: ";
        let t := strip answer in
        if String.eqb t EmptyString
        then throw (Domain (ValidationError "Title cannot be empty"))
        else mret t
    | t :: _ => mret t
    end;
  ref ← call_service (add_task now title_given (opts_get "due" opts)
                        (opts_get "priority" opts) (opts_get "tag" opts));
  task ← look ref;
  print ("Added task " +:+ str_int (id task) +:+ ": " +:+ title task).

(** The selectors of [list], from their names. *)
Definition status_of (s : string) : option StatusFilter :=
  if String.eqb s "all" then Some any_status
  else if String.eqb s "open" then Some (only Open)
  else if String.eqb s "done" then Some (only Done)
  else None.

Definition sort_of (s : string) : option SortField :=
  if String.eqb s "created" then Some sort_created
  else if String.eqb s "due" then Some sort_due
  else if String.eqb s "priority" then Some sort_priority
  else None.

(** [opts.get(k, default)] *)
Definition opts_get_default (k : string) (default : string) (o : options)
  : option string :=
  if opts_has k o then opts_get k o else Some default.

Definition cmd_list (args : list string) : IO unit :=
  let opts := _parse_options args in
  let status := default EmptyString (opts_get_default "status" "all" opts) in
  match status_of status with
  | None =>
      print ("Error: Invalid status '" +:+ status +:+ "'. Use: all, open, done")
  | Some sf =>
      let sort := default EmptyString (opts_get_default "sort" "created" opts) in
      match sort_of sort with
      | None =>
          print ("Error: Invalid sort '" +:+ sort
                 +:+ "'. Use: created, due, priority")
      | Some so =>
          ll ← call_service (list_tasks sf (opts_get "tag" opts) so);
          tasks ← look_all ll;
          print (format_task_table tasks)
      end
  end.

Definition cmd_show (env : Env) (args : list string) : IO unit :=
  parsed ← _parse_id env args;
  match parsed with
  | None => mret tt
  | Some task_id =>
      ref ← call_service (get_task task_id);
      task ← look ref;
      print (format_task_detail env task)
  end.

Definition cmd_done (env : Env) (args : list string) : IO unit :=
  parsed ← _parse_id env args;
  match parsed with
  | None => mret tt
  | Some task_id =>
      ref ← call_service (mark_done task_id);
      task ← look ref;
      print ("Marked task " +:+ str_int (id task) +:+ " as done: "
             +:+ title task)
  end.

Definition cmd_reopen (env : Env) (args : list string) : IO unit :=
  parsed ← _parse_id env args;
  match parsed with
  | None => mret tt
  | Some task_id =>
      ref ← call_service (reopen_task task_id);
      task ← look ref;
      print ("Reopened task " +:+ str_int (id task) +:+ ": " +:+ title task)
  end.

(** [opts.get(k) if k in opts else ...] *)
Definition opts_arg (k : string) (o : options) : arg (option string) :=
  if opts_has k o then Given (opts_get k o) else Ellipsis.

(** The answers of the guided update, put into [opts]. *)
Definition guided (task : Task) (new_title new_due new_priority new_tags : string)
    (opts : options) : options :=
  let opts := opts_set "title"
                (if String.eqb new_title EmptyString then None else Some new_title)
                opts in
  let opts :=
    if negb (String.eqb new_due EmptyString) && negb (String.eqb new_due "none")
    then opts_set "due" (Some new_due) opts
    else if String.eqb new_due "none"
            && match due_date task with Some _ => true | None => false end
    then opts_set "due" None opts
    else opts in
  let opts :=
    if negb (String.eqb new_priority EmptyString)
       && negb (String.eqb new_priority "none")
    then opts_set "priority" (Some new_priority) opts
    else if String.eqb new_priority "none"
            && match priority task with Some _ => true | None => false end
    then opts_set "priority" None opts
    else opts in
  let opts :=
    if negb (String.eqb new_tags EmptyString) && negb (String.eqb new_tags "none")
    then opts_set "tag" (Some new_tags) opts
    else if String.eqb new_tags "none"
            && match tags task with [] => false | _ => true end
    then opts_set "tag" (Some EmptyString) opts
    else opts in
  opts.

Definition cmd_update (env : Env) (args : list string) : IO unit :=
  parsed ← _parse_id env args;
  match parsed with
  | None => mret tt
  | Some task_id =>
      let opts := _parse_options (tail args) in
      let has_update_flags :=
        existsb (λ key, opts_has key opts) ["title"; "due"; "priority"; "tag"] in
      opts ←
        (if has_update_flags then mret opts
         else
           ref ← call_service (get_task task_id);
           task ← look ref;
           let current_due := match due_date task with
                              | Some d => isoformat d
                              | None => "none"
                              end in
           let current_priority := match priority task with
                                   | Some p => priority_name p
                                   | None => "none"
                                   end in
           let current_tags := match tags task with
                               | [] => "none"
                               | l => join "," l
                               end in
           _ ← print ("Current: " +:+ title task +:+ " ("
                      +:+ status_name (status task) +:+ ", due: "
                      +:+ current_due +:+ ", priority: " +:+ current_priority
                      +:+ ", tags: " +:+ current_tags +:+ ")");
           a1 ← prompt env ("Title [" +:+ title task +:+ "]: ");
           a2 ← prompt env ("Due [" +:+ current_due +:+ "]: ");
           a3 ← prompt env ("Priority [" +:+ current_priority +:+ "]: ");
           a4 ← prompt env ("Tags [" +:+ current_tags +:+ "]: ");
           mret (guided task (strip a1) (strip a2) (strip a3) (strip a4) opts));
      ref ← call_service
              (update_task task_id (opts_get "title" opts) (opts_arg "due" opts)
                 (opts_arg "priority" opts) (opts_arg "tag" opts));
      updated_task ← look ref;
      print ("Updated task " +:+ str_int (id updated_task) +:+ ": "
             +:+ title updated_task)
  end.

Definition forced (opts : options) : bool :=
  opts_has "f" opts || opts_has "force" opts.

Definition cmd_delete (env : Env) (args : list string) : IO unit :=
  parsed ← _parse_id env args;
  match parsed with
  | None => mret tt
  | Some task_id =>
      let opts := _parse_options (tail args) in
      let force := forced opts in
      ref ← call_service (get_task task_id);
      task ← look ref;
      go ← (if force then mret true
            else confirm env ("Delete task " +:+ str_int task_id +:+ " "
                              +:+ dquote +:+ title task +:+ dquote +:+ "?"));
      if go : bool then
        _ ← call_service (delete_task task_id);
        print ("Deleted task " +:+ str_int task_id)
      else print "Cancelled."
  end.

Definition cmd_clear (env : Env) (args : list string) : IO unit :=
  let opts := _parse_options args in
  let force := forced opts in
  ll ← call_service (list_tasks (only Done) None sort_created);
  done_tasks ← call_service (read_list ll);
  let count := Z.of_nat (length done_tasks) in
  if count =? 0 then print "No completed tasks to clear."
  else
    go ← (if force then mret true
          else confirm env ("Clear " +:+ str_int count +:+ " completed task(s)?"));
    if go : bool then
      cleared ← call_service service_clear_done;
      print ("Cleared " +:+ str_int cleared +:+ " completed task(s)")
    else print "Cancelled.".

(** [getattr(self, f"cmd_{cmd}", None)] *)
Definition handler (env : Env) (now : datetime) (cmd : string)
  : option (list string → IO unit) :=
  if String.eqb cmd "add" then Some (cmd_add env now)
  else if String.eqb cmd "list" then Some cmd_list
  else if String.eqb cmd "show" then Some (cmd_show env)
  else if String.eqb cmd "done" then Some (cmd_done env)
  else if String.eqb cmd "reopen" then Some (cmd_reopen env)
  else if String.eqb cmd "update" then Some (cmd_update env)
  else if String.eqb cmd "delete" then Some (cmd_delete env)
  else if String.eqb cmd "clear" then Some (cmd_clear env)
  else None.

Definition execute (env : Env) (now : datetime) (line : string) : IO bool :=
  match shlex_split env line with
  | inl e => _ ← print ("Error: Invalid input - " +:+ e); mret false
  | inr [] => mret false
  | inr (first :: args) =>
      let cmd := resolve (lower first) in
      if String.eqb cmd "quit" || String.eqb cmd "exit"
      then _ ← print "Goodbye!"; mret true
      else if String.eqb cmd "help" then _ ← print HELP_TEXT; mret false
      else
        match handler env now cmd with
        | None =>
            _ ← print ("Unknown command: " +:+ cmd
                       +:+ ". Type 'help' for options.");
            mret false
        | Some h =>
            _ ← catch_cancel
                  (catch_domain (h args) (λ e, print ("Error: " +:+ message e)))
                  (print "Cancelled.");
            mret false
        end
  end.

End Shell.

(** An entry [_parse_options] makes from the tokens [args]: the key comes
    from an option token, the value is a token that does not start with a
    dash, or the empty string. *)
Definition from_tokens (args : list string) (kv : string * option string) : Prop :=
  ((∃ a, a ∈ args ∧ is_long a = true ∧ fst kv = string_drop 2 a)
   ∨ (∃ a, a ∈ args ∧ is_long a = false ∧ is_short a = true
           ∧ fst kv = string_drop 1 a))
  ∧ ∃ v, snd kv = Some v ∧ startswith "-" v = false
         ∧ (v = EmptyString ∨ v ∈ args).

(** The console after a prompt: the message is written (a line of its own
    unless the input is [sys.stdin]) and one line of input is consumed. *)
Definition prompted (env : Env) (msg : string) (c : Console) : Console :=
  mkConsole (tail (input c))
            (output c ++ [if from_stdin env then msg else msg +:+ newline])
            (errors c).

(** The answer to a confirmation: the next line of input says yes. *)
Definition confirmed (c : Console) : bool :=
  match input c with
  | line :: _ => Shell.is_yes line
  | [] => false
  end.

(** What an answer of the guided update asks for a field that can be
    cleared: nothing when blank, to clear it when it is [none] and the field
    is set, nothing when it is [none] and the field is not set, and
    otherwise to set it; [cleared] is the value that clears. *)
Definition answer_arg (cleared : option string) (is_set : bool) (answer : string)
  : arg (option string) :=
  if String.eqb answer EmptyString then Ellipsis
  else if String.eqb answer "none"
       then (if is_set then Given cleared else Ellipsis)
       else Given (Some answer).

Definition answer_title (answer : string) : option string :=
  if String.eqb answer EmptyString then None else Some answer.

Definition has_due (t : Task) : bool :=
  match due_date t with Some _ => true | None => false end.
Definition has_priority_set (t : Task) : bool :=
  match priority t with Some _ => true | None => false end.
Definition has_tags (t : Task) : bool :=
  match tags t with [] => false | _ => true end.

(** The tasks, the dictionary and the counter are the same in two worlds
    (the list objects built by queries aside). *)
Definition same_store (w w' : World) : Prop :=
  objects w' = objects w ∧ repo w' = repo w.

(** [m] never changes the store. *)
Definition harmless {A : Type} (m : IO A) : Prop :=
  ∀ c w r c' w', m c w = (r, c', w') → same_store w w'.

(** [m] has not changed the store when it raises. *)
Definition io_atomic {A : Type} (m : IO A) : Prop :=
  ∀ c w s c' w', m c w = (Throw s, c', w') → same_store w w'.

(** [m] does not raise. *)
Definition nothrow {A : Type} (m : IO A) : Prop :=
  ∀ c w s c' w', m c w ≠ (Throw s, c', w').

(* ------------------------------------------------------------------ *)
(** ** An environment and consoles for the examples *)

(** Tokens are the pieces between spaces (no quoting), a task id is a
    decimal numeral, and the input is a stream other than [sys.stdin]. *)
Definition sample_env : Env :=
  mkEnv (λ line, inr (List.filter nonempty (split " "%char line)))
        (λ s, Z.of_int <$> NilEmpty.int_of_string s)
        str_int
        false.

(** A console whose input holds the lines [lines], with nothing written. *)
Definition console (lines : list string) : Console := mkConsole lines [] [].

(* ================================================================== *)
(** * Proofs *)

(** ** Running methods *)

Lemma bind_run {A B : Type} (m : M A) (k : A → M B) (w : World) :
  (m ≫= k) w = match m w with
               | (Ok a, w') => k a w'
               | (Raise e, w') => (Raise e, w')
               | (Wrong, w') => (Wrong, w')
               end.
Proof. reflexivity. Qed.

Lemma get_run (task_id : Z) (w : World) :
  get task_id w = match dict_get task_id (_tasks (repo w)) with
                  | Some task => (Ok task, w)
                  | None => (Raise (TaskNotFoundError task_id), w)
                  end.
Proof. unfold get. rewrite bind_run. simpl. by destruct (dict_get _ _). Qed.

Lemma update_run task_id title status due_date priority tags (w : World) :
  update task_id title status due_date priority tags w =
  match dict_get task_id (_tasks (repo w)) with
  | None => (Raise (TaskNotFoundError task_id), w)
  | Some task =>
      match objects w !! task with
      | Some t =>
          (Ok task,
           set_objects (<[task := assign title status due_date priority tags t]>
                          (objects w)) w)
      | None => (Wrong, w)
      end
  end.
Proof.
  unfold update. rewrite bind_run, get_run.
  destruct (dict_get _ _) as [task|]; [|done].
  rewrite bind_run. unfold mutate. by destruct (objects w !! task).
Qed.

Lemma add_run title created_at due_date priority tags (w : World) :
  add title created_at due_date priority tags w =
  (Ok (length (objects w)),
   mkWorld (objects w ++ [mkTask (_next_id (repo w)) title Open created_at
                                 due_date priority (or_empty tags)])
           (lists w)
           (mkRepo (dict_set (_next_id (repo w)) (length (objects w))
                             (_tasks (repo w)))
                   (_next_id (repo w) + 1))).
Proof. reflexivity. Qed.

Lemma delete_run task_id (w : World) :
  delete task_id w =
  if dict_mem task_id (_tasks (repo w))
  then (Ok tt, set_repo (mkRepo (dict_del task_id (_tasks (repo w)))
                                (_next_id (repo w))) w)
  else (Raise (TaskNotFoundError task_id), w).
Proof. unfold delete. rewrite bind_run. simpl. by destruct (dict_mem _ _). Qed.

(** ** Failure leaves the world alone *)

Create HintDb atomicity.

Lemma pure_lift {A : Type} (o : outcome A) : pure (lift o).
Proof. by intros w r w' [= _ <-]. Qed.

Lemma pure_ret {A : Type} (a : A) : pure (mret a : M A).
Proof. by intros w r w' [= _ <-]. Qed.

Lemma pure_bind {A B : Type} (m : M A) (k : A → M B) :
  pure m → (∀ a, pure (k a)) → pure (m ≫= k).
Proof.
  intros Hm Hk w r w'. rewrite bind_run.
  destruct (m w) as [[a|e|] w1] eqn:E; apply Hm in E as ->.
  - apply Hk.
  - by intros [= _ <-].
  - by intros [= _ <-].
Qed.

Lemma pure_atomic {A : Type} (m : M A) : pure m → atomic m.
Proof. intros H w e w'. apply H. Qed.

Lemma quiet_atomic {A : Type} (m : M A) : quiet m → atomic m.
Proof. intros H w e w' E. by apply H in E. Qed.

Lemma quiet_ret {A : Type} (a : A) : quiet (mret a : M A).
Proof. by intros w e w'. Qed.

(** After a pure prefix, the rest decides. *)
Lemma atomic_bind_pure {A B : Type} (m : M A) (k : A → M B) :
  pure m → (∀ a, atomic (k a)) → atomic (m ≫= k).
Proof.
  intros Hm Hk w e w'. rewrite bind_run.
  destruct (m w) as [[a|e'|] w1] eqn:E; apply Hm in E as ->.
  - apply Hk.
  - by intros [= _ <-].
  - done.
Qed.

(** Before a quiet suffix, the prefix decides. *)
Lemma atomic_bind_quiet {A B : Type} (m : M A) (k : A → M B) :
  atomic m → (∀ a, quiet (k a)) → atomic (m ≫= k).
Proof.
  intros Hm Hk w e w'. rewrite bind_run.
  destruct (m w) as [[a|e'|] w1] eqn:E.
  - intros E'. by apply Hk in E'.
  - intros [= <- <-]. by apply Hm in E.
  - done.
Qed.

Lemma atomic_add title created_at due_date priority tags :
  atomic (add title created_at due_date priority tags).
Proof. intros w e w'. by rewrite add_run. Qed.

Lemma atomic_update task_id title status due_date priority tags :
  atomic (update task_id title status due_date priority tags).
Proof.
  intros w e w'. rewrite update_run. intros H.
  repeat case_match; by simplify_eq.
Qed.

Lemma atomic_delete task_id : atomic (delete task_id).
Proof.
  intros w e w'. rewrite delete_run. intros H.
  repeat case_match; by simplify_eq.
Qed.

#[local] Hint Resolve pure_lift pure_ret pure_bind quiet_ret atomic_add
  atomic_update atomic_delete atomic_bind_pure atomic_bind_quiet : atomicity.

Lemma atomic_add_task now title due priority tags :
  atomic (add_task now title due priority tags).
Proof. unfold add_task. auto 10 with atomicity. Qed.

Lemma atomic_update_task task_id title due priority tags :
  atomic (update_task task_id title due priority tags).
Proof.
  unfold update_task.
  destruct title, due, priority; auto 12 with atomicity.
Qed.

(** C3. Atomicity on failure: when a use case of the service (add_task,
    update_task, mark_done, reopen_task, delete_task) raises, be it a
    validation error or a task not found, the world after the call, that is
    the stored tasks, the dictionary and the id counter, is the world
    before the call. *)
Theorem failure_is_atomic (u : use_case) (w w' : World) (e : exn) :
  run_use_case u w = (Raise e, w') → w' = w.
Proof.
  revert w e w'. change (atomic (run_use_case u)).
  destruct u; simpl; apply atomic_bind_quiet;
    auto using atomic_add_task, atomic_update_task with atomicity.
  all: unfold mark_done, reopen_task, delete_task; auto with atomicity.
Qed.

(** ** Updates *)

Lemma insert_same (os : list Task) (l : loc) (t : Task) :
  os !! l = Some t → <[l := t]> os = os.
Proof. apply list_insert_id. Qed.

Lemma set_objects_same (w : World) : set_objects (objects w) w = w.
Proof. by destruct w. Qed.

Lemma update_task_run task_id (w : World) (due : arg (option date)) :
  update_task task_id None
    (match due with Given _ => Given None | Ellipsis => Ellipsis end)
    Ellipsis Ellipsis w
  = update task_id None None
      (match due with Given _ => Given None | Ellipsis => Ellipsis end)
      Ellipsis Ellipsis w.
Proof. by destruct due. Qed.

(** C1. Three-valued update: for a task id that exists, [update] with no
    field provided returns the task and leaves the world, hence every
    attribute of the task, unchanged; [update] with [due_date] provided as
    [None] writes a task whose due date is absent and whose priority, tags,
    id, title, status and creation time are the ones it had.  The same
    holds through [update_task] of the service. *)
Theorem update_three_valued (w : World) (task_id : Z) (task : loc) (t : Task) :
  dict_get task_id (_tasks (repo w)) = Some task →
  objects w !! task = Some t →
  update task_id None None Ellipsis Ellipsis Ellipsis w = (Ok task, w)
  ∧ update_task task_id None Ellipsis Ellipsis Ellipsis w = (Ok task, w)
  ∧ ∃ t',
      update task_id None None (Given None) Ellipsis Ellipsis w
      = (Ok task, set_objects (<[task := t']> (objects w)) w)
      ∧ update_task task_id None (Given None) Ellipsis Ellipsis w
        = (Ok task, set_objects (<[task := t']> (objects w)) w)
      ∧ due_date t' = None
      ∧ priority t' = priority t ∧ tags t' = tags t
      ∧ id t' = id t ∧ title t' = title t ∧ status t' = status t
      ∧ created_at t' = created_at t.
Proof.
  intros Hget Hobj.
  assert (Hnone : update task_id None None Ellipsis Ellipsis Ellipsis w
                  = (Ok task, w)).
  { rewrite update_run, Hget, Hobj. simpl.
    by rewrite insert_same, set_objects_same. }
  split; [exact Hnone|]. split.
  { rewrite <- Hnone. exact (update_task_run task_id w Ellipsis). }
  exists (set_due_date None t).
  assert (Hclear : update task_id None None (Given None) Ellipsis Ellipsis w
                   = (Ok task,
                      set_objects (<[task := set_due_date None t]> (objects w)) w)).
  { by rewrite update_run, Hget, Hobj. }
  split; [exact Hclear|]. split; [|done].
  rewrite <- Hclear. exact (update_task_run task_id w (Given None)).
Qed.

(** ** Status transitions *)

Lemma transition_run (s : Status) task_id task t (w : World) :
  dict_get task_id (_tasks (repo w)) = Some task →
  objects w !! task = Some t →
  update task_id None (Some s) Ellipsis Ellipsis Ellipsis w
  = (Ok task, set_objects (<[task := set_status s t]> (objects w)) w).
Proof. intros Hget Hobj. by rewrite update_run, Hget, Hobj. Qed.

Lemma transition_twice (s : Status) task_id task t (w : World) :
  dict_get task_id (_tasks (repo w)) = Some task →
  objects w !! task = Some t →
  (_ ← update task_id None (Some s) Ellipsis Ellipsis Ellipsis;
   update task_id None (Some s) Ellipsis Ellipsis Ellipsis) w
  = update task_id None (Some s) Ellipsis Ellipsis Ellipsis w.
Proof.
  intros Hget Hobj. rewrite bind_run, (transition_run s task_id task t w) by done.
  assert (Hlt : (task < length (objects w))%nat) by by eapply lookup_lt_Some.
  rewrite (transition_run s task_id task (set_status s t)); simpl; [|done|].
  - unfold set_objects. simpl. by rewrite list_insert_insert_eq.
  - by apply list_lookup_insert_eq.
Qed.

(** C9. Status transitions are total and idempotent: for a task id that
    exists, [mark_done] and [reopen_task] return the task whatever its
    status, write a task with status done, respectively open, and all other
    attributes as before, and doing the same transition twice gives the
    world and the returned task of doing it once. *)
Theorem transitions_total_idempotent (w : World) (task_id : Z) (task : loc)
    (t : Task) :
  dict_get task_id (_tasks (repo w)) = Some task →
  objects w !! task = Some t →
  (∃ t', mark_done task_id w
         = (Ok task, set_objects (<[task := t']> (objects w)) w)
         ∧ status t' = Done
         ∧ id t' = id t ∧ title t' = title t ∧ created_at t' = created_at t
         ∧ due_date t' = due_date t ∧ priority t' = priority t
         ∧ tags t' = tags t)
  ∧ (∃ t', reopen_task task_id w
           = (Ok task, set_objects (<[task := t']> (objects w)) w)
           ∧ status t' = Open
           ∧ id t' = id t ∧ title t' = title t ∧ created_at t' = created_at t
           ∧ due_date t' = due_date t ∧ priority t' = priority t
           ∧ tags t' = tags t)
  ∧ (_ ← mark_done task_id; mark_done task_id) w = mark_done task_id w
  ∧ (_ ← reopen_task task_id; reopen_task task_id) w = reopen_task task_id w.
Proof.
  intros Hget Hobj. unfold mark_done, reopen_task.
  split; [|split; [|split]].
  - exists (set_status Done t). by rewrite (transition_run _ _ task t).
  - exists (set_status Open t). by rewrite (transition_run _ _ task t).
  - by apply (transition_twice _ _ task t).
  - by apply (transition_twice _ _ task t).
Qed.

(** ** Identity assignment *)

Lemma clear_done_run (w : World) :
  clear_done w =
  match items (objects w) (_tasks (repo w)) with
  | None => (Wrong, w)
  | Some its =>
      (Ok (Z.of_nat (length (done_ids its))),
       set_repo (mkRepo (fold_left (λ d tid, dict_del tid d) (done_ids its)
                                   (_tasks (repo w)))
                        (_next_id (repo w))) w)
  end.
Proof.
  unfold clear_done. rewrite bind_run. simpl. rewrite bind_run.
  unfold read_items. by destruct (items _ _).
Qed.

Lemma list_all_run status tag sort (w : World) :
  list_all status tag sort w =
  match items (objects w) (_tasks (repo w)) with
  | None => (Wrong, w)
  | Some its =>
      (Ok (length (lists w)),
       set_lists (lists w ++ [map fst (select status tag sort (map snd its))]) w)
  end.
Proof.
  unfold list_all. rewrite bind_run. simpl. rewrite bind_run.
  unfold read_items. by destruct (items _ _).
Qed.

(** Only [add] moves the counter, and by one. *)
Lemma perform_next_id (c : call) (w : World) :
  _next_id (repo (snd (perform c w)))
  = _next_id (repo w) + (if is_add c then 1 else 0).
Proof.
  destruct c; cbn [perform is_add]; rewrite bind_run.
  - rewrite add_run. simpl. done.
  - rewrite get_run. destruct (dict_get _ _); simpl; lia.
  - rewrite update_run.
    destruct (dict_get _ _) as [l|]; [destruct (objects w !! l)|]; simpl; lia.
  - rewrite delete_run. destruct (dict_mem _ _); simpl; lia.
  - rewrite clear_done_run. destruct (items _ _); simpl; lia.
  - rewrite list_all_run. destruct (items _ _) as [its|]; simpl; [|lia].
    rewrite bind_run. unfold read_list. simpl.
    destruct (_ !! _); simpl; lia.
Qed.

(** [add] hands out the value of the counter. *)
Lemma assigned_id_add title created_at due_date priority tags (w : World) :
  assigned_id (Add title created_at due_date priority tags) w
  = Some (_next_id (repo w)).
Proof.
  unfold assigned_id, perform. rewrite bind_run, add_run. simpl.
  by rewrite list_lookup_middle.
Qed.

Lemma assigned_ids_from (cs : list call) (w : World) :
  assigned_ids cs w
  = seqZ (_next_id (repo w)) (Z.of_nat (length (List.filter is_add cs))).
Proof.
  revert w. induction cs as [|c cs IH]; intros w; [done|].
  cbn [assigned_ids]. rewrite IH, perform_next_id.
  destruct c as [ti cr du pr tg| | | | |];
    try (cbn [assigned_id is_add List.filter]; rewrite ?Z.add_0_r; done).
  rewrite assigned_id_add. cbn [is_add List.filter length].
  rewrite (seqZ_cons (_next_id (repo w))) by lia.
  do 2 f_equal; lia.
Qed.

Lemma seqZ_increasing (m n : Z) : StronglySorted Z.lt (seqZ m n).
Proof.
  destruct (Z.le_gt_cases n 0) as [Hn|Hn].
  { rewrite seqZ_nil by done. constructor. }
  rewrite <- (Z2Nat.id n) by lia.
  generalize (Z.to_nat n) as k. clear. intros k. revert m.
  induction k as [|k IH]; intros m.
  { rewrite seqZ_nil by done. constructor. }
  rewrite seqZ_cons by lia. constructor.
  - replace (Z.pred (Z.of_nat (S k))) with (Z.of_nat k) by lia. apply IH.
  - apply Forall_seqZ. lia.
Qed.

(** C2. Identity assignment: over every sequence of calls of the repository
    from its creation ([add] interleaved with [delete], [clear_done] and
    the other methods, a caller going on after each exception), the ids of
    the tasks returned by the successive calls of [add] are 1, 2, 3, ...,
    one per call of [add]: each is the previous one plus one, they increase
    strictly, and no id is given twice, whatever was deleted or cleared in
    between. *)
Theorem ids_monotonic_never_reused (cs : list call) :
  length (assigned_ids cs init) = length (List.filter is_add cs)
  ∧ (∀ i : nat, (i < length (assigned_ids cs init))%nat →
       assigned_ids cs init !! i = Some (1 + Z.of_nat i))
  ∧ StronglySorted Z.lt (assigned_ids cs init)
  ∧ NoDup (assigned_ids cs init).
Proof.
  rewrite assigned_ids_from. simpl.
  split; [|split; [|split]].
  - rewrite length_seqZ. lia.
  - intros i Hi. rewrite length_seqZ in Hi. apply lookup_seqZ_lt. lia.
  - apply seqZ_increasing.
  - apply NoDup_seqZ.
Qed.

(** ** Dictionaries *)

Lemma filter_sublist {A : Type} (f : A → bool) (l : list A) :
  List.filter f l `sublist_of` l.
Proof.
  induction l as [|x l IH]; simpl; [constructor|].
  destruct (f x); by constructor.
Qed.

Lemma Forall_sublist {A : Type} (P : A → Prop) (l k : list A) :
  Forall P k → l `sublist_of` k → Forall P l.
Proof.
  intros HP Hsub. induction Hsub as [|x l k _ IH|x l k _ IH]; [done|..].
  - apply Forall_cons in HP as [? ?]. constructor; auto.
  - apply Forall_cons in HP as [? ?]. auto.
Qed.

Lemma dict_del_sublist (k : Z) (d : dict) : dict_del k d `sublist_of` d.
Proof. apply filter_sublist. Qed.

Lemma dict_del_all_sublist (ks : list Z) (d : dict) :
  fold_left (λ d tid, dict_del tid d) ks d `sublist_of` d.
Proof.
  revert d. induction ks as [|k ks IH]; intros d; simpl; [done|].
  etrans; [apply IH|apply dict_del_sublist].
Qed.

Lemma dict_get_None (k : Z) (d : dict) :
  dict_get k d = None ↔ k ∉ keys d.
Proof.
  unfold dict_get, keys. induction d as [|[k' v] d IH]; simpl.
  - split; [intros _; apply not_elem_of_nil|done].
  - rewrite not_elem_of_cons. destruct (Z.eqb_spec k' k) as [->|Hne]; simpl.
    + split; [done|]. by intros [? _].
    + rewrite IH. split; [by intros ?; split|by intros [_ ?]].
Qed.

Lemma dict_get_elem (k : Z) (v : loc) (d : dict) :
  NoDup (keys d) → (k, v) ∈ d → dict_get k d = Some v.
Proof.
  unfold dict_get, keys. induction d as [|[k' v'] d IH]; simpl.
  - by intros _ ?%elem_of_nil.
  - intros [Hk Hd]%NoDup_cons [[= -> ->]|Hin]%elem_of_cons.
    + by rewrite Z.eqb_refl.
    + destruct (Z.eqb_spec k' k) as [->|Hne]; simpl; [|by apply IH].
      destruct Hk. apply list_elem_of_fmap. by exists (k, v).
Qed.

(** A key that is not in the dict goes last. *)
Lemma dict_set_fresh (k : Z) (v : loc) (d : dict) :
  k ∉ keys d → dict_set k v d = d ++ [(k, v)].
Proof.
  unfold keys. induction d as [|[k' v'] d IH]; simpl; [done|].
  intros [Hne Hd]%not_elem_of_cons.
  destruct (Z.eqb_spec k' k) as [->|_]; [done|]. by rewrite IH.
Qed.

(** ** The invariant of the repository *)

Lemma inv_init : repo_inv init.
Proof. split; simpl; try constructor; lia. Qed.

Lemma inv_set_lists (ls : list (list loc)) (w : World) :
  repo_inv w → repo_inv (set_lists ls w).
Proof. by intros []. Qed.

Lemma inv_sublist (d : dict) (w : World) :
  repo_inv w → d `sublist_of` _tasks (repo w) →
  repo_inv (set_repo (mkRepo d (_next_id (repo w))) w).
Proof.
  intros [Hk Hn Hb Hc Ho] Hsub. split; simpl.
  - by eapply Forall_sublist.
  - eapply sublist_NoDup; [done|]. by apply fmap_sublist.
  - by eapply Forall_sublist.
  - done.
  - eapply sublist_NoDup; [done|]. by apply fmap_sublist.
Qed.

Lemma inv_assign (l : loc) (t t' : Task) (w : World) :
  repo_inv w → objects w !! l = Some t → id t' = id t →
  repo_inv (set_objects (<[l := t']> (objects w)) w).
Proof.
  intros [Hk Hn Hb Hc Ho] Hl Hid. split; simpl; try done.
  eapply Forall_impl; [exact Hk|]. intros [k v] (t0 & Hv & Hk0). simpl in *.
  destruct (decide (l = v)) as [->|Hne].
  - exists t'. rewrite list_lookup_insert_eq by by eapply lookup_lt_Some.
    split; [done|]. congruence.
  - exists t0. by rewrite list_lookup_insert_ne.
Qed.

Lemma inv_key_free (w : World) :
  repo_inv w → _next_id (repo w) ∉ keys (_tasks (repo w)).
Proof.
  intros [_ _ Hb _ _] (kv & Hk & Hin)%list_elem_of_fmap.
  rewrite Forall_forall in Hb. apply Hb in Hin. lia.
Qed.

Lemma inv_address_free (w : World) :
  repo_inv w → length (objects w) ∉ values (_tasks (repo w)).
Proof.
  intros [Hk _ _ _ _] (kv & Hv & Hin)%list_elem_of_fmap.
  rewrite Forall_forall in Hk. apply Hk in Hin as (t & Ht & _).
  apply lookup_lt_Some in Ht. lia.
Qed.

Lemma inv_add title created_at due_date priority tags (w : World) :
  repo_inv w →
  repo_inv (snd (add title created_at due_date priority tags w)).
Proof.
  intros Hinv. pose proof (inv_key_free w Hinv) as Hfree.
  pose proof (inv_address_free w Hinv) as Hnew.
  destruct Hinv as [Hk Hn Hb Hc Ho].
  rewrite add_run. simpl. rewrite dict_set_fresh by done.
  split; simpl.
  - apply Forall_app. split.
    + eapply Forall_impl; [exact Hk|]. intros [k v] (t & Ht & Hid).
      exists t. split; [|done]. simpl in *.
      rewrite lookup_app_l; [done|]. by eapply lookup_lt_Some.
    + constructor; [|constructor]. eexists. simpl.
      by rewrite list_lookup_middle.
  - unfold keys in *. rewrite fmap_app. simpl.
    apply NoDup_app. split; [done|]. split; [|apply NoDup_singleton].
    intros k Hin ->%list_elem_of_singleton. done.
  - apply Forall_app. split.
    + eapply Forall_impl; [exact Hb|]. intros [k v]. simpl. lia.
    + constructor; [|constructor]. simpl. lia.
  - lia.
  - unfold values in *. rewrite fmap_app. simpl.
    apply NoDup_app. split; [done|]. split; [|apply NoDup_singleton].
    intros k Hin ->%list_elem_of_singleton. done.
Qed.

Lemma inv_perform (c : call) (w : World) :
  repo_inv w → repo_inv (snd (perform c w)).
Proof.
  intros Hinv.
  destruct c as [ti cr du pr tg|task_id|task_id ti st du pr tg|task_id| |sf tg so];
    cbn [perform]; rewrite bind_run.
  - pose proof (inv_add ti cr du pr tg w Hinv) as H.
    by destruct (add ti cr du pr tg w) as [[?| |] ?].
  - rewrite get_run. by destruct (dict_get _ _).
  - rewrite update_run.
    destruct (dict_get _ _) as [l|]; [|done].
    destruct (objects w !! l) as [t|] eqn:Hl; [|done]. simpl.
    apply (inv_assign l t); [done..|]. by destruct ti, st, du, pr, tg.
  - rewrite delete_run. destruct (dict_mem _ _); [|done]. simpl.
    apply inv_sublist; [done|apply dict_del_sublist].
  - rewrite clear_done_run. destruct (items _ _); [|done]. simpl.
    apply inv_sublist; [done|apply dict_del_all_sublist].
  - rewrite list_all_run. destruct (items _ _); [|done].
    rewrite bind_run. unfold read_list. simpl.
    destruct (_ !! _); by apply inv_set_lists.
Qed.

Lemma inv_after (cs : list call) (w : World) :
  repo_inv w → repo_inv (after cs w).
Proof.
  revert w. induction cs as [|c cs IH]; intros w Hinv; [done|].
  simpl. by apply IH, inv_perform.
Qed.

(** The states the repository reaches are states in the sense of [wf], and
    so are those a caller makes by assigning attributes of a task. *)
Lemma inv_wf (w : World) : repo_inv w → wf w.
Proof.
  intros [Hk Hn _ _ _]. split; [done|]. unfold values.
  apply Forall_fmap. eapply Forall_impl; [exact Hk|].
  intros [k l] (t & Ht & _). by eapply lookup_lt_Some.
Qed.

Lemma reachable_wf (cs : list call) : wf (after cs init).
Proof. apply inv_wf, inv_after, inv_init. Qed.

Lemma wf_mutate (l : nat) (f : Task → Task) (w : World) :
  wf w → wf (snd (mutate l f w)).
Proof.
  intros [Hn Hl]. unfold mutate. destruct (objects w !! l); [|done].
  split; [done|]. simpl. by rewrite length_insert.
Qed.

(** C10. Well-formedness of the repository: in every state reached from the
    creation of the repository by calls of its methods, each stored task
    sits under the key that is its own [id], the stored ids are pairwise
    distinct, every stored id is below the counter, and no two keys share
    a task object; so the key [add] writes is free, and [add] puts a new
    entry after the existing ones, for a task object that did not exist,
    overwriting nothing. *)
Theorem reachable_states_well_formed (cs : list call) :
  repo_inv (after cs init)
  ∧ ∀ title created_at due_date priority tags,
      dict_get (_next_id (repo (after cs init)))
               (_tasks (repo (after cs init))) = None
      ∧ ∃ task w',
          add title created_at due_date priority tags (after cs init)
          = (Ok task, w')
          ∧ objects (after cs init) !! task = None
          ∧ _tasks (repo w')
            = _tasks (repo (after cs init))
              ++ [(_next_id (repo (after cs init)), task)].
Proof.
  pose proof (inv_after cs init inv_init) as Hinv.
  split; [done|]. intros ti cr du pr tg.
  pose proof (inv_key_free _ Hinv) as Hfree.
  split; [by apply dict_get_None|].
  rewrite add_run. do 2 eexists. split; [done|]. split.
  - by apply lookup_ge_None.
  - simpl. by rewrite dict_set_fresh.
Qed.

(** ** Reading the dictionary *)

Lemma items_cons (os : list Task) (k : Z) (l : loc) (d : dict) :
  items os ((k, l) :: d) =
  match os !! l, items os d with
  | Some t, Some its => Some ((k, (l, t)) :: its)
  | _, _ => None
  end.
Proof.
  unfold items. simpl. destruct (os !! l); simpl; [|done].
  by destruct (mapM _ d).
Qed.

Lemma items_total (os : list Task) (d : dict) :
  Forall (λ l, (l < length os)%nat) (values d) → is_Some (items os d).
Proof.
  unfold values. induction d as [|[k l] d IH]; [by eexists|].
  rewrite items_cons. cbn [map snd]. intros [Hl Hd]%Forall_cons.
  destruct (lookup_lt_is_Some_2 os l Hl) as [t ->].
  destruct (IH Hd) as [its ->]. by eexists.
Qed.

Lemma wf_items (w : World) :
  wf w → is_Some (items (objects w) (_tasks (repo w))).
Proof. intros [_ H]. by apply items_total. Qed.

(** The entries that are done, read either way. *)
Lemma done_ids_entries (os : list Task) (d : dict) its :
  items os d = Some its →
  done_ids its = keys (List.filter (entry_done os) d).
Proof.
  unfold done_ids, keys. revert its.
  induction d as [|[k l] d IH]; intros its.
  { by intros [= <-]. }
  rewrite items_cons. destruct (os !! l) as [t|] eqn:Hl; [|done].
  destruct (items os d) as [its'|]; [|done]. intros [= <-].
  simpl. unfold entry_done at 1, is_done at 1. simpl. rewrite Hl.
  destruct (Status_eqb (status t) Done); simpl; by rewrite IH.
Qed.

Lemma filter_true {A : Type} (f : A → bool) (l : list A) :
  (∀ x, f x = true) → List.filter f l = l.
Proof.
  intros Hf. induction l as [|x l IH]; simpl; [done|]. by rewrite Hf, IH.
Qed.

Lemma filter_filter {A : Type} (f g : A → bool) (l : list A) :
  List.filter f (List.filter g l) = List.filter (λ x, g x && f x) l.
Proof.
  induction l as [|x l IH]; simpl; [done|].
  destruct (g x); simpl; [|done]. destruct (f x); by rewrite IH.
Qed.

Lemma dict_del_all (ks : list Z) (d : dict) :
  fold_left (λ d tid, dict_del tid d) ks d
  = List.filter (λ kv, negb (bool_decide (fst kv ∈ ks))) d.
Proof.
  revert d. induction ks as [|k ks IH]; intros d; cbn [fold_left].
  - symmetry. apply filter_true. intros kv.
    by rewrite bool_decide_eq_false_2 by apply not_elem_of_nil.
  - rewrite IH. unfold dict_del. rewrite filter_filter.
    apply List.filter_ext. intros kv.
    destruct (Z.eqb_spec (fst kv) k) as [Hk|Hk]; cbn [negb andb].
    + rewrite bool_decide_eq_true_2; [done|]. rewrite Hk. by left.
    + apply (f_equal negb), bool_decide_ext. rewrite elem_of_cons. tauto.
Qed.

(** With the keys of a dict, removing the keys of the done entries removes
    the done entries and no other. *)
Lemma remove_done_keys (os : list Task) (d : dict) :
  NoDup (keys d) →
  List.filter
    (λ kv, negb (bool_decide (fst kv ∈ keys (List.filter (entry_done os) d)))) d
  = List.filter (λ kv, negb (entry_done os kv)) d.
Proof.
  intros Hnd. apply List.filter_ext_in. intros kv Hin%list_elem_of_In.
  f_equal. destruct (entry_done os kv) eqn:Hdone.
  - apply bool_decide_eq_true_2, list_elem_of_fmap. exists kv.
    split; [done|]. apply list_elem_of_In, filter_In.
    split; [by apply list_elem_of_In|done].
  - apply bool_decide_eq_false_2.
    intros (kv' & Hk & Hin')%list_elem_of_fmap.
    apply list_elem_of_In, filter_In in Hin' as [Hin'%list_elem_of_In Hd'].
    assert (kv' = kv) as ->; [|congruence].
    destruct kv as [k v], kv' as [k' v']. simpl in Hk. subst k'.
    pose proof (dict_get_elem k v d Hnd Hin).
    pose proof (dict_get_elem k v' d Hnd Hin'). congruence.
Qed.

Lemma items_not_done (os : list Task) (d : dict) its :
  items os (List.filter (λ kv, negb (entry_done os kv)) d) = Some its →
  List.filter (λ p, status_matches Done (snd p)) (map snd its) = [].
Proof.
  revert its. induction d as [|[k l] d IH]; intros its.
  { by intros [= <-]. }
  cbn [List.filter]. destruct (entry_done os (k, l)) eqn:Hdone; cbn [negb];
    [apply IH|].
  rewrite items_cons. destruct (os !! l) as [t|] eqn:Hl; [|done].
  destruct (items os _) as [its'|]; [|done]. intros [= <-]. simpl.
  unfold entry_done in Hdone. simpl in Hdone. rewrite Hl in Hdone.
  unfold status_matches at 1. simpl. rewrite Hdone. by apply IH.
Qed.

Lemma listing_run status tag sort (w : World) its :
  items (objects w) (_tasks (repo w)) = Some its →
  listing status tag sort w
  = match mapM (λ l, objects w !! l)
                (map fst (select status tag sort (map snd its))) with
    | Some ts =>
        (Ok ts,
         set_lists
           (lists w ++ [map fst (select status tag sort (map snd its))]) w)
    | None =>
        (Wrong,
         set_lists
           (lists w ++ [map fst (select status tag sort (map snd its))]) w)
    end.
Proof.
  intros Hits. unfold listing. rewrite bind_run, list_all_run, Hits.
  rewrite bind_run. unfold read_list. simpl.
  rewrite list_lookup_middle by done. unfold read_tasks. simpl.
  by destruct (mapM _ _).
Qed.

(** C5. [clear_done]: in every state of the repository, [clear_done]
    returns the number of entries whose task is done, keeps the entries
    whose task is not done, in their order, under their keys and with their
    task objects, removes the others, and touches neither a task object nor
    the counter; after it, listing the done tasks, under any tag filter and
    any sort, gives the empty list. *)
Theorem clear_done_removes_done (w : World) :
  wf w →
  ∃ w',
    clear_done w
    = (Ok (Z.of_nat (length (List.filter (entry_done (objects w))
                                         (_tasks (repo w))))), w')
    ∧ _tasks (repo w')
      = List.filter (λ kv, negb (entry_done (objects w) kv)) (_tasks (repo w))
    ∧ objects w' = objects w
    ∧ lists w' = lists w
    ∧ _next_id (repo w') = _next_id (repo w)
    ∧ ∀ tag sort, ∃ w'', listing (only Done) tag sort w' = (Ok [], w'').
Proof.
  intros Hwf. destruct (wf_items w Hwf) as [its Hits].
  destruct Hwf as [Hnd Hlocs].
  rewrite clear_done_run, Hits. eexists. split; [|split; [|split; [|split; [|split]]]].
  - do 2 f_equal. rewrite (done_ids_entries _ _ _ Hits).
    unfold keys. by rewrite length_fmap.
  - simpl. rewrite dict_del_all, (done_ids_entries _ _ _ Hits).
    by apply remove_done_keys.
  - done.
  - done.
  - done.
  - intros tag sort. simpl.
    rewrite dict_del_all, (done_ids_entries _ _ _ Hits),
      remove_done_keys by done.
    set (d' := List.filter _ _).
    destruct (items_total (objects w) d') as [its' Hits'].
    { unfold values. eapply Forall_sublist; [exact Hlocs|].
      apply fmap_sublist, filter_sublist. }
    erewrite listing_run by (simpl; exact Hits').
    unfold select. rewrite (items_not_done _ _ _ Hits').
    destruct tag, sort; simpl; by eexists.
Qed.

(** ** Sorting *)

Section SortedFacts.
Context {A K : Type} (leb : K → K → bool) (key : A → K).
Hypothesis leb_total : ∀ x y, leb x y = false → leb y x = true.
Hypothesis leb_trans : ∀ x y z, leb x y = true → leb y z = true → leb x z = true.

Let le (a b : A) : Prop := leb (key a) (key b) = true.

Lemma insert_sorted_perm (x : A) (l : list A) :
  insert_sorted leb key x l ≡ₚ x :: l.
Proof.
  induction l as [|y l IH]; simpl; [done|].
  destruct (leb (key x) (key y)); [done|].
  rewrite IH. apply Permutation_swap.
Qed.

Lemma sorted_perm (l : list A) : sorted leb key l ≡ₚ l.
Proof.
  induction l as [|x l IH]; simpl; [done|].
  by rewrite insert_sorted_perm, IH.
Qed.

Lemma insert_sorted_ordered (x : A) (l : list A) :
  StronglySorted le l → StronglySorted le (insert_sorted leb key x l).
Proof.
  induction 1 as [|y l Hl IH Hy]; simpl.
  { constructor; constructor. }
  destruct (leb (key x) (key y)) eqn:Hxy.
  - constructor; [by constructor|]. constructor; [done|].
    eapply Forall_impl; [exact Hy|]. intros z Hz. by eapply leb_trans.
  - constructor; [done|].
    rewrite insert_sorted_perm. constructor; [|done]. by apply leb_total.
Qed.

Lemma sorted_ordered (l : list A) : StronglySorted le (sorted leb key l).
Proof.
  induction l as [|x l IH]; simpl; [constructor|].
  by apply insert_sorted_ordered.
Qed.
End SortedFacts.

(** The sort is stable: tasks that compare equal stay in their order. *)
Lemma insert_sorted_class {A K : Type} (leb : K → K → bool) (key : A → K)
    (p : A → bool) (x : A) (l : list A) :
  (∀ a b, p a = true → p b = true → leb (key a) (key b) = true) →
  List.filter p (insert_sorted leb key x l) = List.filter p (x :: l).
Proof.
  intros Hp. induction l as [|y l IH]; [done|].
  cbn [insert_sorted]. destruct (leb (key x) (key y)) eqn:Hxy; [done|].
  cbn [List.filter] in *. rewrite IH.
  destruct (p x) eqn:Px; [|done]. destruct (p y) eqn:Py; [|done].
  by rewrite (Hp x y Px Py) in Hxy.
Qed.

Lemma sorted_stable {A K : Type} (leb : K → K → bool) (key : A → K)
    (p : A → bool) (l : list A) :
  (∀ a b, p a = true → p b = true → leb (key a) (key b) = true) →
  List.filter p (sorted leb key l) = List.filter p l.
Proof.
  intros Hp. induction l as [|x l IH]; [done|].
  cbn [sorted]. rewrite insert_sorted_class by done.
  cbn [List.filter]. by rewrite IH.
Qed.

Lemma StronglySorted_sublist {A : Type} (R : A → A → Prop) (l k : list A) :
  StronglySorted R k → l `sublist_of` k → StronglySorted R l.
Proof.
  intros Hk Hsub. induction Hsub as [|x l k Hsub IH|x l k Hsub IH]; [done|..].
  - apply StronglySorted_inv in Hk as [Hk Hx]. constructor; [auto|].
    by eapply Forall_sublist.
  - apply StronglySorted_inv in Hk as [Hk _]. auto.
Qed.

Lemma StronglySorted_within {A : Type} (R R' : A → A → Prop) (P : A → Prop)
    (l : list A) :
  (∀ x y, P x → P y → R x y → R' x y) →
  Forall P l → StronglySorted R l → StronglySorted R' l.
Proof.
  intros HR HP Hl. induction Hl as [|x l Hl IH Hx]; [constructor|].
  apply Forall_cons in HP as [Px Pl]. constructor; [auto|].
  rewrite Forall_forall in *. intros y Hy. apply HR; auto.
Qed.

Lemma filter_Forall {A : Type} (f : A → bool) (l : list A) :
  Forall (λ x, f x = true) (List.filter f l).
Proof.
  apply Forall_forall. intros x Hx%list_elem_of_In%filter_In. tauto.
Qed.

Lemma filter_none {A : Type} (f : A → bool) (l : list A) :
  Forall (λ x, f x = false) l → List.filter f l = [].
Proof. induction 1 as [|x l Hx _ IH]; simpl; [done|]. by rewrite Hx. Qed.

Lemma filter_all {A : Type} (f : A → bool) (l : list A) :
  Forall (λ x, f x = true) l → List.filter f l = l.
Proof. induction 1 as [|x l Hx _ IH]; simpl; [done|]. by rewrite Hx, IH. Qed.

(** In a sorted list, the elements of a class closed downwards come first. *)
Lemma sorted_split {A : Type} (R : A → A → Prop) (p : A → bool) (l : list A) :
  (∀ x y, R x y → p y = true → p x = true) →
  StronglySorted R l →
  l = List.filter p l ++ List.filter (λ x, negb (p x)) l.
Proof.
  intros Hp Hl. induction Hl as [|x l Hl IH Hx]; [done|].
  simpl. destruct (p x) eqn:Px; simpl; [by rewrite <- IH|].
  assert (Hnone : Forall (λ y, p y = false) l).
  { eapply Forall_impl; [exact Hx|]. intros y Hxy. simpl in Hxy.
    destruct (p y) eqn:Py; [|done]. rewrite (Hp x y Hxy Py) in Px. done. }
  rewrite (filter_none p l Hnone). simpl. f_equal. symmetry.
  apply filter_all. eapply Forall_impl; [exact Hnone|].
  intros y Hy. simpl in Hy. by rewrite Hy.
Qed.

(** ** The orders of the sort keys *)

Lemma date_eqb_eq (a b : date) : date_eqb a b = true ↔ a = b.
Proof.
  destruct a, b. unfold date_eqb. simpl.
  rewrite !andb_true_iff, !Z.eqb_eq. split; [intros [[-> ->] ->]|intros [= -> -> ->]]; done.
Qed.

Lemma date_ltb_lt (a b : date) : date_ltb a b = true ↔ date_lt a b.
Proof.
  unfold date_ltb, date_lt.
  rewrite !orb_true_iff, !andb_true_iff, !orb_true_iff, !andb_true_iff,
    !Z.ltb_lt, !Z.eqb_eq. tauto.
Qed.

Lemma date_cases (a b : date) : a = b ∨ date_lt a b ∨ date_lt b a.
Proof.
  destruct a as [y m d], b as [y' m' d']. unfold date_lt. simpl.
  destruct (decide (y = y')) as [->|]; [|lia].
  destruct (decide (m = m')) as [->|]; [|lia].
  destruct (decide (d = d')) as [->|]; [by left|lia].
Qed.

Lemma date_lt_irrefl (a : date) : ¬ date_lt a a.
Proof. unfold date_lt. lia. Qed.

Lemma date_lt_trans (a b c : date) : date_lt a b → date_lt b c → date_lt a c.
Proof. unfold date_lt. lia. Qed.

Lemma pair_Z_leb_iff (x y : Z * Z) :
  pair_leb Z.eqb Z.ltb Z.leb x y = true
  ↔ fst x < fst y ∨ (fst x = fst y ∧ snd x ≤ snd y).
Proof.
  unfold pair_leb. destruct (Z.eqb_spec (fst x) (fst y)).
  - rewrite Z.leb_le. lia.
  - rewrite Z.ltb_lt. lia.
Qed.

Lemma pair_date_leb_iff (x y : date * Z) :
  pair_leb date_eqb date_ltb Z.leb x y = true
  ↔ date_lt (fst x) (fst y) ∨ (fst x = fst y ∧ snd x ≤ snd y).
Proof.
  unfold pair_leb. destruct (date_eqb (fst x) (fst y)) eqn:E.
  - apply date_eqb_eq in E. rewrite Z.leb_le, E.
    pose proof (date_lt_irrefl (fst y)). tauto.
  - rewrite date_ltb_lt. split; [tauto|]. intros [?|[Heq _]]; [done|].
    apply date_eqb_eq in Heq. congruence.
Qed.

Lemma due_leb_iff (x y : Z * (date * Z)) :
  due_leb x y = true
  ↔ fst x < fst y
    ∨ (fst x = fst y
       ∧ (date_lt (fst (snd x)) (fst (snd y))
          ∨ (fst (snd x) = fst (snd y) ∧ snd (snd x) ≤ snd (snd y)))).
Proof.
  unfold due_leb, pair_leb at 1. destruct (Z.eqb_spec (fst x) (fst y)).
  - rewrite pair_date_leb_iff. split; [by right|]. intros [?|[_ H]]; [lia|done].
  - rewrite Z.ltb_lt. split; [by left|]. intros [?|[? _]]; [done|lia].
Qed.

Lemma pair_Z_leb_total (x y : Z * Z) :
  pair_leb Z.eqb Z.ltb Z.leb x y = false →
  pair_leb Z.eqb Z.ltb Z.leb y x = true.
Proof.
  intros H. apply pair_Z_leb_iff. apply not_true_iff_false in H.
  rewrite pair_Z_leb_iff in H. lia.
Qed.

Lemma pair_Z_leb_trans (x y z : Z * Z) :
  pair_leb Z.eqb Z.ltb Z.leb x y = true →
  pair_leb Z.eqb Z.ltb Z.leb y z = true →
  pair_leb Z.eqb Z.ltb Z.leb x z = true.
Proof. rewrite !pair_Z_leb_iff. lia. Qed.

Lemma due_leb_total (x y : Z * (date * Z)) :
  due_leb x y = false → due_leb y x = true.
Proof.
  intros H. apply due_leb_iff. apply not_true_iff_false in H.
  rewrite due_leb_iff in H.
  destruct (Z.lt_trichotomy (fst x) (fst y)) as [?|[Hfst|?]];
    [destruct H; by left| |by left].
  right. split; [done|].
  destruct (date_cases (fst (snd x)) (fst (snd y))) as [Heq|[Hlt|Hgt]].
  - right. split; [done|].
    destruct (Z.le_gt_cases (snd (snd y)) (snd (snd x))) as [?|?]; [done|].
    destruct H. right. split; [done|]. right. split; [done|lia].
  - destruct H. right. split; [done|]. by left.
  - by left.
Qed.

Lemma due_leb_trans (x y z : Z * (date * Z)) :
  due_leb x y = true → due_leb y z = true → due_leb x z = true.
Proof.
  rewrite !due_leb_iff.
  intros [?|[? Hxy]] [?|[? Hyz]]; try (left; lia).
  right. split; [lia|].
  destruct Hxy as [Hxy|[Hxy ?]], Hyz as [Hyz|[Hyz ?]].
  - left. by eapply date_lt_trans.
  - left. by rewrite <- Hyz.
  - left. by rewrite Hxy.
  - right. split; [congruence|lia].
Qed.

(** ** Listings *)

Lemma items_pairs (os : list Task) (d : dict) its :
  items os d = Some its →
  Forall (λ p, os !! fst p = Some (snd p)) (map snd its).
Proof.
  revert its. induction d as [|[k l] d IH]; intros its.
  { intros [= <-]. constructor. }
  rewrite items_cons. destruct (os !! l) as [t|] eqn:Hl; [|done].
  destruct (items os d) as [its'|]; [|done]. intros [= <-].
  simpl. constructor; [done|]. by apply IH.
Qed.

Lemma items_stored (os : list Task) (d : dict) its :
  items os d = Some its →
  map snd (map snd its) = omap (λ kv, os !! snd kv) d.
Proof.
  revert its. induction d as [|[k l] d IH]; intros its.
  { by intros [= <-]. }
  rewrite items_cons. destruct (os !! l) as [t|] eqn:Hl; [|done].
  destruct (items os d) as [its'|]; [|done]. intros [= <-].
  simpl. rewrite Hl. f_equal. by apply IH.
Qed.

Lemma read_pairs (os : list Task) (ps : list (nat * Task)) :
  Forall (λ p, os !! fst p = Some (snd p)) ps →
  mapM (λ l, os !! l) (map fst ps) = Some (map snd ps).
Proof.
  induction 1 as [|p ps Hp _ IH]; simpl; [done|].
  rewrite Hp. simpl. by rewrite IH.
Qed.

Lemma filter_map_snd {A B : Type} (f : B → bool) (l : list (A * B)) :
  map snd (List.filter (λ p, f (snd p)) l) = List.filter f (map snd l).
Proof.
  induction l as [|p l IH]; simpl; [done|].
  destruct (f (snd p)); simpl; by rewrite IH.
Qed.

Lemma select_passes status tag sort (ps : list (nat * Task)) :
  select status tag sort ps
  = _sort_tasks (List.filter (λ p, passes status tag (snd p)) ps) sort.
Proof.
  unfold select, passes. f_equal. destruct status as [|s], tag as [tg|].
  - done.
  - symmetry. by apply filter_true.
  - by rewrite filter_filter.
  - apply List.filter_ext. intros p. by rewrite andb_true_r.
Qed.

Lemma sort_tasks_perm (ps : list (nat * Task)) sort :
  _sort_tasks ps sort ≡ₚ ps.
Proof. destruct sort; apply sorted_perm. Qed.

Lemma StronglySorted_map {A B : Type} (R : B → B → Prop) (f : A → B)
    (l : list A) :
  StronglySorted (λ x y, R (f x) (f y)) l → StronglySorted R (map f l).
Proof.
  induction 1 as [|x l _ IH Hx]; simpl; constructor; [done|].
  apply Forall_forall. intros y (x' & -> & Hin)%list_elem_of_fmap.
  rewrite Forall_forall in Hx. by apply Hx.
Qed.

Lemma sort_tasks_ordered (ps : list (nat * Task)) sort :
  StronglySorted (key_order sort) (map snd (_sort_tasks ps sort)).
Proof.
  apply StronglySorted_map. destruct sort; simpl.
  - apply (sorted_ordered created_leb (λ p, created_key (snd p)));
      [apply pair_Z_leb_total|apply pair_Z_leb_trans].
  - apply (sorted_ordered due_leb (λ p, due_key (snd p)));
      [apply due_leb_total|apply due_leb_trans].
  - apply (sorted_ordered priority_leb (λ p, priority_key (snd p)));
      [apply pair_Z_leb_total|apply pair_Z_leb_trans].
Qed.

(** A listing returns the stored tasks that pass the filters, in the order
    of the sort field. *)
Lemma listing_sorted status tag sort (w : World) :
  wf w →
  ∃ ts w',
    listing status tag sort w = (Ok ts, w')
    ∧ ts ≡ₚ List.filter (passes status tag) (stored_tasks w)
    ∧ StronglySorted (key_order sort) ts.
Proof.
  intros Hwf. destruct (wf_items w Hwf) as [its Hits].
  rewrite (listing_run _ _ _ _ _ Hits).
  rewrite select_passes.
  set (ps := List.filter _ (map snd its)).
  rewrite (read_pairs (objects w) (_sort_tasks ps sort)).
  - do 2 eexists. split; [done|]. split; [|apply sort_tasks_ordered].
    rewrite sort_tasks_perm. unfold ps, stored_tasks.
    by rewrite filter_map_snd, (items_stored _ _ _ Hits).
  - apply Forall_forall. intros p Hp.
    rewrite sort_tasks_perm in Hp.
    apply list_elem_of_In, filter_In in Hp as [Hp%list_elem_of_In _].
    pose proof (items_pairs _ _ _ Hits) as Hall.
    rewrite Forall_forall in Hall. by apply Hall.
Qed.

(** ** The order of a listing by due date *)

Lemma dated_first (a b : Task) :
  key_order sort_due a b → dated b = true → dated a = true.
Proof.
  unfold key_order, dated, due_key. rewrite due_leb_iff.
  destruct (due_date a), (due_date b); simpl; try done. lia.
Qed.

Lemma dated_order (a b : Task) :
  dated a = true → dated b = true → key_order sort_due a b → due_then_id a b.
Proof.
  unfold key_order, dated, due_key, due_then_id. rewrite due_leb_iff.
  destruct (due_date a) as [da|], (due_date b) as [db|]; simpl; try done.
  intros _ _ [?|[_ H]]; [lia|]. by exists da, db.
Qed.

Lemma undated_order (a b : Task) :
  dated a = false → dated b = false → key_order sort_due a b → by_id a b.
Proof.
  unfold key_order, dated, due_key, by_id. rewrite due_leb_iff.
  destruct (due_date a) as [da|], (due_date b) as [db|]; simpl; try done.
  intros _ _ [?|[_ [H|[_ H]]]]; [lia| |done].
  by apply date_lt_irrefl in H.
Qed.

(** C6. Sort by due date: in every state of the repository, under any
    status filter and tag filter, the listing sorted by due date is the
    tasks that have a due date followed by the tasks that have none; the
    former are in ascending order of due date, with ascending id among
    equal dates, the latter in ascending order of id; together they are
    the stored tasks that pass the filters. *)
Theorem list_sorted_by_due (w : World) (status : StatusFilter)
    (tag : option string) :
  wf w →
  ∃ with_due without_due w',
    listing status tag sort_due w = (Ok (with_due ++ without_due), w')
    ∧ Forall (λ t, is_Some (due_date t)) with_due
    ∧ Forall (λ t, due_date t = None) without_due
    ∧ StronglySorted due_then_id with_due
    ∧ StronglySorted by_id without_due
    ∧ with_due ++ without_due
      ≡ₚ List.filter (passes status tag) (stored_tasks w).
Proof.
  intros Hwf.
  destruct (listing_sorted status tag sort_due w Hwf) as (ts & w' & Hrun & Hperm & Hord).
  exists (List.filter dated ts), (List.filter (λ t, negb (dated t)) ts), w'.
  pose proof (sorted_split _ dated ts dated_first Hord) as Hsplit.
  rewrite <- Hsplit. split; [done|].
  split; [|split; [|split; [|split; [|done]]]].
  - eapply Forall_impl; [apply filter_Forall|]. intros t. unfold dated.
    by destruct (due_date t).
  - eapply Forall_impl; [apply filter_Forall|]. intros t. unfold dated.
    by destruct (due_date t).
  - apply (StronglySorted_within (key_order sort_due) _ (λ t, dated t = true)).
    + apply dated_order.
    + apply filter_Forall.
    + eapply StronglySorted_sublist; [exact Hord|apply filter_sublist].
  - apply (StronglySorted_within (key_order sort_due) _ (λ t, dated t = false)).
    + apply undated_order.
    + eapply Forall_impl; [apply filter_Forall|]. intros t.
      apply negb_true_iff.
    + eapply StronglySorted_sublist; [exact Hord|apply filter_sublist].
Qed.

(** ** The order of a listing by priority *)

Lemma ranked_first (n : Z) (a b : Task) :
  key_order sort_priority a b → ranked n b = true → ranked n a = true.
Proof.
  unfold key_order, ranked, priority_key, priority_leb.
  rewrite pair_Z_leb_iff, !Z.leb_le. simpl. lia.
Qed.

Lemma ranked_order (a b : Task) :
  priority a = priority b → key_order sort_priority a b → by_id a b.
Proof.
  unfold key_order, priority_key, priority_leb, by_id.
  rewrite pair_Z_leb_iff. simpl. intros ->. lia.
Qed.

Lemma group_sorted (p : option Priority) (l k : list Task) :
  l `sublist_of` k → Forall (has_priority p) l →
  StronglySorted (key_order sort_priority) k → StronglySorted by_id l.
Proof.
  intros Hsub Hp Hk.
  apply (StronglySorted_within (key_order sort_priority) _ (has_priority p)).
  - intros x y Hx Hy. apply ranked_order. unfold has_priority in *. congruence.
  - done.
  - by eapply StronglySorted_sublist.
Qed.

(** C7. Sort by priority: in every state of the repository, under any
    status filter and tag filter, the listing sorted by priority is the
    tasks of priority high, then those of priority med, then those of
    priority low, then those with no priority, each group in ascending
    order of id; together they are the stored tasks that pass the
    filters. *)
Theorem list_sorted_by_priority (w : World) (status : StatusFilter)
    (tag : option string) :
  wf w →
  ∃ high med low none w',
    listing status tag sort_priority w
    = (Ok (high ++ med ++ low ++ none), w')
    ∧ Forall (has_priority (Some High)) high
    ∧ Forall (has_priority (Some Med)) med
    ∧ Forall (has_priority (Some Low)) low
    ∧ Forall (has_priority None) none
    ∧ StronglySorted by_id high
    ∧ StronglySorted by_id med
    ∧ StronglySorted by_id low
    ∧ StronglySorted by_id none
    ∧ high ++ med ++ low ++ none
      ≡ₚ List.filter (passes status tag) (stored_tasks w).
Proof.
  intros Hwf.
  destruct (listing_sorted status tag sort_priority w Hwf)
    as (ts & w' & Hrun & Hperm & Hord).
  set (rest0 := List.filter (λ t, negb (ranked 0 t)) ts).
  set (rest1 := List.filter (λ t, negb (ranked 1 t)) rest0).
  set (rest2 := List.filter (λ t, negb (ranked 2 t)) rest1).
  assert (Hsub0 : rest0 `sublist_of` ts) by apply filter_sublist.
  assert (Hsub1 : rest1 `sublist_of` ts)
    by (etrans; [apply filter_sublist|done]).
  assert (Hsub2 : rest2 `sublist_of` ts)
    by (etrans; [apply filter_sublist|done]).
  pose proof (StronglySorted_sublist _ _ _ Hord Hsub0) as Hord0.
  pose proof (StronglySorted_sublist _ _ _ Hord Hsub1) as Hord1.
  pose proof (sorted_split _ (ranked 0) ts (ranked_first 0) Hord) as E0.
  pose proof (sorted_split _ (ranked 1) rest0 (ranked_first 1) Hord0) as E1.
  pose proof (sorted_split _ (ranked 2) rest1 (ranked_first 2) Hord1) as E2.
  fold rest0 in E0. fold rest1 in E1. fold rest2 in E2.
  assert (F0 : Forall (λ t, ranked 0 t = false) rest0).
  { eapply Forall_impl; [apply filter_Forall|]. intros t. apply negb_true_iff. }
  assert (F1 : Forall (λ t, ranked 1 t = false) rest1).
  { eapply Forall_impl; [apply filter_Forall|]. intros t. apply negb_true_iff. }
  assert (F2 : Forall (λ t, ranked 2 t = false) rest2).
  { eapply Forall_impl; [apply filter_Forall|]. intros t. apply negb_true_iff. }
  assert (G0 : Forall (has_priority (Some High)) (List.filter (ranked 0) ts)).
  { eapply Forall_impl; [apply filter_Forall|]. intros t.
    unfold ranked, has_priority. rewrite Z.leb_le.
    destruct (priority t) as [[]|]; simpl; (done || lia). }
  assert (G1 : Forall (has_priority (Some Med)) (List.filter (ranked 1) rest0)).
  { apply Forall_forall. intros t Ht.
    pose proof Ht as Ht'%list_elem_of_In%filter_In. destruct Ht' as [Hin Hr].
    rewrite Forall_forall in F0. apply list_elem_of_In, F0 in Hin.
    revert Hr Hin. unfold ranked, has_priority. rewrite Z.leb_le, Z.leb_gt.
    destruct (priority t) as [[]|]; simpl; (done || lia). }
  assert (G2 : Forall (has_priority (Some Low)) (List.filter (ranked 2) rest1)).
  { apply Forall_forall. intros t Ht.
    pose proof Ht as Ht'%list_elem_of_In%filter_In. destruct Ht' as [Hin Hr].
    rewrite Forall_forall in F1. apply list_elem_of_In, F1 in Hin.
    revert Hr Hin. unfold ranked, has_priority. rewrite Z.leb_le, Z.leb_gt.
    destruct (priority t) as [[]|]; simpl; (done || lia). }
  assert (G3 : Forall (has_priority None) rest2).
  { eapply Forall_impl; [exact F2|]. intros t.
    unfold ranked, has_priority. rewrite Z.leb_gt.
    destruct (priority t) as [[]|]; simpl; (done || lia). }
  exists (List.filter (ranked 0) ts), (List.filter (ranked 1) rest0),
    (List.filter (ranked 2) rest1), rest2, w'.
  rewrite <- E2, <- E1, <- E0.
  split; [done|]. do 4 (split; [done|]).
  split; [|split; [|split; [|split; [|done]]]].
  - eapply group_sorted; [apply filter_sublist|exact G0|exact Hord].
  - eapply group_sorted; [apply filter_sublist|exact G1|exact Hord0].
  - eapply group_sorted; [apply filter_sublist|exact G2|exact Hord1].
  - eapply group_sorted; [exact Hsub2|exact G3|exact Hord].
Qed.

(** ** Parsing of due dates *)

Lemma digit_val_char (c : ascii) (v : Z) :
  digit_val c = Some v → 0 ≤ v ≤ 9 ∧ c = digit_char v.
Proof.
  unfold digit_val, digit_char.
  destruct (_ && _) eqn:E; [|done]. intros [= <-].
  apply andb_true_iff in E as [H1%Z.leb_le H2%Z.leb_le].
  split; [lia|].
  rewrite Z.mod_small by lia.
  replace (48 + (Z.of_N (N_of_ascii c) - 48)) with (Z.of_N (N_of_ascii c)) by lia.
  by rewrite N2Z.id, ascii_N_embedding.
Qed.

Lemma digit_char_val (v : Z) : digit_val (digit_char v) = Some (v mod 10).
Proof.
  unfold digit_val, digit_char.
  pose proof (Z.mod_pos_bound v 10 ltac:(lia)) as Hv.
  rewrite N_ascii_embedding by lia.
  rewrite Z2N.id by lia.
  destruct (_ && _) eqn:E.
  - f_equal. lia.
  - apply andb_false_iff in E as [H%Z.leb_gt|H%Z.leb_gt]; lia.
Qed.

Lemma parse_two (a b : ascii) (n : Z) :
  parse_digits 0 [a; b] = Some n →
  0 ≤ n ≤ 99 ∧ a = digit_char (n / 10) ∧ b = digit_char n.
Proof.
  simpl. destruct (digit_val a) as [va|] eqn:Ha; [|done].
  destruct (digit_val b) as [vb|] eqn:Hb; [|done]. intros [= <-].
  apply digit_val_char in Ha as [Ra ->], Hb as [Rb ->].
  split; [lia|]. unfold digit_char.
  split; do 3 f_equal; Z.div_mod_to_equations; lia.
Qed.

Lemma parse_four (a b c d : ascii) (n : Z) :
  parse_digits 0 [a; b; c; d] = Some n →
  0 ≤ n ≤ 9999
  ∧ a = digit_char (n / 1000) ∧ b = digit_char (n / 100)
  ∧ c = digit_char (n / 10) ∧ d = digit_char n.
Proof.
  simpl. destruct (digit_val a) as [va|] eqn:Ha; [|done].
  destruct (digit_val b) as [vb|] eqn:Hb; [|done].
  destruct (digit_val c) as [vc|] eqn:Hc; [|done].
  destruct (digit_val d) as [vd|] eqn:Hd; [|done]. intros [= <-].
  apply digit_val_char in Ha as [Ra ->], Hb as [Rb ->], Hc as [Rc ->],
    Hd as [Rd ->].
  split; [lia|]. unfold digit_char.
  repeat split; do 3 f_equal; Z.div_mod_to_equations; lia.
Qed.

Lemma format_two (n : Z) :
  0 ≤ n ≤ 99 →
  parse_digits 0 [digit_char (n / 10); digit_char n] = Some n.
Proof.
  intros Hn. simpl. rewrite !digit_char_val. f_equal.
  Z.div_mod_to_equations; lia.
Qed.

Lemma format_four (n : Z) :
  0 ≤ n ≤ 9999 →
  parse_digits 0 [digit_char (n / 1000); digit_char (n / 100);
                  digit_char (n / 10); digit_char n] = Some n.
Proof.
  intros Hn. simpl. rewrite !digit_char_val. f_equal.
  Z.div_mod_to_equations; lia.
Qed.

Lemma valid_ymd_bounds (y m d : Z) :
  valid_ymd y m d = true → 1 ≤ y ≤ 9999 ∧ 1 ≤ m ≤ 12 ∧ 1 ≤ d ≤ 31.
Proof.
  unfold valid_ymd, MINYEAR, MAXYEAR, days_in_month.
  rewrite !andb_true_iff, !Z.leb_le.
  destruct (m =? 2); [destruct (is_leap y)|destruct (_ || _)]; lia.
Qed.

(** The parser reads what [isoformat] writes, and nothing else. *)
Lemma fromisoformat_iff (s : string) (d : date) :
  fromisoformat s = Some d ↔ valid_date d ∧ s = isoformat d.
Proof.
  unfold fromisoformat, valid_date, isoformat. split.
  - intros H. rewrite <- (string_of_list_ascii_of_string s).
    destruct (list_ascii_of_string s)
      as [|y1 [|y2 [|y3 [|y4 [|s1 [|m1 [|m2 [|s2 [|d1 [|d2 [|]]]]]]]]]]];
      try done.
    destruct (parse_digits 0 [y1; y2; y3; y4]) as [y|] eqn:Hy; [|done].
    destruct (parse_digits 0 [m1; m2]) as [m|] eqn:Hm; [|done].
    destruct (parse_digits 0 [d1; d2]) as [dd|] eqn:Hd; [|done].
    destruct (Ascii.eqb_spec s1 dash) as [->|]; [|done].
    destruct (Ascii.eqb_spec s2 dash) as [->|]; [|done].
    destruct (valid_ymd y m dd) eqn:Hv; [|done].
    simpl in H. injection H as <-. cbn [year month day].
    apply parse_four in Hy as (_ & -> & -> & -> & ->).
    apply parse_two in Hm as (_ & -> & ->).
    apply parse_two in Hd as (_ & -> & ->).
    done.
  - intros [Hv ->]. rewrite list_ascii_of_string_of_list_ascii.
    pose proof (valid_ymd_bounds _ _ _ Hv) as (Hy & Hm & Hd).
    rewrite format_four, !format_two by lia.
    rewrite Hv. by destruct d.
Qed.

Lemma contains_middle (pre s post : string) :
  contains (pre +:+ s +:+ post) s.
Proof. by exists pre, post. Qed.

Lemma string_app_assoc (a b c : string) : (a +:+ b) +:+ c = a +:+ b +:+ c.
Proof.
  induction a as [|x a IH]; [done|].
  change (String x ((a +:+ b) +:+ c) = String x (a +:+ b +:+ c)).
  by rewrite IH.
Qed.

Lemma contains_end (pre s : string) : contains (pre +:+ s) s.
Proof.
  exists pre, EmptyString. f_equal.
  induction s as [|x s IH]; [done|].
  change (String x s = String x (s +:+ EmptyString)). by rewrite <- IH.
Qed.

(** C8. Parsing of due dates: [parse_due_date] maps an absent input to an
    absent output; on a string it returns a date exactly when the string is
    the [YYYY-MM-DD] form of that date and the date is one of the calendar
    (so [2025-02-30] is rejected); on any other string it raises the
    validation error whose message contains the string and names the
    expected form [YYYY-MM-DD]. *)
Theorem parse_due_date_spec :
  parse_due_date None = Ok None
  ∧ (∀ s d, parse_due_date (Some s) = Ok (Some d)
            ↔ valid_date d ∧ s = isoformat d)
  ∧ (∀ s, (∀ d, ¬ (valid_date d ∧ s = isoformat d)) ↔
          ∃ msg, parse_due_date (Some s) = Raise (ValidationError msg))
  ∧ (∀ s msg, parse_due_date (Some s) = Raise (ValidationError msg) →
              contains msg s ∧ contains msg "YYYY-MM-DD")
  ∧ ∀ d, parse_due_date (Some "2025-02-30") ≠ Ok d.
Proof.
  split; [done|]. split; [|split; [|split]].
  - intros s d. rewrite <- fromisoformat_iff. unfold parse_due_date.
    destruct (fromisoformat s); split; congruence.
  - intros s. unfold parse_due_date.
    destruct (fromisoformat s) as [d|] eqn:E.
    + split.
      * intros H. destruct (H d). by apply fromisoformat_iff.
      * by intros [msg ?].
    + split; [by eexists|]. intros _ d Hd%fromisoformat_iff. congruence.
  - intros s msg. unfold parse_due_date.
    destruct (fromisoformat s); [done|]. intros [= <-]. split.
    + apply contains_middle.
    + change (". Expected YYYY-MM-DD") with (". Expected " +:+ "YYYY-MM-DD").
      rewrite <- !string_app_assoc. apply contains_end.
  - intros d. by vm_compute.
Qed.

(** ** What a caller shares with the repository *)

Lemma items_values (os : list Task) (d : dict) its :
  items os d = Some its → map fst (map snd its) = values d.
Proof.
  unfold values. revert its. induction d as [|[k l] d IH]; intros its.
  { by intros [= <-]. }
  rewrite items_cons. destruct (os !! l) as [t|]; [|done].
  destruct (items os d) as [its'|]; [|done]. intros [= <-].
  simpl. f_equal. by apply IH.
Qed.

Lemma select_subset status tag sort (ps : list (nat * Task)) :
  select status tag sort ps ⊆ ps.
Proof.
  rewrite select_passes. intros p Hp. rewrite sort_tasks_perm in Hp.
  by apply list_elem_of_In, filter_In in Hp as [Hp%list_elem_of_In _].
Qed.

(** The list a query builds is a new object; its elements are addresses
    held by the dictionary. *)
Lemma list_all_fresh status tag sort (w : World) :
  wf w →
  ∃ elems,
    list_all status tag sort w
    = (Ok (length (lists w)), set_lists (lists w ++ [elems]) w)
    ∧ lists w !! length (lists w) = None
    ∧ elems ⊆ values (_tasks (repo w)).
Proof.
  intros Hwf. destruct (wf_items w Hwf) as [its Hits].
  rewrite list_all_run, Hits. eexists. split; [done|]. split.
  - by apply lookup_ge_None.
  - rewrite <- (items_values _ _ _ Hits).
    intros l (p & -> & Hp)%list_elem_of_fmap.
    apply list_elem_of_fmap. exists p. split; [done|].
    by eapply select_subset.
Qed.

(** No method of the repository reads a list object. *)
Lemma perform_frame (c : call) (ls : list (list nat)) (w : World) :
  fst (perform c (set_lists ls w)) = fst (perform c w)
  ∧ objects (snd (perform c (set_lists ls w))) = objects (snd (perform c w))
  ∧ repo (snd (perform c (set_lists ls w))) = repo (snd (perform c w)).
Proof.
  destruct c as [ti cr du pr tg|task_id|task_id ti st du pr tg|task_id| |sf tg so];
    cbn [perform]; rewrite !bind_run.
  - by rewrite !add_run.
  - rewrite !get_run. simpl. by destruct (dict_get _ _).
  - rewrite !update_run. simpl.
    destruct (dict_get _ _) as [l|]; [|done]. by destruct (objects w !! l).
  - rewrite !delete_run. simpl. by destruct (dict_mem _ _).
  - rewrite !clear_done_run. simpl. by destruct (items _ _).
  - rewrite !list_all_run. simpl. destruct (items _ _) as [its|]; [|done].
    rewrite !bind_run. unfold read_list. simpl.
    by rewrite !list_lookup_middle.
Qed.

(** An assignment through the address [get] returned is what the
    repository then holds. *)
Lemma write_through (w : World) (task_id : Z) (task : nat) (t : Task)
    (f : Task → Task) :
  dict_get task_id (_tasks (repo w)) = Some task →
  objects w !! task = Some t →
  get task_id w = (Ok task, w)
  ∧ (_ ← mutate task f; fetch task_id) w
    = (Ok (f t), set_objects (<[task := f t]> (objects w)) w).
Proof.
  intros Hget Hobj. split; [by rewrite get_run, Hget|].
  rewrite bind_run. unfold mutate. rewrite Hobj.
  unfold fetch. rewrite bind_run, get_run. simpl. rewrite Hget.
  unfold read_task. simpl.
  rewrite list_lookup_insert_eq; [done|]. by eapply lookup_lt_Some.
Qed.

(** C4, as the code has it. The list a query returns is a new list object:
    no list object was at its address before, the repository does not
    refer to it, and whatever a caller does to list objects changes neither
    the results of later calls nor the tasks and the dictionary they leave.
    The elements of that list, and the result of [get], are the task
    objects the dictionary holds, not copies: an attribute assigned through
    one of them is what a later [get] returns. *)
Theorem query_results_share_tasks (w : World) :
  wf w →
  (∀ status tag sort, ∃ elems,
      list_all status tag sort w
      = (Ok (length (lists w)), set_lists (lists w ++ [elems]) w)
      ∧ lists w !! length (lists w) = None
      ∧ elems ⊆ values (_tasks (repo w)))
  ∧ (∀ c ls,
      fst (perform c (set_lists ls w)) = fst (perform c w)
      ∧ objects (snd (perform c (set_lists ls w)))
        = objects (snd (perform c w))
      ∧ repo (snd (perform c (set_lists ls w))) = repo (snd (perform c w)))
  ∧ (∀ task_id task t f,
      dict_get task_id (_tasks (repo w)) = Some task →
      objects w !! task = Some t →
      get task_id w = (Ok task, w)
      ∧ (_ ← mutate task f; fetch task_id) w
        = (Ok (f t), set_objects (<[task := f t]> (objects w)) w)).
Proof.
  intros Hwf. split; [|split].
  - intros status tag sort. by apply list_all_fresh.
  - intros c ls. apply perform_frame.
  - intros task_id task t f. apply write_through.
Qed.

(** C4, as the spec has it, fails: the task [get] returns is the stored
    object, and a title assigned on it is the title the repository reports
    afterwards, for [get] and for [list_all]. *)
Lemma returned_task_is_stored_object :
  get 1 one_task = (Ok 0%nat, one_task)
  ∧ fst (fetch 1 one_task)
    = Ok (mkTask 1 "Buy groceries" Open 0 None None [])
  ∧ fst ((_ ← mutate 0%nat (set_title "Changed"); fetch 1) one_task)
    = Ok (mkTask 1 "Changed" Open 0 None None [])
  ∧ fst ((_ ← mutate 0%nat (set_title "Changed");
          listing any_status None sort_created) one_task)
    = Ok [mkTask 1 "Changed" Open 0 None None []]
  ∧ fst ((_ ← mutate 0%nat (set_title "Changed"); fetch 1) one_task)
    ≠ fst (fetch 1 one_task).
Proof. by vm_compute. Qed.

(** ** The theorems at concrete states *)

Lemma update_three_valued_witness :
  dict_get 1 (_tasks (repo one_task)) = Some 0%nat
  ∧ objects one_task !! 0%nat
    = Some (mkTask 1 "Buy groceries" Open 0 None None [])
  ∧ update 1 None None Ellipsis Ellipsis Ellipsis one_task
    = (Ok 0%nat, one_task).
Proof.
  split; [reflexivity|]. split; [reflexivity|].
  exact (proj1 (update_three_valued one_task 1 0%nat
                  (mkTask 1 "Buy groceries" Open 0 None None [])
                  eq_refl eq_refl)).
Defined.

Lemma failure_is_atomic_witness :
  run_use_case (MarkDone 999) sample = (Raise (TaskNotFoundError 999), sample)
  ∧ run_use_case (AddTask 9 "A" (Some "2025-02-30") None None) sample
    = (Raise (ValidationError
                "Invalid date format: 2025-02-30. Expected YYYY-MM-DD"),
       sample)
  ∧ sample = sample.
Proof.
  split; [reflexivity|]. split; [reflexivity|].
  apply (failure_is_atomic (MarkDone 999) sample sample
           (TaskNotFoundError 999)).
  reflexivity.
Defined.

Lemma query_results_share_tasks_witness :
  wf sample
  ∧ ∀ c ls,
      fst (perform c (set_lists ls sample)) = fst (perform c sample)
      ∧ objects (snd (perform c (set_lists ls sample)))
        = objects (snd (perform c sample))
      ∧ repo (snd (perform c (set_lists ls sample)))
        = repo (snd (perform c sample)).
Proof.
  split; [compute_done|].
  apply (query_results_share_tasks sample). compute_done.
Defined.

Lemma clear_done_removes_done_witness :
  wf sample
  ∧ ∃ w',
      clear_done sample
      = (Ok (Z.of_nat (length (List.filter (entry_done (objects sample))
                                           (_tasks (repo sample))))), w')
      ∧ _tasks (repo w')
        = List.filter (λ kv, negb (entry_done (objects sample) kv))
                      (_tasks (repo sample))
      ∧ objects w' = objects sample
      ∧ lists w' = lists sample
      ∧ _next_id (repo w') = _next_id (repo sample)
      ∧ ∀ tag sort, ∃ w'', listing (only Done) tag sort w' = (Ok [], w'').
Proof.
  split; [compute_done|].
  apply (clear_done_removes_done sample). compute_done.
Defined.

Lemma list_sorted_by_due_witness :
  wf sample
  ∧ ∃ with_due without_due w',
      listing any_status None sort_due sample
      = (Ok (with_due ++ without_due), w')
      ∧ Forall (λ t, is_Some (due_date t)) with_due
      ∧ Forall (λ t, due_date t = None) without_due
      ∧ StronglySorted due_then_id with_due
      ∧ StronglySorted by_id without_due
      ∧ with_due ++ without_due
        ≡ₚ List.filter (passes any_status None) (stored_tasks sample).
Proof.
  split; [compute_done|].
  apply (list_sorted_by_due sample any_status None). compute_done.
Defined.

Lemma list_sorted_by_priority_witness :
  wf sample
  ∧ ∃ high med low none w',
      listing any_status None sort_priority sample
      = (Ok (high ++ med ++ low ++ none), w')
      ∧ Forall (has_priority (Some High)) high
      ∧ Forall (has_priority (Some Med)) med
      ∧ Forall (has_priority (Some Low)) low
      ∧ Forall (has_priority None) none
      ∧ StronglySorted by_id high
      ∧ StronglySorted by_id med
      ∧ StronglySorted by_id low
      ∧ StronglySorted by_id none
      ∧ high ++ med ++ low ++ none
        ≡ₚ List.filter (passes any_status None) (stored_tasks sample).
Proof.
  split; [compute_done|].
  apply (list_sorted_by_priority sample any_status None). compute_done.
Defined.

Lemma transitions_total_idempotent_witness :
  dict_get 2 (_tasks (repo sample)) = Some 1%nat
  ∧ objects sample !! 1%nat
    = Some (mkTask 2 "Later" Done 6 (Some (mkDate 2025 12 31)) (Some High)
                   ["a"; "b"])
  ∧ (_ ← mark_done 2; mark_done 2) sample = mark_done 2 sample
  ∧ (_ ← reopen_task 2; reopen_task 2) sample = reopen_task 2 sample.
Proof.
  split; [reflexivity|]. split; [reflexivity|].
  exact (proj2 (proj2 (transitions_total_idempotent sample 2 1%nat
                         (mkTask 2 "Later" Done 6 (Some (mkDate 2025 12 31))
                                 (Some High) ["a"; "b"])
                         eq_refl eq_refl))).
Defined.

(* ================================================================== *)
(** * Further properties *)

(** ** Strings *)

Lemma string_app_nil_r (s : string) : s +:+ EmptyString = s.
Proof.
  induction s as [|x s IH]; [done|].
  change (String x (s +:+ EmptyString) = String x s). by rewrite IH.
Qed.

Lemma string_app_cons (x : ascii) (a b : string) :
  String x a +:+ b = String x (a +:+ b).
Proof. reflexivity. Qed.

Lemma rev_app_spec (s acc : string) :
  String.rev_app s acc = String.rev s +:+ acc.
Proof.
  unfold String.rev. revert acc. induction s as [|x s IH]; intros acc; [done|].
  simpl. rewrite IH, (IH (String x EmptyString)).
  by rewrite string_app_assoc.
Qed.

Lemma rev_cons (x : ascii) (s : string) :
  String.rev (String x s) = String.rev s +:+ String x EmptyString.
Proof. unfold String.rev at 1. simpl. by rewrite rev_app_spec. Qed.

Lemma rev_app_distr (a b : string) :
  String.rev (a +:+ b) = String.rev b +:+ String.rev a.
Proof.
  induction a as [|x a IH].
  - by rewrite string_app_nil_r.
  - rewrite string_app_cons, !rev_cons, IH. by rewrite string_app_assoc.
Qed.

Lemma rev_involutive (s : string) : String.rev (String.rev s) = s.
Proof.
  induction s as [|x s IH]; [done|].
  by rewrite rev_cons, rev_app_distr, IH.
Qed.

Lemma all_space_app (a b : string) :
  all_space (a +:+ b) = all_space a && all_space b.
Proof.
  induction a as [|x a IH]; [done|].
  rewrite string_app_cons. simpl. by rewrite IH, andb_assoc.
Qed.

Lemma all_space_rev (s : string) : all_space (String.rev s) = all_space s.
Proof.
  induction s as [|x s IH]; [done|].
  rewrite rev_cons, all_space_app, IH. simpl.
  by rewrite andb_true_r, andb_comm.
Qed.

Lemma has_char_app (c : ascii) (a b : string) :
  has_char c (a +:+ b) = has_char c a || has_char c b.
Proof.
  induction a as [|x a IH]; [done|].
  rewrite string_app_cons. simpl. by rewrite IH, orb_assoc.
Qed.

Lemma has_char_rev (c : ascii) (s : string) :
  has_char c (String.rev s) = has_char c s.
Proof.
  induction s as [|x s IH]; [done|].
  rewrite rev_cons, has_char_app, IH. simpl.
  by rewrite orb_false_r, orb_comm.
Qed.

Lemma last_char_app (s : string) (c : ascii) :
  last_char (s +:+ String c EmptyString) = Some c.
Proof.
  induction s as [|x s IH]; [done|].
  rewrite string_app_cons. simpl. rewrite IH.
  by destruct (s +:+ String c EmptyString).
Qed.

Lemma last_char_rev (s : string) : last_char (String.rev s) = first_char s.
Proof. destruct s as [|x s]; [done|]. by rewrite rev_cons, last_char_app. Qed.

Lemma first_char_rev (s : string) : first_char (String.rev s) = last_char s.
Proof. by rewrite <- last_char_rev, rev_involutive. Qed.

(** ** Stripping *)

Lemma lstrip_split (s : string) :
  ∃ pre, s = pre +:+ lstrip s ∧ all_space pre = true.
Proof.
  induction s as [|x s (pre & IH & Hpre)]; [by exists EmptyString|].
  simpl. destruct (isspace x) eqn:Hx.
  - exists (String x pre). rewrite string_app_cons, <- IH. simpl.
    by rewrite Hx, Hpre.
  - by exists EmptyString.
Qed.

Lemma lstrip_first (s : string) (c : ascii) :
  first_char (lstrip s) = Some c → isspace c = false.
Proof.
  induction s as [|x s IH]; [done|]. simpl.
  destruct (isspace x) eqn:Hx; [done|]. simpl. by intros [= <-].
Qed.

Lemma lstrip_id (s : string) :
  (∀ c, first_char s = Some c → isspace c = false) → lstrip s = s.
Proof. destruct s as [|x s]; [done|]. simpl. intros H. by rewrite H. Qed.

Lemma lstrip_empty (s : string) :
  lstrip s = EmptyString ↔ all_space s = true.
Proof.
  induction s as [|x s IH]; [done|]. simpl.
  destruct (isspace x); simpl; [done|]. split; done.
Qed.

Lemma lstrip_has_char (c : ascii) (s : string) :
  has_char c s = false → has_char c (lstrip s) = false.
Proof.
  destruct (lstrip_split s) as (pre & Hs & _). intros H.
  rewrite Hs, has_char_app in H. by apply orb_false_iff in H as [_ ?].
Qed.

(** The last character of a string survives [lstrip] unless all goes. *)
Lemma lstrip_last (s : string) (c : ascii) :
  last_char (lstrip s) = Some c → last_char s = Some c.
Proof.
  induction s as [|x s IH]; [done|]. simpl.
  destruct (isspace x); [|done]. intros H. specialize (IH H).
  destruct s; [done|]. done.
Qed.

Lemma rstrip_split (s : string) :
  ∃ post, s = rstrip s +:+ post ∧ all_space post = true.
Proof.
  unfold rstrip. destruct (lstrip_split (String.rev s)) as (pre & Hs & Hpre).
  exists (String.rev pre). split; [|by rewrite all_space_rev].
  by rewrite <- rev_app_distr, <- Hs, rev_involutive.
Qed.

Lemma rstrip_last (s : string) (c : ascii) :
  last_char (rstrip s) = Some c → isspace c = false.
Proof. unfold rstrip. rewrite last_char_rev. apply lstrip_first. Qed.

Lemma rstrip_first (s : string) (c : ascii) :
  first_char (rstrip s) = Some c → first_char s = Some c.
Proof.
  unfold rstrip. rewrite first_char_rev. intros H%lstrip_last.
  by rewrite last_char_rev in H.
Qed.

Lemma rstrip_id (s : string) :
  (∀ c, last_char s = Some c → isspace c = false) → rstrip s = s.
Proof.
  intros H. unfold rstrip. rewrite lstrip_id; [apply rev_involutive|].
  intros c. rewrite first_char_rev. apply H.
Qed.

Lemma rstrip_empty (s : string) :
  rstrip s = EmptyString ↔ all_space s = true.
Proof.
  unfold rstrip. rewrite <- all_space_rev, <- lstrip_empty. split.
  - intros H. by rewrite <- (rev_involutive (lstrip _)), H.
  - by intros ->.
Qed.

Lemma strip_trimmed (s : string) : trimmed (strip s).
Proof.
  unfold strip. split.
  - intros c H%rstrip_first. by eapply lstrip_first.
  - apply rstrip_last.
Qed.

Lemma strip_id (s : string) : trimmed s → strip s = s.
Proof. intros [Hf Hl]. unfold strip. by rewrite lstrip_id, rstrip_id. Qed.

Lemma strip_idempotent (s : string) : strip (strip s) = strip s.
Proof. apply strip_id, strip_trimmed. Qed.

Lemma strip_empty (s : string) :
  strip s = EmptyString ↔ all_space s = true.
Proof.
  unfold strip. rewrite rstrip_empty. split.
  - intros H. destruct (lstrip s) as [|c r] eqn:E; [by apply lstrip_empty|].
    assert (isspace c = false) as Hc by (apply (lstrip_first s); by rewrite E).
    simpl in H. by rewrite Hc in H.
  - intros H. apply lstrip_empty in H. by rewrite H.
Qed.

Lemma strip_split (s : string) :
  ∃ pre post, s = pre +:+ strip s +:+ post
              ∧ all_space pre = true ∧ all_space post = true.
Proof.
  destruct (lstrip_split s) as (pre & Hs & Hpre).
  destruct (rstrip_split (lstrip s)) as (post & Ht & Hpost).
  exists pre, post. unfold strip. by rewrite <- Ht, <- Hs.
Qed.

Lemma strip_has_char (c : ascii) (s : string) :
  has_char c s = false → has_char c (strip s) = false.
Proof.
  destruct (strip_split s) as (pre & post & Hs & _). intros H.
  rewrite Hs, !has_char_app in H.
  apply orb_false_iff in H as [_ H]. by apply orb_false_iff in H as [? _].
Qed.

(** ** Titles *)

(** X1. A title that [validate_title] accepts is returned without the
    whitespace around it: the result is not empty, has no whitespace at
    either end, is the input less a run of whitespace on each side, and is
    accepted unchanged when validated again. *)
Theorem validate_title_normalises (s t : string) :
  validate_title s = Ok t →
  t ≠ EmptyString
  ∧ trimmed t
  ∧ (∃ pre post, s = pre +:+ t +:+ post
                 ∧ all_space pre = true ∧ all_space post = true)
  ∧ validate_title t = Ok t.
Proof.
  unfold validate_title.
  destruct (String.eqb_spec (strip s) EmptyString) as [|Hne]; [done|].
  intros [= <-]. split; [done|]. split; [apply strip_trimmed|].
  split; [apply strip_split|].
  rewrite strip_idempotent.
  by destruct (String.eqb_spec (strip s) EmptyString).
Qed.

(** X2. [validate_title] rejects exactly the titles made of whitespace
    only (the empty title among them), with the message "Title cannot be
    empty"; every other title is accepted. *)
Theorem validate_title_rejects_blank (s : string) :
  (validate_title s = Raise (ValidationError "Title cannot be empty")
   ↔ all_space s = true)
  ∧ ((∃ t, validate_title s = Ok t) ↔ all_space s = false).
Proof.
  unfold validate_title. pose proof (strip_empty s) as He.
  destruct (String.eqb_spec (strip s) EmptyString) as [Heq|Hne].
  - apply He in Heq. rewrite Heq. split; [done|].
    split; [by intros [t ?]|done].
  - destruct (all_space s).
    + by destruct Hne, He as [_ ->].
    + split; [done|]. split; [done|]. by eexists.
Qed.

(** ** Priorities *)

(** X3. [validate_priority] maps an absent input to an absent priority,
    accepts exactly the three lower-case names low, med and high, each as
    the priority it names, and rejects every other string (the same names
    in another case included) with a message made of the string and the
    accepted names. *)
Theorem validate_priority_spec :
  validate_priority None = Ok None
  ∧ (∀ s p, validate_priority (Some s) = Ok p
            ↔ ∃ q, p = Some q ∧ s = priority_name q)
  ∧ (∀ s, (∀ q, s ≠ priority_name q)
          ↔ validate_priority (Some s)
            = Raise (ValidationError
                       ("Invalid priority: " +:+ s
                        +:+ ". Must be one of: low, med, high"))).
Proof.
  split; [done|]. split.
  - intros s p. unfold validate_priority.
    destruct (String.eqb_spec s "low") as [->|Hl].
    { split; [intros [= <-]; by exists Low|].
      intros (q & -> & Hq). by destruct q. }
    destruct (String.eqb_spec s "med") as [->|Hm].
    { split; [intros [= <-]; by exists Med|].
      intros (q & -> & Hq). by destruct q. }
    destruct (String.eqb_spec s "high") as [->|Hh].
    { split; [intros [= <-]; by exists High|].
      intros (q & -> & Hq). by destruct q. }
    split; [done|]. intros (q & -> & Hq). by destruct q.
  - intros s. unfold validate_priority.
    destruct (String.eqb_spec s "low") as [->|Hl].
    { split; [intros H; by destruct (H Low)|done]. }
    destruct (String.eqb_spec s "med") as [->|Hm].
    { split; [intros H; by destruct (H Med)|done]. }
    destruct (String.eqb_spec s "high") as [->|Hh].
    { split; [intros H; by destruct (H High)|done]. }
    split; [done|]. intros _ q. by destruct q.
Qed.

(** ** Splitting and joining *)

Lemma split_nonempty (sep : ascii) (s : string) : split sep s ≠ [].
Proof.
  induction s as [|x s IH]; [done|]. simpl.
  destruct (Ascii.eqb x sep); [done|]. by destruct (split sep s).
Qed.

Lemma split_no_sep (sep : ascii) (s : string) :
  Forall (λ piece, has_char sep piece = false) (split sep s).
Proof.
  induction s as [|x s IH]; [by repeat constructor|]. simpl.
  destruct (Ascii.eqb x sep) eqn:Hx; [by constructor|].
  pose proof (split_nonempty sep s) as Hn.
  destruct (split sep s) as [|piece rest]; [done|].
  apply Forall_cons in IH as [Hp Hr]. constructor; [|done].
  simpl. by rewrite Hx.
Qed.

Lemma split_piece (sep : ascii) (x : string) :
  has_char sep x = false → split sep x = [x].
Proof.
  induction x as [|c x IH]; [done|]. simpl.
  intros [Hc Hx]%orb_false_iff. by rewrite Hc, IH.
Qed.

Lemma split_app (sep : ascii) (x rest : string) :
  has_char sep x = false →
  split sep (x +:+ String sep rest) = x :: split sep rest.
Proof.
  induction x as [|c x IH]; cbn [has_char].
  - intros _. change (EmptyString +:+ String sep rest) with (String sep rest).
    cbn [split]. by rewrite Ascii.eqb_refl.
  - intros [Hc Hx]%orb_false_iff.
    change (String c x +:+ String sep rest)
      with (String c (x +:+ String sep rest)).
    cbn [split]. by rewrite Hc, IH.
Qed.

Lemma split_join (sep : ascii) (l : list string) :
  l ≠ [] → Forall (λ piece, has_char sep piece = false) l →
  split sep (join (String sep EmptyString) l) = l.
Proof.
  induction l as [|x l IH]; [done|]. intros _ [Hx Hl]%Forall_cons.
  destruct l as [|y l]; [by apply split_piece|].
  change (join _ (x :: y :: l))
    with (x +:+ String sep (join (String sep EmptyString) (y :: l))).
  rewrite split_app by done. by rewrite IH.
Qed.

Lemma join_split (sep : ascii) (s : string) :
  join (String sep EmptyString) (split sep s) = s.
Proof.
  induction s as [|x s IH]; [done|]. simpl.
  destruct (Ascii.eqb_spec x sep) as [->|Hne].
  - pose proof (split_nonempty sep s) as Hn.
    destruct (split sep s) as [|piece rest]; [done|].
    change (join _ (EmptyString :: piece :: rest))
      with (String sep (join (String sep EmptyString) (piece :: rest))).
    by rewrite IH.
  - pose proof (split_nonempty sep s) as Hn.
    destruct (split sep s) as [|piece rest]; [done|].
    rewrite <- IH. by destruct rest.
Qed.

(** ** Tags *)

Lemma nonempty_true (s : string) : nonempty s = true ↔ s ≠ EmptyString.
Proof.
  unfold nonempty. destruct (String.eqb_spec s EmptyString); split; done.
Qed.

Lemma parse_tags_all_clean (tags_str : option string) :
  Forall clean_tag (parse_tags tags_str).
Proof.
  destruct tags_str as [s|]; [|constructor]. simpl.
  apply Forall_forall. intros t Ht.
  apply list_elem_of_In, filter_In in Ht as [Ht%list_elem_of_In Hne].
  apply list_elem_of_fmap in Ht as (piece & -> & Hp).
  pose proof (split_no_sep ","%char s) as Hall.
  rewrite Forall_forall in Hall. apply Hall in Hp.
  split; [by apply nonempty_true|]. split; [by apply strip_has_char|].
  apply strip_trimmed.
Qed.

(** X4. Every tag [parse_tags] returns is not empty, contains no comma and
    has no whitespace at either end; an absent input and the empty string
    give no tag. *)
Theorem parse_tags_clean (tags_str : option string) :
  Forall clean_tag (parse_tags tags_str)
  ∧ parse_tags None = []
  ∧ parse_tags (Some EmptyString) = [].
Proof. split; [apply parse_tags_all_clean|done]. Qed.

(** Tags joined by commas are read back as they are. *)
Lemma parse_tags_join (tags : list string) :
  Forall clean_tag tags → parse_tags (Some (join "," tags)) = tags.
Proof.
  intros Hall. destruct tags as [|t tags]; [done|].
  unfold parse_tags. rewrite (split_join ","%char) by
    (done || (eapply Forall_impl; [exact Hall|]; by intros ? (_ & ? & _))).
  induction Hall as [|x l (Hne & _ & Htr) _ IH]; [done|].
  simpl. rewrite strip_id by done.
  apply nonempty_true in Hne. rewrite Hne. by f_equal.
Qed.

(** X5. Round trip of tags: the tags of a task, joined by commas as the
    front-ends show them, are parsed back to the same tags; so parsing what
    was parsed and joined changes nothing. *)
Theorem parse_tags_round_trip (tags_str : option string) :
  parse_tags (Some (join "," (parse_tags tags_str))) = parse_tags tags_str.
Proof. apply parse_tags_join, parse_tags_all_clean. Qed.

(** ** Lookups in the dictionary *)

Lemma dict_get_set (k k' : Z) (v : nat) (d : dict) :
  dict_get k (dict_set k' v d) = if decide (k = k') then Some v else dict_get k d.
Proof.
  unfold dict_get. induction d as [|[k0 v0] d IH]; simpl.
  - destruct (Z.eqb_spec k' k); destruct (decide (k = k')); simpl; congruence.
  - destruct (Z.eqb_spec k0 k') as [->|Hne]; simpl.
    + destruct (Z.eqb_spec k' k); destruct (decide (k = k')); simpl; congruence.
    + destruct (Z.eqb_spec k0 k) as [->|Hne']; simpl.
      * by rewrite decide_False by done.
      * apply IH.
Qed.

Lemma dict_get_del (k k' : Z) (d : dict) :
  dict_get k (dict_del k' d) = if decide (k = k') then None else dict_get k d.
Proof.
  unfold dict_get, dict_del. induction d as [|[k0 v0] d IH]; simpl.
  - by destruct (decide (k = k')).
  - destruct (Z.eqb_spec k0 k') as [->|Hne]; simpl.
    + rewrite IH. destruct (decide (k = k')) as [->|Hne]; [done|].
      by destruct (Z.eqb_spec k' k).
    + destruct (Z.eqb_spec k0 k) as [->|Hne']; simpl.
      * by rewrite decide_False by done.
      * apply IH.
Qed.

Lemma dict_get_entry (k : Z) (v : nat) (d : dict) :
  dict_get k d = Some v → (k, v) ∈ d.
Proof.
  unfold dict_get. induction d as [|[k' v'] d IH]; simpl; [done|].
  destruct (Z.eqb_spec k' k) as [->|Hne]; simpl.
  - intros [= ->]. by left.
  - intros H. right. by apply IH.
Qed.

Lemma dict_mem_get (k : Z) (d : dict) :
  dict_mem k d = true ↔ is_Some (dict_get k d).
Proof.
  unfold dict_mem. destruct (dict_get k d); split; try done.
Qed.

Lemma fetch_run (task_id : Z) (w : World) :
  fetch task_id w
  = match dict_get task_id (_tasks (repo w)) with
    | None => (Raise (TaskNotFoundError task_id), w)
    | Some task =>
        match objects w !! task with
        | Some t => (Ok t, w)
        | None => (Wrong, w)
        end
    end.
Proof.
  unfold fetch. rewrite bind_run, get_run.
  by destruct (dict_get _ _).
Qed.

(** ** Adding, then reading *)

(** X6. What [add] stores can be read back: after [add], [get] of the id
    just assigned returns the new task, which carries that id, status open
    and the fields given ([None] for the tags giving no tag); every other id
    is found, or not found, as before, with the same attributes. *)
Theorem add_then_get (w : World) (ti : string) (cr : datetime)
    (du : option date) (pr : option Priority) (tg : option (list string)) :
  wf w →
  ∃ task w1,
    add ti cr du pr tg w = (Ok task, w1)
    ∧ get (_next_id (repo w)) w1 = (Ok task, w1)
    ∧ fetch (_next_id (repo w)) w1
      = (Ok (mkTask (_next_id (repo w)) ti Open cr du pr (or_empty tg)), w1)
    ∧ ∀ k, k ≠ _next_id (repo w) → fst (fetch k w1) = fst (fetch k w).
Proof.
  intros [_ Hlive]. rewrite add_run. do 2 eexists. split; [done|].
  split; [|split].
  - rewrite get_run. simpl. rewrite dict_get_set. by rewrite decide_True.
  - rewrite fetch_run. simpl. rewrite dict_get_set, decide_True by done.
    by rewrite list_lookup_middle.
  - intros k Hk. rewrite !fetch_run. simpl.
    rewrite dict_get_set, decide_False by done.
    destruct (dict_get k _) as [l|] eqn:Hl; [|done].
    apply dict_get_entry in Hl.
    rewrite Forall_forall in Hlive.
    assert (l < length (objects w))%nat as Hlt.
    { apply Hlive, list_elem_of_fmap. by exists (k, l). }
    rewrite lookup_app_l by done.
    by destruct (objects w !! l).
Qed.

(** ** Deleting *)

(** X7. [delete] of an id that exists removes that entry and nothing else:
    afterwards [get] and a second [delete] of the id raise
    [TaskNotFoundError] with that id, every other id is found as before, and
    the task objects and the counter are untouched. *)
Theorem delete_then_get (w : World) (task_id : Z) (task : nat) :
  dict_get task_id (_tasks (repo w)) = Some task →
  ∃ w1,
    delete task_id w = (Ok tt, w1)
    ∧ get task_id w1 = (Raise (TaskNotFoundError task_id), w1)
    ∧ delete task_id w1 = (Raise (TaskNotFoundError task_id), w1)
    ∧ (∀ k, k ≠ task_id → fst (get k w1) = fst (get k w))
    ∧ objects w1 = objects w
    ∧ _next_id (repo w1) = _next_id (repo w).
Proof.
  intros Hget. rewrite delete_run.
  assert (dict_mem task_id (_tasks (repo w)) = true) as ->
    by (apply dict_mem_get; by eexists).
  eexists. split; [done|]. split; [|split; [|split; [|done]]].
  - rewrite get_run. simpl. by rewrite dict_get_del, decide_True.
  - rewrite delete_run. simpl.
    assert (dict_mem task_id (dict_del task_id (_tasks (repo w))) = false) as ->.
    { unfold dict_mem. by rewrite dict_get_del, decide_True. }
    done.
  - intros k Hk. rewrite !get_run. simpl.
    rewrite dict_get_del, decide_False by done.
    by destruct (dict_get k _).
Qed.

(** ** Ids that do not exist *)

(** X8. Missing ids: [get], [update] and [delete] raise exactly when the id
    is not a key of the dictionary; the exception is [TaskNotFoundError]
    carrying the id asked for, and the world is left as it was. *)
Theorem missing_id_raises (w : World) (task_id : Z) :
  (∀ e w', get task_id w = (Raise e, w')
           ↔ dict_get task_id (_tasks (repo w)) = None
             ∧ e = TaskNotFoundError task_id ∧ w' = w)
  ∧ (∀ ti st du pr tg e w',
       update task_id ti st du pr tg w = (Raise e, w')
       ↔ dict_get task_id (_tasks (repo w)) = None
         ∧ e = TaskNotFoundError task_id ∧ w' = w)
  ∧ (∀ e w', delete task_id w = (Raise e, w')
             ↔ dict_get task_id (_tasks (repo w)) = None
               ∧ e = TaskNotFoundError task_id ∧ w' = w).
Proof.
  split; [|split].
  - intros e w'. rewrite get_run.
    destruct (dict_get _ _); split; (intros [= <- <-] || intros (? & -> & ->));
      done.
  - intros ti st du pr tg e w'. rewrite update_run.
    destruct (dict_get _ _) as [l|]; [destruct (objects w !! l)|];
      split; (intros [= <- <-] || intros (? & -> & ->)); done.
  - intros e w'. rewrite delete_run. unfold dict_mem.
    destruct (dict_get _ _); split; (intros [= <- <-] || intros (? & -> & ->));
      done.
Qed.

(** ** Clearing twice *)

Lemma no_done_items (os : list Task) (d : dict) its :
  items os (List.filter (λ kv, negb (entry_done os kv)) d) = Some its →
  done_ids its = [].
Proof.
  intros Hits. unfold done_ids.
  pose proof (items_not_done _ _ _ Hits) as Hnone.
  rewrite <- filter_map_snd in Hnone.
  apply fmap_nil_inv in Hnone.
  assert (List.filter is_done its = []) as ->; [|done].
  rewrite <- Hnone. apply List.filter_ext. by intros [k [l t]].
Qed.

(** X9. [clear_done] is idempotent: right after a [clear_done], a second
    one finds nothing to remove, returns 0 and leaves the world as it is. *)
Theorem clear_done_twice (w : World) :
  wf w →
  ∃ n w1, clear_done w = (Ok n, w1) ∧ clear_done w1 = (Ok 0, w1).
Proof.
  intros Hwf. destruct (wf_items w Hwf) as [its Hits].
  destruct Hwf as [Hnd Hlive].
  rewrite clear_done_run, Hits. do 2 eexists. split; [done|].
  rewrite clear_done_run. simpl.
  rewrite dict_del_all, (done_ids_entries _ _ _ Hits), remove_done_keys by done.
  set (d' := List.filter _ _).
  destruct (items_total (objects w) d') as [its' Hits'].
  { unfold values. eapply Forall_sublist; [exact Hlive|].
    apply fmap_sublist, filter_sublist. }
  rewrite Hits'. rewrite (no_done_items _ _ _ Hits'). done.
Qed.

(** ** The order of a listing by creation time *)

(** X10. Sort by creation time, the default: the listing is in ascending
    order of creation time, with ascending id among tasks created at the
    same instant, and is made of the stored tasks that pass the filters. *)
Theorem list_sorted_by_created (w : World) (status : StatusFilter)
    (tag : option string) :
  wf w →
  ∃ ts w',
    listing status tag sort_created w = (Ok ts, w')
    ∧ StronglySorted created_then_id ts
    ∧ ts ≡ₚ List.filter (passes status tag) (stored_tasks w).
Proof.
  intros Hwf.
  destruct (listing_sorted status tag sort_created w Hwf)
    as (ts & w' & Hrun & Hperm & Hord).
  exists ts, w'. split; [done|]. split; [|done].
  eapply (StronglySorted_within _ _ (λ _, True)); [|by apply Forall_true|exact Hord].
  intros a b _ _. unfold key_order, created_leb, created_key, created_then_id.
  by rewrite pair_Z_leb_iff.
Qed.

(** ** The status filter *)

Lemma filter_partition {A : Type} (f g h : A → bool) (l : list A) :
  (∀ x, f x = g x || h x) → (∀ x, g x && h x = false) →
  List.filter g l ++ List.filter h l ≡ₚ List.filter f l.
Proof.
  intros Hf Hgh. induction l as [|x l IH]; [done|]. simpl.
  rewrite Hf. specialize (Hgh x).
  destruct (g x), (h x); simpl in *; try done.
  - by rewrite IH.
  - rewrite <- IH. by rewrite Permutation_middle.
Qed.

Lemma Status_eqb_eq (a b : Status) : Status_eqb a b = true ↔ a = b.
Proof. destruct a, b; split; done. Qed.

Lemma passes_status (s : Status) tag (ts : list Task) (l : list Task) :
  ts ≡ₚ List.filter (passes (only s) tag) l →
  Forall (λ t, status t = s) ts.
Proof.
  intros Hperm. apply Forall_forall. intros t Ht. rewrite Hperm in Ht.
  apply list_elem_of_In, filter_In in Ht as [_ Hp].
  unfold passes in Hp. apply andb_true_iff in Hp as [Hs _].
  by apply Status_eqb_eq.
Qed.

(** X11. The status filter splits a listing: under the same tag filter and
    sort, the listing of open tasks holds only open tasks, the listing of
    done tasks only done tasks, and the two together are the listing of
    all tasks, each task once. *)
Theorem list_status_partition (w : World) (tag : option string)
    (sort : SortField) :
  wf w →
  ∃ ts_all ts_open ts_done w1 w2 w3,
    listing any_status tag sort w = (Ok ts_all, w1)
    ∧ listing (only Open) tag sort w = (Ok ts_open, w2)
    ∧ listing (only Done) tag sort w = (Ok ts_done, w3)
    ∧ Forall (λ t, status t = Open) ts_open
    ∧ Forall (λ t, status t = Done) ts_done
    ∧ ts_open ++ ts_done ≡ₚ ts_all.
Proof.
  intros Hwf.
  destruct (listing_sorted any_status tag sort w Hwf) as (ta & w1 & Ha & Pa & _).
  destruct (listing_sorted (only Open) tag sort w Hwf) as (to & w2 & Ho & Po & _).
  destruct (listing_sorted (only Done) tag sort w Hwf) as (td & w3 & Hd & Pd & _).
  exists ta, to, td, w1, w2, w3. do 3 (split; [done|]).
  split; [by eapply passes_status|]. split; [by eapply passes_status|].
  rewrite Pa, Po, Pd. apply filter_partition.
  - intros t. unfold passes, status_matches.
    destruct (status t), tag; simpl; try done; by destruct (has_tag _ _).
  - intros t. unfold passes, status_matches.
    destruct (status t), tag; simpl; try done; by destruct (has_tag _ _).
Qed.

(** ** The tag filter *)

Lemma lower_char_idempotent (c : ascii) :
  lower_char (lower_char c) = lower_char c.
Proof.
  destruct c as [[] [] [] [] [] [] [] []]; reflexivity.
Qed.

Lemma lower_idempotent (s : string) : lower (lower s) = lower s.
Proof.
  induction s as [|c s IH]; [done|]. simpl.
  by rewrite lower_char_idempotent, IH.
Qed.

Lemma has_tag_tagged (tag : string) (t : Task) :
  has_tag (lower tag) t = true ↔ tagged tag t.
Proof.
  unfold has_tag, tagged. rewrite existsb_exists. split.
  - intros (x & Hx%list_elem_of_In & Heq%String.eqb_eq). by exists x.
  - intros (x & Hx%list_elem_of_In & Heq). exists x. split; [done|].
    by apply String.eqb_eq.
Qed.

(** X12. The tag filter ignores case: a listing filtered by a tag holds
    exactly the stored tasks of the status asked for that have a tag equal
    to the filter once both are put in lower case; so a filter written in
    another case gives the same listing. *)
Theorem list_tag_filter (w : World) (status : StatusFilter) (tag : string)
    (sort : SortField) :
  wf w →
  ∃ ts w',
    listing status (Some tag) sort w = (Ok ts, w')
    ∧ (∀ t, t ∈ ts ↔ t ∈ stored_tasks w
                      ∧ passes status None t = true ∧ tagged tag t)
    ∧ ∀ tag', lower tag' = lower tag →
              listing status (Some tag') sort w = (Ok ts, w').
Proof.
  intros Hwf.
  destruct (listing_sorted status (Some tag) sort w Hwf)
    as (ts & w' & Hrun & Hperm & _).
  exists ts, w'. split; [done|]. split.
  - intros t. rewrite Hperm, list_elem_of_In, filter_In, <- list_elem_of_In.
    unfold passes. rewrite andb_true_r, andb_true_iff, has_tag_tagged.
    tauto.
  - intros tag' Heq. rewrite <- Hrun.
    destruct (wf_items w Hwf) as [its Hits].
    rewrite !(listing_run _ _ _ _ _ Hits). unfold select. by rewrite Heq.
Qed.

(** ** What an update leaves alone *)

Lemma values_injective (d : dict) (a b : Z) (v : nat) :
  NoDup (values d) → (a, v) ∈ d → (b, v) ∈ d → a = b.
Proof.
  unfold values. induction d as [|[k l] d IH]; simpl.
  { by intros _ ?%elem_of_nil. }
  intros [Hl Hd]%NoDup_cons Ha%elem_of_cons Hb%elem_of_cons.
  destruct Ha as [Ha|Ha], Hb as [Hb|Hb].
  - congruence.
  - injection Ha as -> ->. destruct Hl. apply list_elem_of_fmap.
    by exists (b, l).
  - injection Hb as -> ->. destruct Hl. apply list_elem_of_fmap.
    by exists (a, l).
  - by apply IH.
Qed.

(** X13. An update touches one task: when no two keys share a task object,
    [update] of an id that exists returns its task and changes neither the
    dictionary, nor the counter, nor any attribute of the task stored under
    another id. *)
Theorem update_touches_one_task (w : World) (task_id k : Z) (task other : nat)
    (ti : option string) (st : option Status) (du : arg (option date))
    (pr : arg (option Priority)) (tg : arg (option (list string))) :
  NoDup (values (_tasks (repo w))) →
  dict_get task_id (_tasks (repo w)) = Some task →
  is_Some (objects w !! task) →
  dict_get k (_tasks (repo w)) = Some other →
  k ≠ task_id →
  ∃ w1,
    update task_id ti st du pr tg w = (Ok task, w1)
    ∧ repo w1 = repo w
    ∧ lists w1 = lists w
    ∧ objects w1 !! other = objects w !! other
    ∧ fst (fetch k w1) = fst (fetch k w).
Proof.
  intros Hnd Hget [t Ht] Hk Hne.
  assert (task ≠ other) as Hloc.
  { intros ->. apply Hne. apply dict_get_entry in Hget, Hk.
    by eapply values_injective. }
  rewrite update_run, Hget, Ht. eexists. split; [done|].
  do 2 (split; [done|]).
  assert (<[task := assign ti st du pr tg t]> (objects w) !! other
          = objects w !! other) as Hsame by by apply list_lookup_insert_ne.
  split; [done|].
  rewrite !fetch_run. simpl. rewrite Hk, Hsame.
  by destruct (objects w !! other).
Qed.

(** ** What no method changes *)

Lemma perform_keeps_identity (c : call) (w : World) (l : nat) (t : Task) :
  objects w !! l = Some t →
  ∃ t', objects (snd (perform c w)) !! l = Some t'
        ∧ id t' = id t ∧ created_at t' = created_at t.
Proof.
  intros Hl.
  destruct c as [ti cr du pr tg|task_id|task_id ti st du pr tg|task_id| |sf tg so];
    cbn [perform]; rewrite bind_run.
  - rewrite add_run. simpl. exists t.
    rewrite lookup_app_l by by eapply lookup_lt_Some. done.
  - rewrite get_run. destruct (dict_get _ _); by exists t.
  - rewrite update_run. destruct (dict_get _ _) as [l0|]; [|by exists t].
    destruct (objects w !! l0) as [t0|] eqn:Hl0; [|by exists t]. simpl.
    destruct (decide (l0 = l)) as [->|Hne].
    + rewrite list_lookup_insert_eq by by eapply lookup_lt_Some.
      eexists. split; [done|]. assert (t0 = t) as -> by congruence.
      by destruct ti, st, du, pr, tg.
    + exists t. by rewrite list_lookup_insert_ne.
  - rewrite delete_run. destruct (dict_mem _ _); by exists t.
  - rewrite clear_done_run. destruct (items _ _); by exists t.
  - rewrite list_all_run. destruct (items _ _); [|by exists t].
    rewrite bind_run. unfold read_list. simpl.
    rewrite list_lookup_middle by done. by exists t.
Qed.

(** X14. Identity is immutable: through any sequence of calls of the
    repository, a task object that exists goes on existing (also once its
    entry is deleted or cleared, for the callers that hold it) and keeps its
    [id] and its [created_at]. *)
Theorem identity_is_immutable (cs : list call) (w : World) (l : nat) (t : Task) :
  objects w !! l = Some t →
  ∃ t', objects (after cs w) !! l = Some t'
        ∧ id t' = id t ∧ created_at t' = created_at t.
Proof.
  revert w t. induction cs as [|c cs IH]; intros w t Hl; [by exists t|].
  destruct (perform_keeps_identity c w l t Hl) as (t1 & Hl1 & Hid & Hcr).
  destruct (IH _ _ Hl1) as (t' & Hl' & Hid' & Hcr').
  exists t'. split; [done|]. split; congruence.
Qed.

(** ** Transitions, composed *)

Lemma set_objects_insert_same (w : World) (l : nat) (t : Task) :
  objects w !! l = Some t → set_objects (<[l := t]> (objects w)) w = w.
Proof. intros H. by rewrite insert_same, set_objects_same. Qed.

(** X15. Marking done and reopening undo each other: on an open task,
    [mark_done] followed by [reopen_task] gives back the world as it was,
    and so does [reopen_task] followed by [mark_done] on a done task. *)
Theorem transitions_undo (w : World) (task_id : Z) (task : nat) (t : Task) :
  dict_get task_id (_tasks (repo w)) = Some task →
  objects w !! task = Some t →
  (status t = Open →
   (_ ← mark_done task_id; reopen_task task_id) w = (Ok task, w))
  ∧ (status t = Done →
     (_ ← reopen_task task_id; mark_done task_id) w = (Ok task, w)).
Proof.
  intros Hget Hobj. unfold mark_done, reopen_task.
  assert (Hlt : (task < length (objects w))%nat) by by eapply lookup_lt_Some.
  split; intros Hst.
  - rewrite bind_run, (transition_run Done task_id task t w) by done.
    rewrite (transition_run Open task_id task (set_status Done t)); simpl;
      [|done|by apply list_lookup_insert_eq].
    unfold set_objects. simpl. rewrite list_insert_insert_eq.
    replace (set_status Open (set_status Done t)) with t
      by (destruct t; simpl in *; by subst).
    f_equal. by apply set_objects_insert_same.
  - rewrite bind_run, (transition_run Open task_id task t w) by done.
    rewrite (transition_run Done task_id task (set_status Open t)); simpl;
      [|done|by apply list_lookup_insert_eq].
    unfold set_objects. simpl. rewrite list_insert_insert_eq.
    replace (set_status Done (set_status Open t)) with t
      by (destruct t; simpl in *; by subst).
    f_equal. by apply set_objects_insert_same.
Qed.

(** ** Done, then cleared *)

Lemma dict_get_removed (k : Z) (ks : list Z) (d : dict) :
  k ∈ ks →
  dict_get k (List.filter (λ kv, negb (bool_decide (fst kv ∈ ks))) d) = None.
Proof.
  intros Hk. apply dict_get_None. unfold keys.
  intros (kv & -> & Hin)%list_elem_of_fmap.
  apply list_elem_of_In, filter_In in Hin as [_ Hn].
  by rewrite bool_decide_eq_true_2 in Hn.
Qed.

(** X16. A task marked done is removed by the next [clear_done]:
    [mark_done] of an id that exists followed by [clear_done] returns a
    count of at least 1, and the id is not found afterwards. *)
Theorem done_then_cleared (w : World) (task_id : Z) (task : nat) :
  wf w →
  dict_get task_id (_tasks (repo w)) = Some task →
  ∃ n w2,
    (_ ← mark_done task_id; clear_done) w = (Ok n, w2)
    ∧ 1 ≤ n
    ∧ get task_id w2 = (Raise (TaskNotFoundError task_id), w2).
Proof.
  intros [Hnd Hlive] Hget.
  assert (Hin : (task_id, task) ∈ _tasks (repo w)) by by apply dict_get_entry.
  assert (Hlt : (task < length (objects w))%nat).
  { rewrite Forall_forall in Hlive. apply Hlive, list_elem_of_fmap.
    by exists (task_id, task). }
  destruct (lookup_lt_is_Some_2 _ _ Hlt) as [t Ht].
  unfold mark_done. rewrite bind_run, (transition_run Done _ task t) by done.
  rewrite clear_done_run. simpl.
  set (os := <[task := set_status Done t]> (objects w)).
  destruct (items_total os (_tasks (repo w))) as [its Hits].
  { unfold os. by rewrite length_insert. }
  rewrite Hits. do 2 eexists. split; [done|].
  assert (Hdone : task_id ∈ done_ids its).
  { rewrite (done_ids_entries _ _ _ Hits). unfold keys.
    apply list_elem_of_fmap. exists (task_id, task). split; [done|].
    apply list_elem_of_In, filter_In. split; [by apply list_elem_of_In|].
    unfold entry_done, os. simpl. by rewrite list_lookup_insert_eq. }
  split.
  - destruct (done_ids its); [by apply elem_of_nil in Hdone|simpl; lia].
  - rewrite get_run. simpl. rewrite dict_del_all.
    by rewrite dict_get_removed.
Qed.

(** ** The services *)

Lemma add_task_run now ti du pr tg (w : World) :
  add_task now ti du pr tg w
  = match validate_title ti with
    | Ok t =>
        match parse_due_date du with
        | Ok d =>
            match validate_priority pr with
            | Ok p => add t now d p (Some (parse_tags tg)) w
            | Raise e => (Raise e, w)
            | Wrong => (Wrong, w)
            end
        | Raise e => (Raise e, w)
        | Wrong => (Wrong, w)
        end
    | Raise e => (Raise e, w)
    | Wrong => (Wrong, w)
    end.
Proof.
  unfold add_task. rewrite bind_run. unfold lift at 1.
  destruct (validate_title ti); [|done..].
  rewrite bind_run. unfold lift at 1.
  destruct (parse_due_date du); [|done..].
  rewrite bind_run. unfold lift at 1.
  by destruct (validate_priority pr).
Qed.

Lemma parse_due_date_valid (du : option string) (d : option date) :
  parse_due_date du = Ok d → ∀ x, d = Some x → valid_date x.
Proof.
  destruct du as [s|]; simpl; [|by intros [= <-]].
  destruct (fromisoformat s) as [y|] eqn:E; [|done].
  intros [= <-] x [= <-]. by apply fromisoformat_iff in E as [? _].
Qed.

Lemma parse_due_date_never_wrong (du : option string) :
  parse_due_date du ≠ Wrong.
Proof. destruct du as [s|]; simpl; [|done]. by destruct (fromisoformat s). Qed.

Lemma validate_title_ok (s t : string) :
  validate_title s = Ok t → t = strip s ∧ t ≠ EmptyString ∧ trimmed t.
Proof.
  unfold validate_title.
  destruct (String.eqb_spec (strip s) EmptyString); [done|].
  intros [= <-]. split; [done|]. split; [done|]. apply strip_trimmed.
Qed.

Lemma valid_assign (t : Task) ti st du pr tg :
  valid_task t →
  (∀ s, ti = Some s → s ≠ EmptyString ∧ trimmed s) →
  (∀ d, du = Given (Some d) → valid_date d) →
  (∀ l, tg = Given l → Forall clean_tag (or_empty l)) →
  valid_task (assign ti st du pr tg t).
Proof.
  intros (Hid & Hne & Htr & Hdue & Htags) Hti Hdu Htg.
  assert (id (assign ti st du pr tg t) = id t) as Eid
    by by destruct ti, st, du, pr, tg.
  assert (title (assign ti st du pr tg t)
          = match ti with Some s => s | None => title t end) as Eti
    by by destruct ti, st, du, pr, tg.
  assert (due_date (assign ti st du pr tg t)
          = match du with Given d => d | Ellipsis => due_date t end) as Edu
    by by destruct ti, st, du, pr, tg.
  assert (tags (assign ti st du pr tg t)
          = match tg with Given l => or_empty l | Ellipsis => tags t end) as Etg
    by by destruct ti, st, du, pr, tg.
  unfold valid_task. rewrite Eid, Eti, Edu, Etg.
  split; [done|]. split; [|split; [|split]].
  - destruct ti as [s|]; [by apply (Hti s)|done].
  - destruct ti as [s|]; [by apply (Hti s)|done].
  - destruct du as [|d]; [done|]. intros x ->. by apply Hdu.
  - destruct tg as [|l]; [done|]. by apply Htg.
Qed.

Lemma update_task_cases task_id ti du pr tg (w : World) :
  (∃ e, update_task task_id ti du pr tg w = (Raise e, w))
  ∨ ∃ vt vd vp,
      update_task task_id ti du pr tg w
      = update task_id vt None vd vp
          (match tg with
           | Given s => Given (Some (parse_tags s))
           | Ellipsis => Ellipsis
           end) w
      ∧ (∀ s, vt = Some s → s ≠ EmptyString ∧ trimmed s)
      ∧ (∀ d, vd = Given (Some d) → valid_date d).
Proof.
  unfold update_task. rewrite bind_run.
  assert (Htitle :
    (∃ e, (match ti with
           | Some s => s' ← lift (validate_title s); mret (Some s')
           | None => mret None
           end : M (option string)) w = (Raise e, w))
    ∨ ∃ vt, (match ti with
             | Some s => s' ← lift (validate_title s); mret (Some s')
             | None => mret None
             end : M (option string)) w = (Ok vt, w)
            ∧ ∀ s, vt = Some s → s ≠ EmptyString ∧ trimmed s).
  { destruct ti as [s|]; [|right; by exists None].
    rewrite bind_run. unfold lift.
    destruct (validate_title s) as [t|e|] eqn:E.
    - right. exists (Some t). split; [done|]. intros ? [= <-].
      by apply validate_title_ok in E as (_ & ? & ?).
    - left. by exists e.
    - unfold validate_title in E. by destruct (String.eqb _ _). }
  destruct Htitle as [[e ->]|(vt & -> & Hvt)]; [left; by exists e|].
  rewrite bind_run.
  assert (Hdue :
    (∃ e, (match du with
           | Given s => d ← lift (parse_due_date s); mret (Given d)
           | Ellipsis => mret Ellipsis
           end : M (arg (option date))) w = (Raise e, w))
    ∨ ∃ vd, (match du with
             | Given s => d ← lift (parse_due_date s); mret (Given d)
             | Ellipsis => mret Ellipsis
             end : M (arg (option date))) w = (Ok vd, w)
            ∧ ∀ d, vd = Given (Some d) → valid_date d).
  { destruct du as [|s]; [right; by exists Ellipsis|].
    rewrite bind_run. unfold lift.
    destruct (parse_due_date s) as [d|e|] eqn:E.
    - right. exists (Given d). split; [done|]. intros ? [= ->].
      by eapply parse_due_date_valid.
    - left. by exists e.
    - by apply parse_due_date_never_wrong in E. }
  destruct Hdue as [[e ->]|(vd & -> & Hvd)]; [left; by exists e|].
  rewrite bind_run.
  destruct pr as [|s].
  - right. by exists vt, vd, Ellipsis.
  - rewrite bind_run. unfold lift.
    destruct (validate_priority s) as [p|e|] eqn:E.
    + right. by exists vt, vd, (Given p).
    + left. by exists e.
    + destruct s as [s|]; [|done]. unfold validate_priority in E.
      by repeat destruct (String.eqb _ _).
Qed.

Lemma serve_update_keeps task_id vt st vd vp vtg (w : World) :
  repo_inv w → Forall valid_task (objects w) →
  (∀ s, vt = Some s → s ≠ EmptyString ∧ trimmed s) →
  (∀ d, vd = Given (Some d) → valid_date d) →
  (∀ l, vtg = Given l → Forall clean_tag (or_empty l)) →
  repo_inv (snd (update task_id vt st vd vp vtg w))
  ∧ Forall valid_task (objects (snd (update task_id vt st vd vp vtg w))).
Proof.
  intros Hinv Hall Hvt Hvd Hvtg. rewrite update_run.
  destruct (dict_get _ _) as [l|]; [|done].
  destruct (objects w !! l) as [t|] eqn:Hl; [|done]. simpl. split.
  - apply (inv_assign l t); [done..|]. by destruct vt, st, vd, vp, vtg.
  - apply Forall_forall. intros x Hx.
    apply list_elem_of_lookup in Hx as [i Hi].
    destruct (decide (l = i)) as [->|Hne].
    + rewrite list_lookup_insert_eq in Hi by by eapply lookup_lt_Some.
      injection Hi as <-. apply valid_assign; [|done..].
      rewrite Forall_forall in Hall. apply Hall.
      apply list_elem_of_lookup. by exists i.
    + rewrite list_lookup_insert_ne in Hi by done.
      rewrite Forall_forall in Hall. apply Hall.
      apply list_elem_of_lookup. by exists i.
Qed.

Lemma use_case_world (u : use_case) (w : World) :
  snd (run_use_case u w)
  = match u with
    | AddTask now ti du pr tg => snd (add_task now ti du pr tg w)
    | UpdateTask task_id ti du pr tg => snd (update_task task_id ti du pr tg w)
    | MarkDone task_id =>
        snd (update task_id None (Some Done) Ellipsis Ellipsis Ellipsis w)
    | ReopenTask task_id =>
        snd (update task_id None (Some Open) Ellipsis Ellipsis Ellipsis w)
    | DeleteTask task_id => snd (delete task_id w)
    end.
Proof.
  destruct u; cbn [run_use_case]; rewrite bind_run;
    unfold mark_done, reopen_task, delete_task.
  - by destruct (add_task _ _ _ _ _ w) as [[?| |] ?].
  - by destruct (update_task _ _ _ _ _ w) as [[?| |] ?].
  - by destruct (update _ _ _ _ _ _ w) as [[?| |] ?].
  - by destruct (update _ _ _ _ _ _ w) as [[?| |] ?].
  - by destruct (delete _ w) as [[?| |] ?].
Qed.

Lemma serve_keeps (r : request) (w : World) :
  repo_inv w → Forall valid_task (objects w) →
  repo_inv (snd (serve r w)) ∧ Forall valid_task (objects (snd (serve r w))).
Proof.
  intros Hinv Hall.
  destruct r as [u|task_id|sf tg so|]; cbn [serve].
  - rewrite use_case_world.
    destruct u as [now ti du pr tg|task_id ti du pr tg|task_id|task_id|task_id].
    + rewrite add_task_run.
      destruct (validate_title ti) as [t| |] eqn:Et; [|done..].
      destruct (parse_due_date du) as [d| |] eqn:Ed; [|done..].
      destruct (validate_priority pr) as [p| |] eqn:Ep; [|done..].
      split; [by apply inv_add|].
      rewrite add_run. simpl. apply Forall_app. split; [done|].
      constructor; [|constructor].
      apply validate_title_ok in Et as (_ & Hne & Htr).
      split; [by destruct Hinv|]. simpl.
      split; [done|]. split; [done|].
      split; [by eapply parse_due_date_valid|apply parse_tags_all_clean].
    + destruct (update_task_cases task_id ti du pr tg w)
        as [[e ->]|(vt & vd & vp & -> & Hvt & Hvd)]; [done|].
      apply serve_update_keeps; [done..|].
      intros l. destruct tg as [|s]; [done|]. intros [= <-].
      apply parse_tags_all_clean.
    + by apply serve_update_keeps.
    + by apply serve_update_keeps.
    + rewrite delete_run. destruct (dict_mem _ _); [|done]. simpl.
      split; [|done]. apply inv_sublist; [done|apply dict_del_sublist].
  - unfold get_task. rewrite bind_run, get_run. by destruct (dict_get _ _).
  - unfold list_tasks. rewrite bind_run, list_all_run.
    destruct (items _ _); [|done].
    rewrite bind_run. unfold read_list. simpl.
    rewrite list_lookup_middle by done. simpl. split; [|done].
    by apply inv_set_lists.
  - unfold service_clear_done. rewrite bind_run, clear_done_run.
    destruct (items _ _); [|done]. simpl. split; [|done].
    apply inv_sublist; [done|apply dict_del_all_sublist].
Qed.

(** X17. What the services store is valid: in every state reached from the
    creation of the service by its use cases (a caller going on after each
    exception), every task has a positive id, a title that is not empty and
    has no whitespace at either end, a due date that is a date of the
    calendar when it has one, and tags that are not empty, contain no comma
    and have no whitespace at either end; and the invariant of the
    repository holds. *)
Theorem services_store_valid_tasks (rs : list request) :
  Forall valid_task (objects (served rs init))
  ∧ Forall valid_task (stored_tasks (served rs init))
  ∧ repo_inv (served rs init).
Proof.
  assert (H : ∀ w, repo_inv w → Forall valid_task (objects w) →
              repo_inv (served rs w) ∧ Forall valid_task (objects (served rs w))).
  { induction rs as [|r rs IH]; intros w Hinv Hall; [done|].
    simpl. destruct (serve_keeps r w Hinv Hall). by apply IH. }
  destruct (H init inv_init) as [Hinv Hall]; [constructor|].
  split; [done|]. split; [|done].
  apply Forall_forall. intros t Ht. unfold stored_tasks in Ht.
  apply list_elem_of_omap in Ht as (kv & _ & Hl).
  rewrite Forall_forall in Hall. apply Hall.
  apply list_elem_of_lookup. by eexists.
Qed.

(** ** Adding through the service *)

Lemma validate_title_never_wrong (s : string) : validate_title s ≠ Wrong.
Proof. unfold validate_title. by destruct (String.eqb _ _). Qed.

Lemma validate_priority_never_wrong (p : option string) :
  validate_priority p ≠ Wrong.
Proof.
  destruct p as [s|]; [|done]. unfold validate_priority.
  by repeat destruct (String.eqb _ _).
Qed.

Lemma validate_priority_ok (pr : option string) :
  (∃ p, validate_priority pr = Ok p)
  ↔ pr = None ∨ ∃ q, pr = Some (priority_name q).
Proof.
  destruct pr as [s|]; [|split; intros _; [by left|by eexists]].
  unfold validate_priority.
  destruct (String.eqb_spec s "low") as [->|Hl].
  { split; intros _; [right; by exists Low|by eexists]. }
  destruct (String.eqb_spec s "med") as [->|Hm].
  { split; intros _; [right; by exists Med|by eexists]. }
  destruct (String.eqb_spec s "high") as [->|Hh].
  { split; intros _; [right; by exists High|by eexists]. }
  split; [by intros [? ?]|]. intros [?|[q [= ->]]]; [done|]. by destruct q.
Qed.

Lemma parse_due_date_ok (du : option string) :
  (∃ d, parse_due_date du = Ok d)
  ↔ du = None ∨ ∃ d, valid_date d ∧ du = Some (isoformat d).
Proof.
  destruct du as [s|]; [|split; intros _; [by left|by eexists]].
  unfold parse_due_date. destruct (fromisoformat s) as [d|] eqn:E.
  - split; [|by eexists]. intros _. right. exists d.
    apply fromisoformat_iff in E as [? ->]. done.
  - split; [by intros [? ?]|]. intros [?|(d & Hv & [= ->])]; [done|].
    assert (fromisoformat (isoformat d) = Some d) by by apply fromisoformat_iff.
    congruence.
Qed.

Lemma validate_title_accepts (s : string) :
  (∃ t, validate_title s = Ok t) ↔ all_space s = false.
Proof.
  unfold validate_title. pose proof (strip_empty s) as He.
  destruct (String.eqb_spec (strip s) EmptyString) as [Heq|Hne].
  - apply He in Heq. rewrite Heq. split; [by intros [? ?]|done].
  - split; [|by eexists]. intros _. destruct (all_space s); [|done].
    by destruct Hne, He as [_ ->].
Qed.

(** X18. [add_task] accepts a request exactly when the title is not made of
    whitespace only, the due date is absent or the [YYYY-MM-DD] form of a
    date of the calendar, and the priority is absent or one of low, med,
    high; it then returns a new task that carries the value of the counter
    as id, the title without the whitespace around it, status open, the
    time of the call and the parsed tags, and advances the counter by one.
    A title of whitespace is reported whatever the other fields are. *)
Theorem add_task_accepts (w : World) (now : datetime) (ti : string)
    (du pr tg : option string) :
  ((∃ task w', add_task now ti du pr tg w = (Ok task, w'))
   ↔ all_space ti = false
     ∧ (du = None ∨ ∃ d, valid_date d ∧ du = Some (isoformat d))
     ∧ (pr = None ∨ ∃ q, pr = Some (priority_name q)))
  ∧ (∀ task w', add_task now ti du pr tg w = (Ok task, w') →
       ∃ t, objects w' !! task = Some t
            ∧ id t = _next_id (repo w) ∧ title t = strip ti
            ∧ status t = Open ∧ created_at t = now
            ∧ tags t = parse_tags tg
            ∧ dict_get (id t) (_tasks (repo w')) = Some task
            ∧ _next_id (repo w') = _next_id (repo w) + 1)
  ∧ (all_space ti = true →
     add_task now ti du pr tg w
     = (Raise (ValidationError "Title cannot be empty"), w)).
Proof.
  rewrite add_task_run.
  pose proof (validate_title_accepts ti) as Ht.
  pose proof (parse_due_date_ok du) as Hd.
  pose proof (validate_priority_ok pr) as Hp.
  split; [|split].
  - destruct (validate_title ti) as [t|e|] eqn:Et.
    2:{ split; [by intros (? & ? & ?)|]. intros (Ha & _).
        apply Ht in Ha as [? ?]. done. }
    2:{ by apply validate_title_never_wrong in Et. }
    destruct (parse_due_date du) as [d|e|] eqn:Ed.
    2:{ split; [by intros (? & ? & ?)|]. intros (_ & Hb & _).
        apply Hd in Hb as [? ?]. done. }
    2:{ by apply parse_due_date_never_wrong in Ed. }
    destruct (validate_priority pr) as [p|e|] eqn:Ep.
    2:{ split; [by intros (? & ? & ?)|]. intros (_ & _ & Hc).
        apply Hp in Hc as [? ?]. done. }
    2:{ by apply validate_priority_never_wrong in Ep. }
    rewrite add_run. split; [|by eexists _, _].
    intros _. split; [apply Ht; by eexists|].
    split; [apply Hd; by eexists|apply Hp; by eexists].
  - intros task w'.
    destruct (validate_title ti) as [t|e|] eqn:Et; [|done..].
    destruct (parse_due_date du) as [d|e|]; [|done..].
    destruct (validate_priority pr) as [p|e|]; [|done..].
    rewrite add_run. intros [= <- <-]. simpl.
    eexists. rewrite list_lookup_middle by done. split; [done|]. simpl.
    apply validate_title_ok in Et as (-> & _ & _).
    do 5 (split; [done|]). split; [|done].
    rewrite dict_get_set. by rewrite decide_True.
  - intros Ha. unfold validate_title.
    apply strip_empty in Ha. by rewrite Ha.
Qed.

(** ** Front-ends: running *)

Lemma io_bind_run {A B : Type} (m : IO A) (k : A → IO B) (c : Console) (w : World) :
  (m ≫= k) c w = match m c w with
                 | (Return a, c', w') => k a c' w'
                 | (Throw s, c', w') => (Throw s, c', w')
                 | (Stuck, c', w') => (Stuck, c', w')
                 end.
Proof. reflexivity. Qed.

Lemma call_service_run {A : Type} (m : M A) (c : Console) (w : World) :
  call_service m c w = match m w with
                       | (Ok a, w') => (Return a, c, w')
                       | (Raise e, w') => (Throw (Domain e), c, w')
                       | (Wrong, w') => (Stuck, c, w')
                       end.
Proof. reflexivity. Qed.

Lemma print_run (msg : string) (c : Console) (w : World) :
  print msg c w = (Return tt, printed msg c, w).
Proof. reflexivity. Qed.

Lemma look_run (l : nat) (t : Task) (c : Console) (w : World) :
  objects w !! l = Some t → look l c w = (Return t, c, w).
Proof.
  intros H. unfold look. rewrite call_service_run. unfold read_task.
  by rewrite H.
Qed.

(** ** Well-formed states are kept *)





Lemma wf_live (w : World) (k : Z) (l : nat) :
  wf w → dict_get k (_tasks (repo w)) = Some l → is_Some (objects w !! l).
Proof.
  intros [_ Hlive] Hget%dict_get_entry. apply lookup_lt_is_Some_2.
  rewrite Forall_forall in Hlive. apply Hlive, list_elem_of_fmap.
  by exists (k, l).
Qed.


Lemma safe_get task_id : safe_ref (get_task task_id).
Proof.
  intros w Hwf. unfold get_task. rewrite get_run.
  destruct (dict_get _ _) as [l|] eqn:Hget; [|left; by eexists].
  right. exists l, w. split; [done|]. split; [done|]. by eapply wf_live.
Qed.






(** ** The command line *)

Lemma update_task_validated task_id ti du pr tg (w : World) :
  (∃ e, update_task task_id ti du pr tg w = (Raise e, w))
  ∨ ∃ vt vd vp,
      update_task task_id ti du pr tg w
      = update task_id vt None vd vp
          (match tg with
           | Given s => Given (Some (parse_tags s))
           | Ellipsis => Ellipsis
           end) w
      ∧ match ti with
        | Some s => validate_title s = Ok (strip s) ∧ vt = Some (strip s)
        | None => vt = None
        end
      ∧ match du with
        | Given s => ∃ d, parse_due_date s = Ok d ∧ vd = Given d
        | Ellipsis => vd = Ellipsis
        end
      ∧ match pr with
        | Given s => ∃ p, validate_priority s = Ok p ∧ vp = Given p
        | Ellipsis => vp = Ellipsis
        end.
Proof.
  unfold update_task. cbv [mbind M_bind mret M_ret lift].
  destruct ti as [s|].
  - destruct (validate_title s) as [t|e|] eqn:Et;
      [|left; by exists e|by apply validate_title_never_wrong in Et].
    pose proof (validate_title_ok _ _ Et) as (-> & _ & _).
    destruct du as [|sd].
    + destruct pr as [|sp]; [right; by eexists _, _, _|].
      destruct (validate_priority sp) as [p|e|] eqn:Ep;
        [|left; by exists e|by apply validate_priority_never_wrong in Ep].
      right. eexists _, _, _. split; [done|]. repeat split; by eauto.
    + destruct (parse_due_date sd) as [d|e|] eqn:Ed;
        [|left; by exists e|by apply parse_due_date_never_wrong in Ed].
      destruct pr as [|sp].
      { right. eexists _, _, _. split; [done|]. repeat split; by eauto. }
      destruct (validate_priority sp) as [p|e|] eqn:Ep;
        [|left; by exists e|by apply validate_priority_never_wrong in Ep].
      right. eexists _, _, _. split; [done|]. repeat split; by eauto.
  - destruct du as [|sd].
    + destruct pr as [|sp]; [right; by eexists _, _, _|].
      destruct (validate_priority sp) as [p|e|] eqn:Ep;
        [|left; by exists e|by apply validate_priority_never_wrong in Ep].
      right. eexists _, _, _. split; [done|]. repeat split; by eauto.
    + destruct (parse_due_date sd) as [d|e|] eqn:Ed;
        [|left; by exists e|by apply parse_due_date_never_wrong in Ed].
      destruct pr as [|sp].
      { right. eexists _, _, _. split; [done|]. repeat split; by eauto. }
      destruct (validate_priority sp) as [p|e|] eqn:Ep;
        [|left; by exists e|by apply validate_priority_never_wrong in Ep].
      right. eexists _, _, _. split; [done|]. repeat split; by eauto.
Qed.




(** X20. The command line cannot clear a due date or a priority: when
    [cmd_update] succeeds on a task, a due date the task had is still
    there, or replaced by a date, and so for the priority; an option that is
    not given leaves its field as it was, and the status is never
    changed. *)
Theorem cli_update_never_clears (w w' : World) (c c' : Console) (args_id : Z)
    (ti du pr tg : option string) (task : nat) (t : Task) (code : Z) :
  dict_get args_id (_tasks (repo w)) = Some task →
  objects w !! task = Some t →
  Cli.cmd_update args_id ti du pr tg c w = (Return code, c', w') →
  ∃ t', objects w' !! task = Some t'
        ∧ (is_Some (due_date t) → is_Some (due_date t'))
        ∧ (is_Some (priority t) → is_Some (priority t'))
        ∧ (du = None → due_date t' = due_date t)
        ∧ (pr = None → priority t' = priority t)
        ∧ (tg = None → tags t' = tags t)
        ∧ (ti = None → title t' = title t)
        ∧ status t' = status t ∧ id t' = id t.
Proof.
  intros Hget Hobj. unfold Cli.cmd_update.
  rewrite io_bind_run, call_service_run.
  destruct (update_task_validated args_id ti (Cli.given_or_ellipsis du)
              (Cli.given_or_ellipsis pr) (Cli.given_or_ellipsis tg) w)
    as [[e ->]|(vt & vd & vp & -> & Ht & Hd & Hp)]; [done|].
  rewrite update_run, Hget, Hobj.
  rewrite io_bind_run.
  erewrite look_run
    by (simpl; apply list_lookup_insert_eq; by eapply lookup_lt_Some).
  rewrite io_bind_run, print_run. intros [= _ _ <-]. simpl.
  eexists. split.
  { apply list_lookup_insert_eq. by eapply lookup_lt_Some. }
  assert (Hdue : due_date (assign vt None vd vp
                    (match Cli.given_or_ellipsis tg with
                     | Given s => Given (Some (parse_tags s))
                     | Ellipsis => Ellipsis
                     end) t)
                 = match vd with Given d => d | Ellipsis => due_date t end)
    by by destruct vt, vd, vp, tg.
  assert (Hpri : priority (assign vt None vd vp
                    (match Cli.given_or_ellipsis tg with
                     | Given s => Given (Some (parse_tags s))
                     | Ellipsis => Ellipsis
                     end) t)
                 = match vp with Given p => p | Ellipsis => priority t end)
    by by destruct vt, vd, vp, tg.
  rewrite Hdue, Hpri.
  split; [|split; [|split; [|split; [|split; [|split; [|split]]]]]].
  - intros Hsome. destruct du as [s|]; simpl in Hd; [|by subst].
    destruct Hd as (d & Hparse & ->). simpl in Hparse.
    destruct (fromisoformat s); [|done]. injection Hparse as <-. by eexists.
  - intros Hsome. destruct pr as [s|]; simpl in Hp; [|by subst].
    destruct Hp as (p & Hval & ->). unfold validate_priority in Hval.
    repeat destruct (String.eqb _ _); try done; injection Hval as <-;
      by eexists.
  - intros ->. simpl in Hd. by subst.
  - intros ->. simpl in Hp. by subst.
  - intros ->. by destruct vt, vd, vp.
  - intros ->. subst vt. by destruct vd, vp, tg.
  - by destruct vt, vd, vp, tg.
  - by destruct vt, vd, vp, tg.
Qed.

(** ** The shell: options and positional arguments *)

Lemma prefix_dash (a : string) :
  startswith "-" a = false → is_long a = false ∧ is_short a = false.
Proof.
  unfold is_long, is_short, startswith. destruct a as [|x a]; [done|].
  cbn [String.prefix].
  destruct (Ascii.ascii_dec "-"%char x) as [Heq|Hne].
  - destruct a; cbn [String.prefix]; discriminate.
  - intros _. split; reflexivity.
Qed.

Lemma long_starts_with_dash (a : string) :
  is_long a = true → startswith "-" a = true.
Proof.
  intros H. destruct (startswith "-" a) eqn:E; [done|].
  apply prefix_dash in E as [E _]. congruence.
Qed.

Lemma positional_sublist (args : list string) :
  Shell._get_non_option_args args `sublist_of` args.
Proof.
  induction args as [args IH] using (induction_ltof1 _ (@length string)).
  unfold ltof in IH. destruct args as [|a rest]; [done|].
  cbn [Shell._get_non_option_args].
  destruct (is_long a).
  - destruct rest as [|v rest']; [by constructor|].
    destruct (negb (startswith "-" v)).
    + do 2 constructor. apply IH. simpl. lia.
    + constructor. apply IH. simpl. lia.
  - destruct (is_short a).
    + constructor. apply IH. simpl. lia.
    + constructor. apply IH. simpl. lia.
Qed.

Lemma positional_not_options (args : list string) :
  Forall (λ a, is_long a = false ∧ is_short a = false)
         (Shell._get_non_option_args args).
Proof.
  induction args as [args IH] using (induction_ltof1 _ (@length string)).
  unfold ltof in IH. destruct args as [|a rest]; [constructor|].
  cbn [Shell._get_non_option_args].
  destruct (is_long a) eqn:El.
  - destruct rest as [|v rest']; [constructor|].
    destruct (negb (startswith "-" v)); apply IH; simpl; lia.
  - destruct (is_short a) eqn:Es.
    + apply IH. simpl. lia.
    + constructor; [done|]. apply IH. simpl. lia.
Qed.

Lemma no_dash_all_positional (args : list string) :
  Forall (λ a, startswith "-" a = false) args →
  Shell._get_non_option_args args = args ∧ Shell._parse_options args = [].
Proof.
  unfold Shell._parse_options.
  induction 1 as [|a rest Ha _ [IH1 IH2]]; [done|].
  apply prefix_dash in Ha as [Hl Hs].
  cbn [Shell._get_non_option_args Shell._parse_options_from].
  rewrite Hl, Hs. by rewrite IH1.
Qed.

(** X21. Positional arguments of a shell command: they are tokens of the
    line in their order, none of them is an option token ([--key], or a
    dash and one character); when no token starts with a dash, every token
    is positional and no option is set. *)
Theorem positional_arguments (args : list string) :
  Shell._get_non_option_args args `sublist_of` args
  ∧ Forall (λ a, is_long a = false ∧ is_short a = false)
           (Shell._get_non_option_args args)
  ∧ (Forall (λ a, startswith "-" a = false) args →
     Shell._get_non_option_args args = args ∧ Shell._parse_options args = []).
Proof.
  split; [apply positional_sublist|].
  split; [apply positional_not_options|apply no_dash_all_positional].
Qed.

Lemma opts_set_Forall (P : string * option string → Prop) k v (o : options) :
  P (k, v) → Forall P o → Forall P (opts_set k v o).
Proof.
  intros Hkv. induction 1 as [|[k' v'] o Hx Ho IH]; simpl.
  - constructor; [done|constructor].
  - destruct (String.eqb k' k); constructor; done.
Qed.

Lemma opts_set_fst k v (o : options) :
  map fst (opts_set k v o)
  = if decide (k ∈ map fst o) then map fst o else map fst o ++ [k].
Proof.
  induction o as [|[k0 v0] o IH]; [done|].
  cbn [opts_set]. destruct (String.eqb_spec k0 k) as [->|Hne]; cbn [map fst].
  - clear IH. rewrite decide_True; [done|by left].
  - rewrite IH. destruct (decide (k ∈ map fst o)) as [Hin|Hin].
    + rewrite decide_True; [done|by right].
    + rewrite decide_False; [done|].
      intros [?|?]%elem_of_cons; congruence.
Qed.

Lemma opts_set_keys k v (o : options) :
  NoDup (map fst o) → NoDup (map fst (opts_set k v o)).
Proof.
  intros Hnd. rewrite opts_set_fst. destruct (decide _); [done|].
  apply NoDup_app. split; [done|]. split; [|apply NoDup_singleton].
  intros x Hx ->%list_elem_of_singleton. done.
Qed.

Lemma from_tokens_mono (a : string) (args : list string) kv :
  from_tokens args kv → from_tokens (a :: args) kv.
Proof.
  intros [Hk (v & Hv & Hd & Hin)]. split.
  - destruct Hk as [(x & ? & ? & ?)|(x & ? & ? & ? & ?)];
      [left|right]; exists x; repeat split; try done; by right.
  - exists v. repeat split; try done. destruct Hin; [by left|right; by right].
Qed.

Lemma parse_options_from (acc : options) (all args : list string) :
  (∀ kv, from_tokens args kv → from_tokens all kv) →
  Forall (from_tokens all) acc → NoDup (map fst acc) →
  Forall (from_tokens all) (Shell._parse_options_from acc args)
  ∧ NoDup (map fst (Shell._parse_options_from acc args)).
Proof.
  revert acc.
  induction args as [args IH] using (induction_ltof1 _ (@length string)).
  unfold ltof in IH. intros acc Hsub Hacc Hnd.
  destruct args as [|a rest]; [done|].
  cbn [Shell._parse_options_from].
  assert (Hrest : ∀ kv, from_tokens rest kv → from_tokens all kv)
    by (intros kv Hkv; by apply Hsub, from_tokens_mono).
  destruct (is_long a) eqn:El.
  - destruct rest as [|v rest'].
    + split; [|by apply opts_set_keys]. apply opts_set_Forall; [|done].
      apply Hsub. split; [left; exists a; repeat split; by try left|].
      exists EmptyString. repeat split; by try left.
    + destruct (startswith "-" v) eqn:Ev; cbn [negb].
      * apply IH; [simpl; lia|done| |by apply opts_set_keys].
        apply opts_set_Forall; [|done].
        apply Hsub. split; [left; exists a; repeat split; by try left|].
        exists EmptyString. repeat split; by try left.
      * apply IH; [simpl; lia| | |by apply opts_set_keys].
        { intros kv Hkv. by apply Hrest, from_tokens_mono. }
        apply opts_set_Forall; [|done].
        apply Hsub. split; [left; exists a; repeat split; by try left|].
        exists v. repeat split; try done. right. right. by left.
  - destruct (is_short a) eqn:Es.
    + apply IH; [simpl; lia|done| |by apply opts_set_keys].
      apply opts_set_Forall; [|done].
      apply Hsub. split; [right; exists a; repeat split; by try left|].
      exists EmptyString. repeat split; by try left.
    + apply IH; [simpl; lia|done..].
Qed.

(** X22. Options of a shell command: in the dictionary [_parse_options]
    builds, each key is the name of an option token of the line, without
    its dashes, each value is the empty string or a token of the line that
    does not start with a dash (a value that starts with a dash is never
    taken), and no key occurs twice. *)
Theorem parsed_options (args : list string) :
  Forall (from_tokens args) (Shell._parse_options args)
  ∧ NoDup (map fst (Shell._parse_options args)).
Proof.
  unfold Shell._parse_options. apply parse_options_from; [done|constructor|].
  apply NoDup_nil_2.
Qed.

(** ** The shell: aliases *)

(** X23. The table of aliases is consistent: an alias never names another
    alias, so resolving twice is resolving once; and every alias names the
    command quit, the command help, or a command the shell has a handler
    for. *)
Theorem aliases_consistent (env : Env) (now : datetime) :
  (∀ cmd, Shell.resolve (Shell.resolve cmd) = Shell.resolve cmd)
  ∧ Forall (λ kv, snd kv = "quit" ∨ snd kv = "help"
                  ∨ is_Some (Shell.handler env now (snd kv)))
           Shell.ALIASES.
Proof.
  split.
  - intros cmd. unfold Shell.resolve at 2 3.
    destruct (List.find _ Shell.ALIASES) as [kv|] eqn:E.
    + apply find_some in E as [Hin _]. simpl in Hin.
      repeat (destruct Hin as [<-|Hin]; [reflexivity|]). done.
    + unfold Shell.resolve. by rewrite E.
  - unfold Shell.ALIASES.
    repeat (constructor; [simpl; auto; right; right; by eexists|]).
    constructor.
Qed.

(** ** The shell: prompts and confirmations *)

Lemma prompt_run (env : Env) (msg : string) (c : Console) (w : World) :
  Shell.prompt env msg c w
  = match input c with
    | [] => (Throw PromptCancelled, prompted env msg c, w)
    | line :: _ => (Return line, prompted env msg c, w)
    end.
Proof.
  unfold Shell.prompt, prompted. rewrite io_bind_run.
  destruct (from_stdin env);
    cbv [Shell.write print]; rewrite io_bind_run; unfold Shell.read_line;
    simpl; by destruct (input c).
Qed.

Lemma confirm_run (env : Env) (msg : string) (c : Console) (w : World) :
  Shell.confirm env msg c w
  = (Return (confirmed c), prompted env (msg +:+ " [y/N]: ") c, w).
Proof.
  unfold Shell.confirm, catch_cancel, confirmed.
  rewrite io_bind_run, prompt_run. by destruct (input c).
Qed.

Lemma parse_id_run (env : Env) (a : string) (rest : list string) (n : Z)
    (c : Console) (w : World) :
  int env a = Some n →
  Shell._parse_id env (a :: rest) c w = (Return (Some n), c, w).
Proof. intros H. unfold Shell._parse_id. by rewrite H. Qed.

(** ** The shell: deleting *)

(** X24. The shell deletes only on demand: [delete] with an id that exists
    and no [-f] or [--force] asks for confirmation and reads one line; the
    task is deleted when that line, stripped and in lower case, is y or yes,
    and otherwise (another answer, or the end of the input) the world is
    left as it is and [Cancelled.] is written.  With [-f] or [--force] the
    task is deleted and no input is read.  An id that does not exist is
    reported before any question is asked. *)
Theorem shell_delete_confirms (env : Env) (a : string) (rest : list string)
    (task_id : Z) (c : Console) (w : World) :
  int env a = Some task_id →
  (dict_get task_id (_tasks (repo w)) = None →
   Shell.cmd_delete env (a :: rest) c w
   = (Throw (Domain (TaskNotFoundError task_id)), c, w))
  ∧ (∀ task t,
       dict_get task_id (_tasks (repo w)) = Some task →
       objects w !! task = Some t →
       ∃ c',
         Shell.cmd_delete env (a :: rest) c w
         = (Return tt, c',
            if Shell.forced (Shell._parse_options rest) || confirmed c
            then snd (delete task_id w) else w)
         ∧ input c' = (if Shell.forced (Shell._parse_options rest)
                       then input c else tail (input c))
         ∧ (Shell.forced (Shell._parse_options rest) || confirmed c = false →
            ∃ question,
              output c' = output c ++ [question; "Cancelled." +:+ newline])).
Proof.
  intros Hint. unfold Shell.cmd_delete.
  rewrite io_bind_run, (parse_id_run env a rest task_id) by done.
  cbn [tail]. rewrite io_bind_run, call_service_run.
  unfold get_task. rewrite get_run. split.
  - by intros ->.
  - intros task t Hg Ht. rewrite Hg.
    rewrite io_bind_run, (look_run task t) by done.
    rewrite io_bind_run.
    assert (Hdel : delete task_id w = (Ok tt, snd (delete task_id w))).
    { rewrite delete_run. unfold dict_mem. by rewrite Hg. }
    destruct (Shell.forced (Shell._parse_options rest)).
    + simpl. unfold delete_task.
      rewrite io_bind_run, call_service_run, Hdel, print_run.
      eexists. split; [done|]. by split.
    + rewrite confirm_run. simpl. destruct (confirmed c) eqn:Hyes.
      * unfold delete_task.
        rewrite io_bind_run, call_service_run, Hdel, print_run.
        eexists. split; [done|]. by split.
      * rewrite print_run. eexists. split; [done|]. split; [done|].
        intros _. eexists. simpl. by rewrite <- app_assoc.
Qed.

(** ** The shell: the guided update *)

Lemma opts_has_set k k' v (o : options) :
  opts_has k (opts_set k' v o) = String.eqb k' k || opts_has k o.
Proof.
  unfold opts_has. induction o as [|[k0 v0] o IH]; simpl.
  - by rewrite orb_false_r.
  - destruct (String.eqb_spec k0 k') as [->|Hne]; simpl.
    + destruct (String.eqb k' k); simpl; [done|done].
    + rewrite IH. destruct (String.eqb_spec k0 k) as [->|Hne'];
        destruct (String.eqb_spec k' k) as [->|Hne'']; simpl; try done.
Qed.

Lemma opts_get_set k k' v (o : options) :
  opts_get k (opts_set k' v o)
  = if String.eqb k' k then v else opts_get k o.
Proof.
  unfold opts_get. induction o as [|[k0 v0] o IH]; simpl.
  - by destruct (String.eqb k' k).
  - destruct (String.eqb_spec k0 k') as [->|Hne]; simpl.
    + by destruct (String.eqb k' k).
    + destruct (String.eqb_spec k0 k) as [->|Hne'].
      * destruct (String.eqb_spec k' k) as [->|Hne'']; [done|done].
      * apply IH.
Qed.

Lemma opts_arg_set k k' v (o : options) :
  Shell.opts_arg k (opts_set k' v o)
  = if String.eqb k' k then Given v else Shell.opts_arg k o.
Proof.
  unfold Shell.opts_arg. rewrite opts_has_set, opts_get_set.
  by destruct (String.eqb k' k).
Qed.

Lemma guided_lookups (t : Task) (a1 a2 a3 a4 : string) :
  opts_get "title" (Shell.guided t a1 a2 a3 a4 []) = answer_title a1
  ∧ Shell.opts_arg "due" (Shell.guided t a1 a2 a3 a4 [])
    = answer_arg None (has_due t) a2
  ∧ Shell.opts_arg "priority" (Shell.guided t a1 a2 a3 a4 [])
    = answer_arg None (has_priority_set t) a3
  ∧ Shell.opts_arg "tag" (Shell.guided t a1 a2 a3 a4 [])
    = answer_arg (Some EmptyString) (has_tags t) a4.
Proof.
  unfold Shell.guided, answer_arg, answer_title, has_due, has_priority_set,
    has_tags.
  destruct (String.eqb_spec a2 EmptyString) as [->|_];
    [|destruct (String.eqb a2 "none"), (due_date t)];
    (destruct (String.eqb_spec a3 EmptyString) as [->|_];
     [|destruct (String.eqb a3 "none"), (priority t)]);
    (destruct (String.eqb_spec a4 EmptyString) as [->|_];
     [|destruct (String.eqb a4 "none"), (tags t)]);
    cbn [negb andb String.eqb];
    rewrite ?opts_get_set, ?opts_arg_set; cbn [String.eqb Ascii.eqb Bool.eqb];
    repeat split; reflexivity.
Qed.

Lemma guided_update_run (env : Env) (a : string) (task_id : Z) (task : nat)
    (t : Task) (l1 l2 l3 l4 : string) (rest : list string) (c : Console)
    (w : World) :
  int env a = Some task_id →
  dict_get task_id (_tasks (repo w)) = Some task →
  objects w !! task = Some t →
  input c = l1 :: l2 :: l3 :: l4 :: rest →
  ∃ c4,
    input c4 = rest ∧ errors c4 = errors c
    ∧ Shell.cmd_update env [a] c w
      = (ref ← call_service
                 (update_task task_id (answer_title (strip l1))
                    (answer_arg None (has_due t) (strip l2))
                    (answer_arg None (has_priority_set t) (strip l3))
                    (answer_arg (Some EmptyString) (has_tags t) (strip l4)));
         updated_task ← look ref;
         print ("Updated task " +:+ str_int (id updated_task) +:+ ": "
                +:+ title updated_task)) c4 w.
Proof.
  intros Hint Hget Hobj Hin. destruct c as [inp out err]. simpl in Hin.
  subst inp. unfold Shell.cmd_update.
  rewrite io_bind_run, (parse_id_run env a [] task_id) by done.
  cbn [tail]. change (Shell._parse_options []) with (@nil (string * option string)).
  cbn [existsb opts_has orb].
  rewrite io_bind_run, io_bind_run, call_service_run.
  unfold get_task. rewrite get_run, Hget.
  rewrite io_bind_run, (look_run task t) by done.
  rewrite io_bind_run, print_run.
  rewrite io_bind_run, prompt_run. cbn [input printed prompted tail].
  rewrite io_bind_run, prompt_run. cbn [input printed prompted tail].
  rewrite io_bind_run, prompt_run. cbn [input printed prompted tail].
  rewrite io_bind_run, prompt_run. cbn [input printed prompted tail].
  destruct (guided_lookups t (strip l1) (strip l2) (strip l3) (strip l4))
    as (E1 & E2 & E3 & E4).
  eexists. split; [|split]; cycle 2.
  - unfold mret at 1, IO_ret at 1. cbv beta iota.
    rewrite E1, E2, E3, E4. reflexivity.
  - reflexivity.
  - reflexivity.
Qed.

Lemma update_nothing (task_id : Z) (task : nat) (t : Task) (w : World) :
  dict_get task_id (_tasks (repo w)) = Some task →
  objects w !! task = Some t →
  update_task task_id None Ellipsis Ellipsis Ellipsis w = (Ok task, w).
Proof.
  intros Hget Hobj. rewrite (update_task_run task_id w Ellipsis).
  rewrite update_run, Hget, Hobj. simpl.
  by rewrite insert_same, set_objects_same.
Qed.

(** X25. A guided update answered with blank lines changes nothing: [update]
    with an id that exists and no option prompts for the title, the due
    date, the priority and the tags; when the four answers are empty or
    whitespace, the world is left exactly as it was. *)
Theorem guided_update_blank (env : Env) (a : string) (task_id : Z) (task : nat)
    (t : Task) (l1 l2 l3 l4 : string) (rest : list string) (c : Console)
    (w : World) :
  int env a = Some task_id →
  dict_get task_id (_tasks (repo w)) = Some task →
  objects w !! task = Some t →
  input c = l1 :: l2 :: l3 :: l4 :: rest →
  all_space l1 = true → all_space l2 = true →
  all_space l3 = true → all_space l4 = true →
  ∃ c', Shell.cmd_update env [a] c w = (Return tt, c', w) ∧ input c' = rest.
Proof.
  intros Hint Hget Hobj Hin H1%strip_empty H2%strip_empty H3%strip_empty
    H4%strip_empty.
  destruct (guided_update_run env a task_id task t l1 l2 l3 l4 rest c w)
    as (c4 & Hc4 & _ & ->); [done..|].
  rewrite H1, H2, H3, H4.
  change (answer_title EmptyString) with (@None string).
  change (answer_arg None (has_due t) EmptyString)
    with (@Ellipsis (option string)).
  change (answer_arg None (has_priority_set t) EmptyString)
    with (@Ellipsis (option string)).
  change (answer_arg (Some EmptyString) (has_tags t) EmptyString)
    with (@Ellipsis (option string)).
  rewrite io_bind_run, call_service_run, (update_nothing task_id task t) by done.
  rewrite io_bind_run, (look_run task t), print_run by done.
  by eexists.
Qed.

(** X26. In a guided update the answer [none] means no value: when the
    update succeeds, a field answered [none] is empty afterwards (the due
    date and the priority absent, the tags the empty list, so that a single
    tag named none cannot be given this way), a field answered with a blank
    line is as it was, and the status is as it was. *)
Theorem guided_update_none (env : Env) (a : string) (task_id : Z) (task : nat)
    (t : Task) (l1 l2 l3 l4 : string) (rest : list string) (c c' : Console)
    (w w' : World) :
  int env a = Some task_id →
  dict_get task_id (_tasks (repo w)) = Some task →
  objects w !! task = Some t →
  input c = l1 :: l2 :: l3 :: l4 :: rest →
  Shell.cmd_update env [a] c w = (Return tt, c', w') →
  ∃ t', objects w' !! task = Some t'
        ∧ (strip l2 = "none" → due_date t' = None)
        ∧ (strip l3 = "none" → priority t' = None)
        ∧ (strip l4 = "none" → tags t' = [])
        ∧ (all_space l1 = true → title t' = title t)
        ∧ (all_space l2 = true → due_date t' = due_date t)
        ∧ (all_space l3 = true → priority t' = priority t)
        ∧ (all_space l4 = true → tags t' = tags t)
        ∧ status t' = status t ∧ id t' = id t.
Proof.
  intros Hint Hget Hobj Hin.
  destruct (guided_update_run env a task_id task t l1 l2 l3 l4 rest c w)
    as (c4 & Hc4 & _ & ->); [done..|].
  rewrite io_bind_run, call_service_run.
  destruct (update_task_validated task_id (answer_title (strip l1))
              (answer_arg None (has_due t) (strip l2))
              (answer_arg None (has_priority_set t) (strip l3))
              (answer_arg (Some EmptyString) (has_tags t) (strip l4)) w)
    as [[e ->]|(vt & vd & vp & -> & Ht & Hd & Hp)]; [done|].
  rewrite update_run, Hget, Hobj, io_bind_run.
  erewrite look_run
    by (simpl; apply list_lookup_insert_eq; by eapply lookup_lt_Some).
  rewrite print_run. intros [= _ <-]. simpl.
  eexists. split.
  { apply list_lookup_insert_eq. by eapply lookup_lt_Some. }
  set (vtg := match answer_arg (Some EmptyString) (has_tags t) (strip l4) with
              | Given s => Given (Some (parse_tags s))
              | Ellipsis => Ellipsis
              end).
  assert (Edue : due_date (assign vt None vd vp vtg t)
                 = match vd with Given d => d | Ellipsis => due_date t end)
    by by destruct vt, vd, vp, vtg.
  assert (Epri : priority (assign vt None vd vp vtg t)
                 = match vp with Given p => p | Ellipsis => priority t end)
    by by destruct vt, vd, vp, vtg.
  assert (Etag : tags (assign vt None vd vp vtg t)
                 = match vtg with Given l => or_empty l | Ellipsis => tags t end)
    by by destruct vt, vd, vp, vtg.
  assert (Etit : title (assign vt None vd vp vtg t)
                 = match vt with Some s => s | None => title t end)
    by by destruct vt, vd, vp, vtg.
  rewrite Edue, Epri, Etag, Etit.
  split; [|split; [|split; [|split; [|split; [|split; [|split; [|split]]]]]]].
  - intros E. rewrite E in Hd. unfold answer_arg, has_due in Hd. simpl in Hd.
    destruct (due_date t); simpl in Hd.
    + destruct Hd as (d0 & [= <-] & ->). done.
    + by subst vd.
  - intros E. rewrite E in Hp. unfold answer_arg, has_priority_set in Hp.
    simpl in Hp. destruct (priority t); simpl in Hp.
    + destruct Hp as (p0 & [= <-] & ->). done.
    + by subst vp.
  - intros E. unfold vtg. rewrite E. unfold answer_arg, has_tags. simpl.
    by destruct (tags t).
  - intros E%strip_empty. rewrite E in Ht. simpl in Ht. by subst vt.
  - intros E%strip_empty. rewrite E in Hd. simpl in Hd. by subst vd.
  - intros E%strip_empty. rewrite E in Hp. simpl in Hp. by subst vp.
  - intros E%strip_empty. unfold vtg. by rewrite E.
  - by destruct vt, vd, vp, vtg.
  - by destruct vt, vd, vp, vtg.
Qed.

(** ** The shell: failure leaves the store alone *)

Create HintDb shell.

Lemma same_store_refl (w : World) : same_store w w.
Proof. by split. Qed.

Lemma same_store_trans (w1 w2 w3 : World) :
  same_store w1 w2 → same_store w2 w3 → same_store w1 w3.
Proof. intros [? ?] [? ?]. split; congruence. Qed.

Lemma harmless_ret {A : Type} (a : A) : harmless (mret a : IO A).
Proof. intros c w r c' w' [= _ _ <-]. apply same_store_refl. Qed.

Lemma nothrow_ret {A : Type} (a : A) : nothrow (mret a : IO A).
Proof. by intros c w s c' w'. Qed.

Lemma harmless_print (msg : string) : harmless (print msg).
Proof. intros c w r c' w' [= _ _ <-]. apply same_store_refl. Qed.

Lemma nothrow_print (msg : string) : nothrow (print msg).
Proof. by intros c w s c' w'. Qed.

Lemma harmless_throw {A : Type} (s : signal) : harmless (throw s : IO A).
Proof. intros c w r c' w' [= _ _ <-]. apply same_store_refl. Qed.

Lemma harmless_bind {A B : Type} (m : IO A) (k : A → IO B) :
  harmless m → (∀ a, harmless (k a)) → harmless (m ≫= k).
Proof.
  intros Hm Hk c w r c' w'. rewrite io_bind_run.
  destruct (m c w) as [[[a|s|] c1] w1] eqn:E; apply Hm in E.
  - intros H%Hk. by eapply same_store_trans.
  - by intros [= _ _ <-].
  - by intros [= _ _ <-].
Qed.

Lemma nothrow_bind {A B : Type} (m : IO A) (k : A → IO B) :
  nothrow m → (∀ a, nothrow (k a)) → nothrow (m ≫= k).
Proof.
  intros Hm Hk c w s c' w'. rewrite io_bind_run.
  destruct (m c w) as [[[a|s'|] c1] w1] eqn:E.
  - apply Hk.
  - by apply Hm in E.
  - done.
Qed.

Lemma harmless_atomic {A : Type} (m : IO A) : harmless m → io_atomic m.
Proof. intros H c w s c' w'. apply H. Qed.

Lemma nothrow_atomic {A : Type} (m : IO A) : nothrow m → io_atomic m.
Proof. intros H c w s c' w' E. by apply H in E. Qed.

Lemma atomic_after_harmless {A B : Type} (m : IO A) (k : A → IO B) :
  harmless m → (∀ a, io_atomic (k a)) → io_atomic (m ≫= k).
Proof.
  intros Hm Hk c w s c' w'. rewrite io_bind_run.
  destruct (m c w) as [[[a|s'|] c1] w1] eqn:E; apply Hm in E.
  - intros H%Hk. by eapply same_store_trans.
  - by intros [= _ _ <-].
  - done.
Qed.

Lemma atomic_before_nothrow {A B : Type} (m : IO A) (k : A → IO B) :
  io_atomic m → (∀ a, nothrow (k a)) → io_atomic (m ≫= k).
Proof.
  intros Hm Hk c w s c' w'. rewrite io_bind_run.
  destruct (m c w) as [[[a|s'|] c1] w1] eqn:E.
  - intros H. by apply Hk in H.
  - intros [= <- <- <-]. by apply Hm in E.
  - done.
Qed.

Lemma harmless_service {A : Type} (m : M A) :
  pure m → harmless (call_service m).
Proof.
  intros Hm c w r c' w'. rewrite call_service_run.
  destruct (m w) as [[a|e|] w1] eqn:E; apply Hm in E as ->;
    intros [= _ _ <-]; apply same_store_refl.
Qed.

Lemma atomic_service {A : Type} (m : M A) :
  atomic m → io_atomic (call_service m).
Proof.
  intros Hm c w s c' w'. rewrite call_service_run.
  destruct (m w) as [[a|e|] w1] eqn:E; [done| |done].
  apply Hm in E as ->. intros [= _ _ <-]. apply same_store_refl.
Qed.

Lemma nothrow_service {A : Type} (m : M A) :
  quiet m → nothrow (call_service m).
Proof.
  intros Hm c w s c' w'. rewrite call_service_run.
  destruct (m w) as [[a|e|] w1] eqn:E; [done| |done]. by apply Hm in E.
Qed.

Lemma pure_get (task_id : Z) : pure (get task_id).
Proof.
  intros w r w'. rewrite get_run. destruct (dict_get _ _); by intros [= _ <-].
Qed.

Lemma pure_read_task (l : nat) : pure (read_task l).
Proof. intros w r w'. unfold read_task. destruct (_ !! _); by intros [= _ <-]. Qed.

Lemma pure_read_list (l : nat) : pure (read_list l).
Proof. intros w r w'. unfold read_list. destruct (_ !! _); by intros [= _ <-]. Qed.

Lemma pure_read_tasks (ls : list nat) : pure (read_tasks ls).
Proof. intros w r w'. unfold read_tasks. destruct (mapM _ _); by intros [= _ <-]. Qed.

Lemma quiet_read_task (l : nat) : quiet (read_task l).
Proof. intros w e w'. unfold read_task. by destruct (_ !! _). Qed.

Lemma quiet_clear_done : quiet clear_done.
Proof. intros w e w'. rewrite clear_done_run. by destruct (items _ _). Qed.

Lemma harmless_list_tasks status tag sort :
  harmless (call_service (list_tasks status tag sort)).
Proof.
  intros c w r c' w'. rewrite call_service_run. unfold list_tasks.
  rewrite list_all_run. destruct (items _ _); intros [= _ _ <-];
    by split.
Qed.

Lemma harmless_look (l : nat) : harmless (look l).
Proof. apply harmless_service, pure_read_task. Qed.

Lemma nothrow_look (l : nat) : nothrow (look l).
Proof. apply nothrow_service, quiet_read_task. Qed.

Lemma harmless_look_all (ll : nat) : harmless (look_all ll).
Proof.
  apply harmless_service, pure_bind; [apply pure_read_list|].
  intros l. apply pure_read_tasks.
Qed.

Lemma harmless_prompt (env : Env) (msg : string) : harmless (Shell.prompt env msg).
Proof.
  intros c w r c' w'. rewrite prompt_run.
  destruct (input c); intros [= _ _ <-]; apply same_store_refl.
Qed.

Lemma harmless_confirm (env : Env) (msg : string) :
  harmless (Shell.confirm env msg).
Proof.
  intros c w r c' w'. rewrite confirm_run. intros [= _ _ <-].
  apply same_store_refl.
Qed.

Lemma nothrow_confirm (env : Env) (msg : string) :
  nothrow (Shell.confirm env msg).
Proof. intros c w s c' w'. by rewrite confirm_run. Qed.

Lemma harmless_parse_id (env : Env) (args : list string) :
  harmless (Shell._parse_id env args).
Proof.
  unfold Shell._parse_id. destruct args as [|a rest].
  - apply harmless_bind; [apply harmless_print|]. intros _. apply harmless_ret.
  - destruct (int env a); [apply harmless_ret|].
    apply harmless_bind; [apply harmless_print|]. intros _. apply harmless_ret.
Qed.

#[local] Hint Resolve harmless_ret nothrow_ret harmless_print nothrow_print
  harmless_throw harmless_look nothrow_look harmless_look_all harmless_prompt
  harmless_confirm nothrow_confirm harmless_parse_id harmless_list_tasks
  pure_get pure_read_list atomic_add_task atomic_update_task atomic_update
  atomic_delete quiet_clear_done : shell.

#[local] Hint Resolve harmless_bind nothrow_bind harmless_service
  atomic_service nothrow_service harmless_atomic : shell.

(** A handler of the shape: read and ask, then one call of the service,
    then report. *)
Lemma atomic_report {A : Type} (m : M A) (k : A → IO unit) :
  atomic m → (∀ a, nothrow (k a)) → io_atomic (call_service m ≫= k).
Proof.
  intros Hm Hk. apply atomic_before_nothrow; [by apply atomic_service|done].
Qed.

Lemma atomic_cmd_add env now args : io_atomic (Shell.cmd_add env now args).
Proof.
  unfold Shell.cmd_add. apply atomic_after_harmless.
  - destruct (Shell._get_non_option_args args); [|auto with shell].
    apply harmless_bind; [auto with shell|]. intros answer.
    destruct (String.eqb _ _); auto with shell.
  - intros t. apply atomic_report; [apply atomic_add_task|].
    intros ref. auto with shell.
Qed.

Lemma harmless_cmd_list args : harmless (Shell.cmd_list args).
Proof.
  unfold Shell.cmd_list. destruct (Shell.status_of _); [|auto with shell].
  destruct (Shell.sort_of _); auto 6 with shell.
Qed.

Lemma harmless_cmd_show env args : harmless (Shell.cmd_show env args).
Proof.
  unfold Shell.cmd_show. apply harmless_bind; [auto with shell|].
  intros [task_id|]; [|auto with shell]. unfold get_task.
  auto 8 with shell.
Qed.

Lemma atomic_transition env args (m : Z → M nat) (f : Task → string) :
  (∀ i, atomic (m i)) →
  io_atomic (parsed ← Shell._parse_id env args;
             match parsed with
             | None => mret tt
             | Some task_id =>
                 ref ← call_service (m task_id);
                 task ← look ref;
                 print (f task)
             end).
Proof.
  intros Hm. apply atomic_after_harmless; [auto with shell|].
  intros [task_id|]; [|auto with shell].
  apply atomic_report; [done|]. intros ref. auto with shell.
Qed.

Lemma atomic_cmd_update env args : io_atomic (Shell.cmd_update env args).
Proof.
  unfold Shell.cmd_update. apply atomic_after_harmless; [auto with shell|].
  intros [task_id|]; [|auto with shell].
  apply atomic_after_harmless.
  - destruct (existsb _ _); [auto with shell|]. unfold get_task.
    repeat (apply harmless_bind; [auto with shell|]; intros ?).
    auto with shell.
  - intros opts. apply atomic_report; [apply atomic_update_task|].
    intros ref. auto with shell.
Qed.

Lemma atomic_cmd_delete env args : io_atomic (Shell.cmd_delete env args).
Proof.
  unfold Shell.cmd_delete. apply atomic_after_harmless; [auto with shell|].
  intros [task_id|]; [|auto with shell]. unfold get_task.
  apply atomic_after_harmless; [auto with shell|]. intros ref.
  apply atomic_after_harmless; [auto with shell|]. intros task.
  apply atomic_after_harmless.
  - destruct (Shell.forced _); auto with shell.
  - intros [|]; [|auto with shell].
    apply atomic_report; [apply atomic_delete|]. auto with shell.
Qed.

Lemma atomic_cmd_clear env args : io_atomic (Shell.cmd_clear env args).
Proof.
  unfold Shell.cmd_clear. apply atomic_after_harmless; [auto with shell|].
  intros ll. apply atomic_after_harmless; [auto with shell|]. intros elems.
  destruct (_ =? _); [auto with shell|].
  apply atomic_after_harmless.
  - destruct (Shell.forced _); auto with shell.
  - intros [|]; [|auto with shell]. apply nothrow_atomic.
    unfold service_clear_done. auto with shell.
Qed.

(** X27. Shell commands are atomic on failure: when the handler of a
    command raises, for a validation error, a task not found, or a prompt
    cancelled at the end of the input, it has changed no task, and neither
    the dictionary nor the counter. *)
Theorem shell_failure_is_atomic (env : Env) (now : datetime) (cmd : string)
    (h : list string → IO unit) (args : list string) (c c' : Console)
    (w w' : World) (s : signal) :
  Shell.handler env now cmd = Some h →
  h args c w = (Throw s, c', w') →
  objects w' = objects w ∧ repo w' = repo w.
Proof.
  unfold Shell.handler. intros Hh Hrun.
  assert (io_atomic (h args)) as Hat; [|by apply Hat in Hrun].
  clear Hrun.
  repeat (destruct (String.eqb cmd _);
          [injection Hh as <-;
           first [ apply atomic_cmd_add
                 | apply harmless_atomic, harmless_cmd_list
                 | apply harmless_atomic, harmless_cmd_show
                 | apply atomic_transition; intros i; apply atomic_update
                 | apply atomic_cmd_update
                 | apply atomic_cmd_delete
                 | apply atomic_cmd_clear ] |]).
  done.
Qed.

(** ** The shell: clearing *)

Lemma done_listing_length (os : list Task) (d : dict) its :
  items os d = Some its →
  length (select (only Done) None sort_created (map snd its))
  = length (List.filter (entry_done os) d).
Proof.
  intros Hits. rewrite select_passes, sort_tasks_perm.
  transitivity (length (done_ids its)).
  - unfold done_ids. rewrite length_map.
    rewrite <- (length_map snd (List.filter is_done its)).
    f_equal. rewrite <- filter_map_snd. f_equal.
    apply List.filter_ext. intros [k [l t]]. unfold passes, is_done. simpl.
    by rewrite andb_true_r.
  - rewrite (done_ids_entries _ _ _ Hits). unfold keys. by rewrite length_map.
Qed.

(** X28. The shell clears only on demand: [clear] with no done task removes
    nothing and reads no input; with done tasks and no [-f] or [--force] it
    reads one line and clears the done tasks when that line, stripped and
    in lower case, is y or yes, and otherwise leaves the dictionary as it
    is; with [-f] or [--force] it clears them and reads no input.  No task
    object is touched. *)
Theorem shell_clear_confirms (env : Env) (args : list string) (c : Console)
    (w : World) :
  wf w →
  ∃ c' w',
    Shell.cmd_clear env args c w = (Return tt, c', w')
    ∧ objects w' = objects w
    ∧ repo w'
      = (if negb (length (List.filter (entry_done (objects w))
                                      (_tasks (repo w))) =? 0)%nat
            && (Shell.forced (Shell._parse_options args) || confirmed c)
         then repo (snd (clear_done w)) else repo w)
    ∧ input c'
      = (if negb (length (List.filter (entry_done (objects w))
                                      (_tasks (repo w))) =? 0)%nat
            && negb (Shell.forced (Shell._parse_options args))
         then tail (input c) else input c).
Proof.
  intros Hwf. destruct (wf_items w Hwf) as [its Hits].
  unfold Shell.cmd_clear.
  rewrite io_bind_run, call_service_run. unfold list_tasks.
  rewrite list_all_run, Hits.
  rewrite io_bind_run, call_service_run. unfold read_list.
  cbn [lists set_lists].
  rewrite list_lookup_middle by done.
  rewrite length_map, (done_listing_length _ _ _ Hits).
  set (n := length (List.filter _ _)).
  destruct (Nat.eqb_spec n 0) as [E|E].
  { rewrite E. simpl. rewrite print_run. by eexists _, _. }
  replace (Z.of_nat n =? 0) with false by (symmetry; apply Z.eqb_neq; lia).
  rewrite io_bind_run. cbn [negb andb].
  assert (Hclear : ∀ c1,
    (cleared ← call_service service_clear_done;
     print ("Cleared " +:+ str_int cleared +:+ " completed task(s)")) c1
      (set_lists (lists w ++ [map fst (select (only Done) None sort_created
                                         (map snd its))]) w)
    = (Return tt,
       printed ("Cleared " +:+ str_int (Z.of_nat (length (done_ids its)))
                +:+ " completed task(s)") c1,
       set_lists (lists w ++ [map fst (select (only Done) None sort_created
                                         (map snd its))])
                 (snd (clear_done w)))).
  { intros c1. unfold service_clear_done.
    rewrite io_bind_run, call_service_run, !clear_done_run. simpl.
    rewrite Hits. by rewrite print_run. }
  assert (Hobj : objects (snd (clear_done w)) = objects w)
    by by rewrite clear_done_run, Hits.
  destruct (Shell.forced (Shell._parse_options args)).
  - simpl. rewrite Hclear. eexists _, _. split; [done|]. by split.
  - rewrite confirm_run. simpl. destruct (confirmed c).
    + rewrite Hclear. eexists _, _. split; [done|]. by split.
    + rewrite print_run. by eexists _, _.
Qed.

(** ** The shell: one line *)

(** X29. [execute] never raises: what a handler raises is caught and
    reported.  It asks to leave exactly for the commands quit and exit
    (the alias q among them), after which the world and the input are
    untouched; a line that cannot be split, an empty line and an unknown
    command likewise change neither the world nor the input. *)
Theorem execute_reports (env : Env) (now : datetime) (line : string)
    (c c' : Console) (w w' : World) (r : result bool) :
  Shell.execute env now line c w = (r, c', w') →
  (∀ s, r ≠ Throw s)
  ∧ (r = Return true
     ↔ ∃ first args, shlex_split env line = inr (first :: args)
                     ∧ (Shell.resolve (lower first) = "quit"
                        ∨ Shell.resolve (lower first) = "exit"))
  ∧ (r = Return true → w' = w ∧ input c' = input c)
  ∧ ((∀ first args, shlex_split env line = inr (first :: args) →
        Shell.handler env now (Shell.resolve (lower first)) = None) →
     w' = w ∧ input c' = input c).
Proof.
  unfold Shell.execute.
  destruct (shlex_split env line) as [e|[|first args]] eqn:Hsplit.
  - rewrite io_bind_run, print_run. intros [= <- <- <-].
    split; [done|]. split; [|done]. split; [done|]. by intros (? & ? & ? & _).
  - intros [= <- <- <-].
    split; [done|]. split; [|done]. split; [done|]. by intros (? & ? & ? & _).
  - destruct (String.eqb_spec (Shell.resolve (lower first)) "quit") as [Eq|Nq];
      [|destruct (String.eqb_spec (Shell.resolve (lower first)) "exit")
          as [Ee|Ne]]; cbn [orb].
    + rewrite io_bind_run, print_run. intros [= <- <- <-].
      split; [done|]. split; [|done]. split; [|done]. intros _.
      exists first, args. by split; [|left].
    + rewrite io_bind_run, print_run. intros [= <- <- <-].
      split; [done|]. split; [|done]. split; [|done]. intros _.
      exists first, args. by split; [|right].
    + assert (Hno : ¬ ∃ first0 args0,
                (inr (first :: args) : string + list string)
                = inr (first0 :: args0)
                ∧ (Shell.resolve (lower first0) = "quit"
                   ∨ Shell.resolve (lower first0) = "exit")).
      { intros (f0 & a0 & [= <- <-] & [?|?]); done. }
      destruct (String.eqb _ "help").
      { rewrite io_bind_run, print_run. intros [= <- <- <-].
        split; [done|]. split; [by split|]. split; [done|]. done. }
      destruct (Shell.handler env now _) as [h|] eqn:Hh.
      * rewrite io_bind_run. unfold catch_cancel, catch_domain.
        destruct (h args c w) as [[[[]|[e|]|] c1] w1];
          rewrite ?print_run; intros [= <- <- <-];
          (split; [done|]); (split; [by split|]); (split; [done|]);
          intros H; by rewrite (H first args) in Hh.
      * rewrite io_bind_run, print_run. intros [= <- <- <-].
        split; [done|]. split; [by split|]. done.
Qed.

(* ================================================================== *)
(** * The further properties at concrete states *)

Lemma validate_title_normalises_witness :
  validate_title "  Buy milk " = Ok "Buy milk"
  ∧ "Buy milk" ≠ EmptyString
  ∧ trimmed "Buy milk"
  ∧ (∃ pre post, "  Buy milk " = pre +:+ "Buy milk" +:+ post
                 ∧ all_space pre = true ∧ all_space post = true)
  ∧ validate_title "Buy milk" = Ok "Buy milk".
Proof.
  split; [reflexivity|].
  apply (validate_title_normalises "  Buy milk " "Buy milk"). reflexivity.
Defined.

Lemma add_then_get_witness :
  wf sample
  ∧ ∃ task w1,
      add "Third" 9 None (Some Med) None sample = (Ok task, w1)
      ∧ get 4 w1 = (Ok task, w1)
      ∧ fetch 4 w1 = (Ok (mkTask 4 "Third" Open 9 None (Some Med) []), w1)
      ∧ ∀ k, k ≠ 4 → fst (fetch k w1) = fst (fetch k sample).
Proof.
  split; [compute_done|].
  apply (add_then_get sample "Third" 9 None (Some Med) None). compute_done.
Defined.

Lemma delete_then_get_witness :
  dict_get 2 (_tasks (repo sample)) = Some 1%nat
  ∧ ∃ w1,
      delete 2 sample = (Ok tt, w1)
      ∧ get 2 w1 = (Raise (TaskNotFoundError 2), w1)
      ∧ delete 2 w1 = (Raise (TaskNotFoundError 2), w1)
      ∧ (∀ k, k ≠ 2 → fst (get k w1) = fst (get k sample))
      ∧ objects w1 = objects sample
      ∧ _next_id (repo w1) = _next_id (repo sample).
Proof.
  split; [reflexivity|].
  apply (delete_then_get sample 2 1%nat). reflexivity.
Defined.

Lemma clear_done_twice_witness :
  wf sample
  ∧ ∃ n w1, clear_done sample = (Ok n, w1) ∧ clear_done w1 = (Ok 0, w1).
Proof.
  split; [compute_done|]. apply (clear_done_twice sample). compute_done.
Defined.

Lemma list_sorted_by_created_witness :
  wf sample
  ∧ ∃ ts w',
      listing (only Open) None sort_created sample = (Ok ts, w')
      ∧ StronglySorted created_then_id ts
      ∧ ts ≡ₚ List.filter (passes (only Open) None) (stored_tasks sample).
Proof.
  split; [compute_done|].
  apply (list_sorted_by_created sample (only Open) None). compute_done.
Defined.

Lemma list_status_partition_witness :
  wf sample
  ∧ ∃ ts_all ts_open ts_done w1 w2 w3,
      listing any_status None sort_due sample = (Ok ts_all, w1)
      ∧ listing (only Open) None sort_due sample = (Ok ts_open, w2)
      ∧ listing (only Done) None sort_due sample = (Ok ts_done, w3)
      ∧ Forall (λ t, status t = Open) ts_open
      ∧ Forall (λ t, status t = Done) ts_done
      ∧ ts_open ++ ts_done ≡ₚ ts_all.
Proof.
  split; [compute_done|].
  apply (list_status_partition sample None sort_due). compute_done.
Defined.

Lemma list_tag_filter_witness :
  wf sample
  ∧ ∃ ts w',
      listing any_status (Some "A") sort_created sample = (Ok ts, w')
      ∧ (∀ t, t ∈ ts ↔ t ∈ stored_tasks sample
                        ∧ passes any_status None t = true ∧ tagged "A" t)
      ∧ ∀ tag', lower tag' = lower "A" →
                listing any_status (Some tag') sort_created sample
                = (Ok ts, w').
Proof.
  split; [compute_done|].
  apply (list_tag_filter sample any_status "A" sort_created). compute_done.
Defined.

Lemma update_touches_one_task_witness :
  NoDup (values (_tasks (repo sample)))
  ∧ dict_get 2 (_tasks (repo sample)) = Some 1%nat
  ∧ is_Some (objects sample !! 1%nat)
  ∧ dict_get 3 (_tasks (repo sample)) = Some 2%nat
  ∧ 3 ≠ 2
  ∧ ∃ w1,
      update 2 (Some "Sooner") (Some Open) (Given None) Ellipsis Ellipsis sample
      = (Ok 1%nat, w1)
      ∧ repo w1 = repo sample
      ∧ lists w1 = lists sample
      ∧ objects w1 !! 2%nat = objects sample !! 2%nat
      ∧ fst (fetch 3 w1) = fst (fetch 3 sample).
Proof.
  split; [compute_done|]. split; [reflexivity|]. split; [compute_done|].
  split; [reflexivity|]. split; [lia|].
  apply (update_touches_one_task sample 2 3 1%nat 2%nat (Some "Sooner")
           (Some Open) (Given None) Ellipsis Ellipsis);
    [compute_done|reflexivity|compute_done|reflexivity|lia].
Defined.

Lemma identity_is_immutable_witness :
  objects sample !! 1%nat
  = Some (mkTask 2 "Later" Done 6 (Some (mkDate 2025 12 31)) (Some High)
                 ["a"; "b"])
  ∧ ∃ t',
      objects (after [Update 2 (Some "Renamed") (Some Open) (Given None)
                             Ellipsis Ellipsis;
                      Delete 2; ClearDone]
                     sample) !! 1%nat = Some t'
      ∧ id t' = 2 ∧ created_at t' = 6.
Proof.
  split; [reflexivity|].
  apply (identity_is_immutable
           [Update 2 (Some "Renamed") (Some Open) (Given None) Ellipsis
                   Ellipsis;
            Delete 2; ClearDone]
           sample 1%nat
           (mkTask 2 "Later" Done 6 (Some (mkDate 2025 12 31)) (Some High)
                   ["a"; "b"])).
  reflexivity.
Defined.

Lemma transitions_undo_witness :
  dict_get 2 (_tasks (repo sample)) = Some 1%nat
  ∧ objects sample !! 1%nat
    = Some (mkTask 2 "Later" Done 6 (Some (mkDate 2025 12 31)) (Some High)
                   ["a"; "b"])
  ∧ (_ ← reopen_task 2; mark_done 2) sample = (Ok 1%nat, sample).
Proof.
  split; [reflexivity|]. split; [reflexivity|].
  exact (proj2 (transitions_undo sample 2 1%nat
                  (mkTask 2 "Later" Done 6 (Some (mkDate 2025 12 31))
                          (Some High) ["a"; "b"])
                  eq_refl eq_refl) eq_refl).
Defined.

Lemma done_then_cleared_witness :
  wf sample
  ∧ dict_get 1 (_tasks (repo sample)) = Some 0%nat
  ∧ ∃ n w2,
      (_ ← mark_done 1; clear_done) sample = (Ok n, w2)
      ∧ 1 ≤ n
      ∧ get 1 w2 = (Raise (TaskNotFoundError 1), w2).
Proof.
  split; [compute_done|]. split; [reflexivity|].
  apply (done_then_cleared sample 1 0%nat); [compute_done|reflexivity].
Defined.


Lemma cli_update_never_clears_witness :
  dict_get 2 (_tasks (repo sample)) = Some 1%nat
  ∧ objects sample !! 1%nat
    = Some (mkTask 2 "Later" Done 6 (Some (mkDate 2025 12 31)) (Some High)
                   ["a"; "b"])
  ∧ Cli.cmd_update 2 (Some "Much later") None None None (console []) sample
    = (Return 0,
       printed "Updated task 2: Much later" (console []),
       snd (update 2 (Some "Much later") None Ellipsis Ellipsis Ellipsis
                   sample))
  ∧ ∃ t',
      objects (snd (update 2 (Some "Much later") None Ellipsis Ellipsis
                           Ellipsis sample)) !! 1%nat = Some t'
      ∧ is_Some (due_date t') ∧ is_Some (priority t')
      ∧ tags t' = ["a"; "b"] ∧ status t' = Done ∧ id t' = 2.
Proof.
  split; [reflexivity|]. split; [reflexivity|]. split; [reflexivity|].
  destruct (cli_update_never_clears sample
              (snd (update 2 (Some "Much later") None Ellipsis Ellipsis
                           Ellipsis sample))
              (console []) (printed "Updated task 2: Much later" (console []))
              2 (Some "Much later") None None None 1%nat
              (mkTask 2 "Later" Done 6 (Some (mkDate 2025 12 31)) (Some High)
                      ["a"; "b"])
              0 eq_refl eq_refl eq_refl)
    as (t' & Ht' & Hdue & Hpri & _ & _ & Htags & _ & Hst & Hid).
  exists t'. split; [exact Ht'|].
  split; [apply Hdue; eexists; reflexivity|].
  split; [apply Hpri; eexists; reflexivity|].
  split; [exact (Htags eq_refl)|]. split; [exact Hst|exact Hid].
Defined.

Lemma shell_delete_confirms_witness :
  int sample_env "2" = Some 2
  ∧ ∃ c',
      Shell.cmd_delete sample_env ["2"] (console ["no"]) sample
      = (Return tt, c', sample)
      ∧ input c' = []
      ∧ ∃ question, output c' = [question; "Cancelled." +:+ newline].
Proof.
  split; [reflexivity|].
  destruct (proj2 (shell_delete_confirms sample_env "2" [] 2 (console ["no"])
                     sample eq_refl)
                  1%nat
                  (mkTask 2 "Later" Done 6 (Some (mkDate 2025 12 31))
                          (Some High) ["a"; "b"])
                  eq_refl eq_refl)
    as (c' & Hrun & Hin & Hout).
  exists c'. split; [exact Hrun|]. split; [exact Hin|].
  exact (Hout eq_refl).
Defined.

Lemma guided_update_blank_witness :
  int sample_env "2" = Some 2
  ∧ dict_get 2 (_tasks (repo sample)) = Some 1%nat
  ∧ all_space " " = true
  ∧ ∃ c',
      Shell.cmd_update sample_env ["2"] (console [" "; " "; " "; " "; "list"])
                       sample
      = (Return tt, c', sample)
      ∧ input c' = ["list"].
Proof.
  split; [reflexivity|]. split; [reflexivity|]. split; [reflexivity|].
  apply (guided_update_blank sample_env "2" 2 1%nat
           (mkTask 2 "Later" Done 6 (Some (mkDate 2025 12 31)) (Some High)
                   ["a"; "b"])
           " " " " " " " " ["list"] (console [" "; " "; " "; " "; "list"])
           sample);
    reflexivity.
Defined.

Lemma guided_update_none_witness :
  int sample_env "2" = Some 2
  ∧ dict_get 2 (_tasks (repo sample)) = Some 1%nat
  ∧ Shell.cmd_update sample_env ["2"] (console [" "; "none"; "none"; "none"])
                     sample
    = (Return tt,
       snd (fst (Shell.cmd_update sample_env ["2"]
                   (console [" "; "none"; "none"; "none"]) sample)),
       snd (update 2 None None (Given None) (Given None) (Given (Some []))
                   sample))
  ∧ ∃ t',
      objects (snd (update 2 None None (Given None) (Given None)
                           (Given (Some [])) sample)) !! 1%nat = Some t'
      ∧ due_date t' = None ∧ priority t' = None ∧ tags t' = []
      ∧ title t' = "Later" ∧ status t' = Done ∧ id t' = 2.
Proof.
  split; [reflexivity|]. split; [reflexivity|]. split; [reflexivity|].
  destruct (guided_update_none sample_env "2" 2 1%nat
              (mkTask 2 "Later" Done 6 (Some (mkDate 2025 12 31)) (Some High)
                      ["a"; "b"])
              " " "none" "none" "none" []
              (console [" "; "none"; "none"; "none"])
              (snd (fst (Shell.cmd_update sample_env ["2"]
                           (console [" "; "none"; "none"; "none"]) sample)))
              sample
              (snd (update 2 None None (Given None) (Given None)
                           (Given (Some [])) sample))
              eq_refl eq_refl eq_refl eq_refl eq_refl)
    as (t' & Ht' & Hdue & Hpri & Htags & Hti & _ & _ & _ & Hst & Hid).
  exists t'. split; [exact Ht'|].
  split; [exact (Hdue eq_refl)|]. split; [exact (Hpri eq_refl)|].
  split; [exact (Htags eq_refl)|]. split; [exact (Hti eq_refl)|].
  split; [exact Hst|exact Hid].
Defined.

Lemma shell_failure_is_atomic_witness :
  Shell.handler sample_env 9 "done" = Some (Shell.cmd_done sample_env)
  ∧ Shell.cmd_done sample_env ["999"] (console []) sample
    = (Throw (Domain (TaskNotFoundError 999)), console [], sample)
  ∧ objects sample = objects sample ∧ repo sample = repo sample.
Proof.
  split; [reflexivity|]. split; [reflexivity|].
  apply (shell_failure_is_atomic sample_env 9 "done"
           (Shell.cmd_done sample_env) ["999"] (console []) (console [])
           sample sample (Domain (TaskNotFoundError 999)));
    reflexivity.
Defined.

Lemma shell_clear_confirms_witness :
  wf sample
  ∧ ∃ c' w',
      Shell.cmd_clear sample_env [] (console ["Y"]) sample
      = (Return tt, c', w')
      ∧ objects w' = objects sample
      ∧ repo w' = repo (snd (clear_done sample))
      ∧ input c' = [].
Proof.
  split; [compute_done|].
  apply (shell_clear_confirms sample_env [] (console ["Y"]) sample).
  compute_done.
Defined.

Lemma execute_reports_witness :
  Shell.execute sample_env 9 "Q" (console []) sample
  = (Return true, printed "Goodbye!" (console []), sample)
  ∧ (∀ s, Return true ≠ Throw s)
  ∧ (Return true = Return true
     ↔ ∃ first args,
         shlex_split sample_env "Q" = inr (first :: args)
         ∧ (Shell.resolve (lower first) = "quit"
            ∨ Shell.resolve (lower first) = "exit"))
  ∧ (Return true = Return true
     → sample = sample
       ∧ input (printed "Goodbye!" (console [])) = input (console []))
  ∧ ((∀ first args,
        shlex_split sample_env "Q" = inr (first :: args) →
        Shell.handler sample_env 9 (Shell.resolve (lower first)) = None) →
     sample = sample
     ∧ input (printed "Goodbye!" (console [])) = input (console [])).
Proof.
  split; [reflexivity|].
  apply (execute_reports sample_env 9 "Q" (console [])
           (printed "Goodbye!" (console [])) sample sample (Return true)).
  reflexivity.
Defined.
